(** * Othello: rules engine, game tree and minimax search of [main.cpp]

    A shallow embedding of the C++ program, followed by the notions of its
    specification and by the properties proved of it.

    The board [char board[8][8]] is a list of rows of cells; the three
    characters the program ever stores ('-', 'b', 'w') are the constructors
    of [cell].  [int] values are in [Z]: every quantity the program computes
    stays far below 2^31 (see [heuristic_bounds] and [minimax_plain_bounds]),
    so no wrap-around is written out.

    C++ leaves an array access outside its bounds undefined.  Every function
    that indexes the board therefore returns a [result]: [Ok v] for a run
    that stays inside the board, [Fail OutOfBounds] as soon as an index
    outside the array is used, [Fail (RangeError _)] for the exception
    thrown by [isLegalMove].  The two [while] loops that walk along a
    direction are written with fuel; eight steps are enough on the board,
    and [OutOfFuel] never occurs ([walk_Fail], [collect_Fail]).

    The program does read outside the board (line 148), in the tree it
    builds for its first move already.  What it does from there on is a
    matter of the implementation: the module [Layout] holds the functions
    that call [isFlippable] once more, on an implementation that keeps the
    64 cells in row-major order in memory, and the last part of the file
    states what the program does there.  Where no read leaves the board the
    two agree ([Layout_calculateLegalMoves_refines],
    [Layout_CreateTree_n_refines]).

    The tree is a value: a search returns the node it was given, with the
    [val] fields it has written, next to the value it computed.

    The loops of main are functions of the lines read from std::cin, which
    is taken not to end; the state they carry is the board, the player to
    move, total_moves and the number of lines read.  The functions that
    only print (printLegalMoves, operator<<, printWinner) and the text
    written to std::cout are not modelled. *)

From Stdlib Require Import ZArith Lia String Ascii.
From stdpp Require Import base tactics option list list_numbers.

Local Open Scope Z_scope.

(** ** Errors and the result monad *)

Inductive error : Type :=
| RangeError (what : string)   (* std::range_error thrown by isLegalMove *)
| OutOfBounds                  (* board[i][j] with i or j outside 0..7 *)
| NullChild                    (* children[i] on a node without children *)
| OutOfFuel.                   (* a loop of the model ran out of fuel *)

Inductive result (A : Type) : Type :=
| Ok (a : A)
| Fail (e : error).

Arguments Ok {A} a.
Arguments Fail {A} e.

#[global] Instance result_ret : MRet result := fun A a => Ok a.
#[global] Instance result_bind : MBind result := fun A B f m =>
  match m with
  | Ok a => f a
  | Fail e => Fail e
  end.
#[global] Instance result_fmap : FMap result := fun A B f m =>
  match m with
  | Ok a => Ok (f a)
  | Fail e => Fail e
  end.

(** ** Players, cells and the board *)

Inductive player : Type := Black | White.       (* 'b', 'w' *)
Inductive cell : Type := Empty | Disc (p : player).  (* '-', 'b' / 'w' *)

#[global] Instance player_eq_dec : EqDecision player.
Proof. solve_decision. Defined.
#[global] Instance cell_eq_dec : EqDecision cell.
Proof. solve_decision. Defined.

(* char otherPlayer = (player == 'b') ? 'w' : 'b';          flip, isFlippable *)
Definition otherPlayer (p : player) : player :=
  if decide (p = Black) then White else Black.

(* char other_player = (player == 'w') ? 'b' : 'w';         CreateTree *)
Definition other_player (p : player) : player :=
  if decide (p = White) then Black else White.

Abbreviation board := (list (list cell)).
Abbreviation move := (Z * Z)%type.

Definition on_grid (r c : Z) : bool :=
  (0 <=? r) && (r <=? 7) && (0 <=? c) && (c <=? 7).

(* board[r][c] as an rvalue; nothing is returned outside the array *)
Definition cellAt (b : board) (r c : Z) : option cell :=
  if on_grid r c then row ← b !! Z.to_nat r; row !! Z.to_nat c else None.

Definition read (b : board) (r c : Z) : result cell :=
  match cellAt b r c with
  | Some x => Ok x
  | None => Fail OutOfBounds
  end.

(* board[r][c] = v *)
Definition write (b : board) (r c : Z) (v : cell) : result board :=
  match cellAt b r c with
  | Some _ => Ok (alter (<[Z.to_nat c := v]>) (Z.to_nat r) b)
  | None => Fail OutOfBounds
  end.

Arguments cellAt : simpl never.
Arguments read : simpl never.
Arguments write : simpl never.

(* a char[8][8] object: eight rows of eight cells *)
Definition wf_board (b : board) : Prop :=
  length b = 8%nat /\ Forall (fun row => length row = 8%nat) b.

Definition initial_board : board :=
  let e := Empty in let b := Disc Black in let w := Disc White in
  [ [e;e;e;e;e;e;e;e];
    [e;e;e;e;e;e;e;e];
    [e;e;e;e;e;e;e;e];
    [e;e;e;w;b;e;e;e];
    [e;e;e;b;w;e;e;e];
    [e;e;e;e;e;e;e;e];
    [e;e;e;e;e;e;e;e];
    [e;e;e;e;e;e;e;e] ].

(** ** Move rules: [flip], [isFlippable], [makeMove] *)

Definition surroundingPosDeltas : list (Z * Z) :=
  [ (-1, -1); (-1, 0); (-1, 1);
    (0, -1); (0, 1);
    (1, -1); (1, 0); (1, 1) ].

(* curr_row > 7 || curr_row < 0 || curr_col > 7 || curr_col < 0
   (flip, lines 51 and 71; isFlippable, line 123) *)
Definition off_board (r c : Z) : bool :=
  (r >? 7) || (r <? 0) || (c >? 7) || (c <? 0).

(* curr_row > 7 || curr_row < 0 || curr_col > 7 || curr_row < 0
   (isFlippable, line 144: the last disjunct tests the row again) *)
Definition off_board_144 (r c : Z) : bool :=
  (r >? 7) || (r <? 0) || (c >? 7) || (r <? 0).

(* No walk takes more than eight steps on an 8x8 board. *)
Definition walk_fuel : nat := 8.

(* while(char_in_pos == otherPlayer){
     curr_row += deltas[0]; curr_col += deltas[1];
     if(<chk>) break;
     char_in_pos = board[curr_row][curr_col]; }
   The value is char_in_pos after the loop. *)
Fixpoint walk (chk : Z -> Z -> bool) (fuel : nat) (b : board) (other : cell)
    (d0 d1 : Z) (curr_row curr_col : Z) (char_in_pos : cell) : result cell :=
  if decide (char_in_pos = other) then
    match fuel with
    | O => Fail OutOfFuel
    | S fuel' =>
        let curr_row := curr_row + d0 in
        let curr_col := curr_col + d1 in
        if chk curr_row curr_col then Ok char_in_pos
        else
          ch ← read b curr_row curr_col;
          walk chk fuel' b other d0 d1 curr_row curr_col ch
    end
  else Ok char_in_pos.

(* while(char_in_pos == otherPlayer){
     discs_to_flip.push_back({curr_row, curr_col});
     curr_row += deltas[0]; curr_col += deltas[1];
     char_in_pos = board[curr_row][curr_col]; } *)
Fixpoint collect (fuel : nat) (b : board) (other : cell) (d0 d1 : Z)
    (curr_row curr_col : Z) (char_in_pos : cell) (discs_to_flip : list move)
    : result (list move) :=
  if decide (char_in_pos = other) then
    match fuel with
    | O => Fail OutOfFuel
    | S fuel' =>
        let discs_to_flip := discs_to_flip ++ [(curr_row, curr_col)] in
        let curr_row := curr_row + d0 in
        let curr_col := curr_col + d1 in
        ch ← read b curr_row curr_col;
        collect fuel' b other d0 d1 curr_row curr_col ch discs_to_flip
    end
  else Ok discs_to_flip.

(* the body of flip's for(auto deltas : surroundingPosDeltas) *)
Fixpoint flip_dirs (b : board) (row col : Z) (p : player)
    (ds : list (Z * Z)) (discs_to_flip : list move) : result (list move) :=
  match ds with
  | [] => Ok discs_to_flip
  | (d0, d1) :: ds' =>
      let curr_row := row + d0 in
      let curr_col := col + d1 in
      if off_board curr_row curr_col then flip_dirs b row col p ds' discs_to_flip
      else
        char_in_pos ← read b curr_row curr_col;
        if decide (char_in_pos = Disc (otherPlayer p)) then
          last ← walk off_board walk_fuel b (Disc (otherPlayer p)) d0 d1
                   curr_row curr_col char_in_pos;
          if decide (last = Disc p) then
            first ← read b (row + d0) (col + d1);
            discs ← collect walk_fuel b (Disc (otherPlayer p)) d0 d1
                      (row + d0) (col + d1) first discs_to_flip;
            flip_dirs b row col p ds' discs
          else flip_dirs b row col p ds' discs_to_flip
        else flip_dirs b row col p ds' discs_to_flip
  end.

(* for(auto pos : discs_to_flip) board[pos[0]][pos[1]] = player; *)
Fixpoint paint (b : board) (p : player) (discs : list move) : result board :=
  match discs with
  | [] => Ok b
  | (r, c) :: discs' => b' ← write b r c (Disc p); paint b' p discs'
  end.

Definition flip (b : board) (row col : Z) (p : player) : result board :=
  discs ← flip_dirs b row col p surroundingPosDeltas [];
  paint b p discs.

Fixpoint isFlippable_dirs (b : board) (row col : Z) (p : player)
    (ds : list (Z * Z)) : result bool :=
  match ds with
  | [] => Ok false
  | (d0, d1) :: ds' =>
      if off_board (row + d0) (col + d1) then isFlippable_dirs b row col p ds'
      else
        char_in_pos ← read b (row + d0) (col + d1);
        if decide (char_in_pos = Disc (otherPlayer p)) then
          last ← walk off_board_144 walk_fuel b (Disc (otherPlayer p)) d0 d1
                   (row + d0) (col + d1) char_in_pos;
          if decide (last = Disc p) then Ok true
          else isFlippable_dirs b row col p ds'
        else isFlippable_dirs b row col p ds'
  end.

Definition isFlippable (b : board) (row col : Z) (p : player) : result bool :=
  isFlippable_dirs b row col p surroundingPosDeltas.
Arguments isFlippable : simpl never.

Definition makeMove (b : board) (row col : Z) (p : player) : result board :=
  b' ← write b row col (Disc p);
  flip b' row col p.

(** ** Legal moves *)

(* for(i = 0; i < 8; ++i) for(j = 0; j < 8; ++j): the cells in row-major order *)
Definition squares : list move :=
  i ← seqZ 0 8; j ← seqZ 0 8; mret (M := list) (i, j).

Fixpoint legal_scan (b : board) (p : player) (sq : list move)
    (move_list : list move) : result (list move) :=
  match sq with
  | [] => Ok move_list
  | (i, j) :: sq' =>
      ch ← read b i j;
      if decide (ch = Empty) then
        flippable ← isFlippable b i j p;
        if (flippable : bool) then legal_scan b p sq' (move_list ++ [(i, j)])
        else legal_scan b p sq' move_list
      else legal_scan b p sq' move_list
  end.

Definition calculateLegalMoves (b : board) (p : player) : result (list move) :=
  legal_scan b p squares [].

Definition getBlackLegalMoves (b : board) := calculateLegalMoves b Black.
Definition getWhiteLegalMoves (b : board) := calculateLegalMoves b White.

(* bool isGameOver: getBlackLegalMoves(board).empty() && getWhiteLegalMoves(board).empty();
   the right operand of && is evaluated only when the left one is true *)
Definition isGameOver (b : board) : result bool :=
  bm ← getBlackLegalMoves b;
  match bm with
  | [] => wm ← getWhiteLegalMoves b; Ok (bool_decide (wm = []))
  | _ :: _ => Ok false
  end.

Fixpoint score_scan (b : board) (p : player) (sq : list move) (total : Z)
    : result Z :=
  match sq with
  | [] => Ok total
  | (i, j) :: sq' =>
      ch ← read b i j;
      if decide (ch = Disc p) then score_scan b p sq' (total + 1)
      else score_scan b p sq' total
  end.

Definition getScore (b : board) (p : player) : result Z :=
  score_scan b p squares 0.

(* isLegalMove reads the board and the list and writes nothing; the board is
   returned with the answer so that this can be stated. *)
Definition isLegalMove (b : board) (move_list : list move) (row col : Z)
    (p : player) : result (bool * board) :=
  if (row >? 7) || (row <? 0) || (col >? 7) || (col <? 0)
  then Fail (RangeError "isLegalMove()")
  else
    ch ← read b row col;
    if decide (ch <> Empty) then Ok (false, b)
    else if decide ((row, col) ∈ move_list) then Ok (true, b)
    else Ok (false, b).

(** ** Heuristic *)

(* if(board[r][c] == 'w') w_total += 10;  if(board[r][c] == 'b') b_total += 10; *)
Definition corner (b : board) (r c : Z) (totals : Z * Z) : result (Z * Z) :=
  let '(b_total, w_total) := totals in
  ch ← read b r c;
  let w_total := if decide (ch = Disc White) then w_total + 10 else w_total in
  ch' ← read b r c;
  let b_total := if decide (ch' = Disc Black) then b_total + 10 else b_total in
  Ok (b_total, w_total).
Arguments corner : simpl never.

Definition heuristic (b : board) : result Z :=
  let b_total := 0 in
  let w_total := 0 in
  bm ← getBlackLegalMoves b;
  let b_total := b_total + Z.of_nat (length bm) in
  wm ← getWhiteLegalMoves b;
  let w_total := w_total + Z.of_nat (length wm) in
  bs ← getScore b Black;
  let b_total := b_total + bs in
  ws ← getScore b White;
  let w_total := w_total + ws in
  t ← corner b 0 0 (b_total, w_total);
  t ← corner b 7 0 t;
  t ← corner b 0 7 t;
  t ← corner b 7 7 t;
  Ok (t.1 - t.2).

(** ** Game tree *)

(* struct Node; children is None for the NULL pointer. *)
#[local] Unset Elimination Schemes.
Inductive Node : Type := mkNode {
  children : option (list Node);
  child_count : Z;
  move_list : list move;
  state : board;
  val : Z
}.
#[local] Set Elimination Schemes.

(* Node * CreateTree(board, depth, player); [n] is the depth when it is
   positive and 0 otherwise, so that [S n'] is the case depth > 0 and the
   children are built with depth - 1.  new Node() value-initialises val to 0. *)
Fixpoint CreateTree_n (n : nat) (b : board) (p : player) : result Node :=
  ml ← (if decide (p = White) then getWhiteLegalMoves b
        else getBlackLegalMoves b);
  let count := Z.of_nat (length ml) in
  match n with
  | S n' =>
      if 0 <? count then
        kids ← mapM (fun m : move =>
                  tmp_board ← makeMove b m.1 m.2 p;
                  CreateTree_n n' tmp_board (other_player p)) ml;
        Ok (mkNode (Some kids) count ml b 0)
      else Ok (mkNode None count ml b 0)
  | O => Ok (mkNode None count ml b 0)
  end.

Definition CreateTree (b : board) (depth : Z) (p : player) : result Node :=
  CreateTree_n (Z.to_nat depth) b p.

(** ** Minimax *)

(* the node after [position->val = v], its children array holding [kids] *)
Definition store (position : Node) (kids : list Node) (v : Z) : Node :=
  mkNode (match children position with Some _ => Some kids | None => None end)
         (child_count position) (move_list position) (state position) v.

Definition kids_of (position : Node) : list Node :=
  match children position with Some cs => cs | None => [] end.

(* depth == 0 || isGameOver(position->state) *)
Definition at_base (position : Node) (depth : Z) : result bool :=
  if decide (depth = 0) then Ok true else isGameOver (state position).

Section Loops.
(* the recursive call minimax(child, depth, alpha, beta, maximizing) *)
Variable rec : Node -> Z -> Z -> Z -> bool -> result (Z * Node).
Variable e : error.
Variable depth : Z.

(* for(i ...; i < child_count; ++i){ eval = minimax(children[i], depth - 1, alpha, beta, false);
     max_eval = max(max_eval, eval); alpha = max(alpha, eval); if(beta <= alpha) break; }
   [cs] are the children from index i on, [todo] is child_count - i. *)
Fixpoint max_loop (beta : Z) (cs : list Node) (todo : nat) (alpha max_eval : Z)
    {struct cs} : result (Z * list Node) :=
  match todo with
  | O => Ok (max_eval, cs)
  | S todo' =>
      match cs with
      | [] => Fail e
      | c :: cs' =>
          '(eval, c') ← rec c (depth - 1) alpha beta false;
          let max_eval := Z.max max_eval eval in
          let alpha := Z.max alpha eval in
          if beta <=? alpha then Ok (max_eval, c' :: cs')
          else
            '(m, cs'') ← max_loop beta cs' todo' alpha max_eval;
            Ok (m, c' :: cs'')
      end
  end.

Fixpoint min_loop (alpha : Z) (cs : list Node) (todo : nat) (beta min_eval : Z)
    {struct cs} : result (Z * list Node) :=
  match todo with
  | O => Ok (min_eval, cs)
  | S todo' =>
      match cs with
      | [] => Fail e
      | c :: cs' =>
          '(eval, c') ← rec c (depth - 1) alpha beta true;
          let min_eval := Z.min min_eval eval in
          let beta := Z.min beta eval in
          if beta <=? alpha then Ok (min_eval, c' :: cs')
          else
            '(m, cs'') ← min_loop alpha cs' todo' beta min_eval;
            Ok (m, c' :: cs'')
      end
  end.
End Loops.

(* int minimax(Node *position, int depth, int alpha, int beta, bool maximizing_player);
   the node is returned with the value because the search writes val. *)
Fixpoint minimax (position : Node) (depth alpha beta : Z)
    (maximizing_player : bool) {struct position} : result (Z * Node) :=
  base ← at_base position depth;
  if (base : bool) then
    h ← heuristic (state position); Ok (h, position)
  else
    match position with
    | mkNode ch cc _ _ _ =>
        if maximizing_player then
          '(max_eval, kids) ←
            match ch with
            | Some cs =>
                max_loop minimax OutOfBounds depth beta cs (Z.to_nat cc)
                  alpha (-9999999)
            | None =>
                max_loop minimax NullChild depth beta [] (Z.to_nat cc)
                  alpha (-9999999)
            end;
          Ok (max_eval, store position kids max_eval)
        else
          '(min_eval, kids) ←
            match ch with
            | Some cs =>
                min_loop minimax OutOfBounds depth alpha cs (Z.to_nat cc)
                  beta 9999999
            | None =>
                min_loop minimax NullChild depth alpha [] (Z.to_nat cc)
                  beta 9999999
            end;
          Ok (min_eval, store position kids min_eval)
    end.

Section PlainLoops.
(* the recursive call minimax(child, depth, maximizing) of the overload
   without pruning *)
Variable rec : Node -> Z -> bool -> result (Z * Node).
Variable e : error.
Variable depth : Z.

Fixpoint plain_max_loop (cs : list Node) (todo : nat) (max_eval : Z)
    {struct cs} : result (Z * list Node) :=
  match todo with
  | O => Ok (max_eval, cs)
  | S todo' =>
      match cs with
      | [] => Fail e
      | c :: cs' =>
          '(eval, c') ← rec c (depth - 1) false;
          let max_eval := Z.max max_eval eval in
          '(m, cs'') ← plain_max_loop cs' todo' max_eval;
          Ok (m, c' :: cs'')
      end
  end.

Fixpoint plain_min_loop (cs : list Node) (todo : nat) (min_eval : Z)
    {struct cs} : result (Z * list Node) :=
  match todo with
  | O => Ok (min_eval, cs)
  | S todo' =>
      match cs with
      | [] => Fail e
      | c :: cs' =>
          '(eval, c') ← rec c (depth - 1) true;
          let min_eval := Z.min min_eval eval in
          '(m, cs'') ← plain_min_loop cs' todo' min_eval;
          Ok (m, c' :: cs'')
      end
  end.
End PlainLoops.

(* int minimax(Node *position, int depth, bool maximizing_player) *)
Fixpoint minimax_plain (position : Node) (depth : Z)
    (maximizing_player : bool) {struct position} : result (Z * Node) :=
  base ← at_base position depth;
  if (base : bool) then
    h ← heuristic (state position); Ok (h, position)
  else
    match position with
    | mkNode ch cc _ _ _ =>
        if maximizing_player then
          '(max_eval, kids) ←
            match ch with
            | Some cs =>
                plain_max_loop minimax_plain OutOfBounds depth cs (Z.to_nat cc)
                  (-9999999)
            | None =>
                plain_max_loop minimax_plain NullChild depth [] (Z.to_nat cc)
                  (-9999999)
            end;
          Ok (max_eval, store position kids max_eval)
        else
          '(min_eval, kids) ←
            match ch with
            | Some cs =>
                plain_min_loop minimax_plain OutOfBounds depth cs (Z.to_nat cc)
                  9999999
            | None =>
                plain_min_loop minimax_plain NullChild depth [] (Z.to_nat cc)
                  9999999
            end;
          Ok (min_eval, store position kids min_eval)
    end.

(** ** The engine's turn (main, lines 585-623) *)

Definition MINIMAX_DEPTH : Z := 5.

(* for(int j = 0; j < 7; ++j) for(int k = 0; k < 7; ++k) *)
Definition compared : list move :=
  j ← seqZ 0 7; k ← seqZ 0 7; mret (M := list) (j, k).

(* if(gametree->children[i]->state[j][k] != board[j][k]) same_config = false; *)
Fixpoint same_config_scan (child_state b : board) (sq : list move)
    (same_config : bool) : result bool :=
  match sq with
  | [] => Ok same_config
  | (j, k) :: sq' =>
      x ← read child_state j k;
      y ← read b j k;
      same_config_scan child_state b sq'
        (if decide (x <> y) then false else same_config)
  end.

(* for(i = 0; i < gametree->child_count; ++i)
     if(gametree->children[i]->val == optimial_val){ ...; break; } *)
Fixpoint choose (e : error) (b : board) (ml : list move) (p : player)
    (optimial_val : Z) (cs : list Node) (todo : nat) {struct cs}
    : result board :=
  match todo with
  | O => Ok b
  | S todo' =>
      match cs with
      | [] => Fail e
      | c :: cs' =>
          if decide (val c = optimial_val) then
            same_config ← same_config_scan (state c) b compared true;
            if negb same_config then Ok (state c)
            else
              match ml with
              | [] => Fail OutOfBounds
              | m :: _ => makeMove b m.1 m.2 p
              end
          else choose e b ml p optimial_val cs' todo'
      end
  end.

(* bool maximizer = (player == 'b') ? true : false; *)
Definition maximizer (p : player) : bool := bool_decide (p = Black).

(* one pass through the else-branch "AI turn" of the game loop, entered with
   move_list = calculateLegalMoves(board, player) *)
Definition ai_turn (depth : Z) (b : board) (p : player) : result board :=
  ml ← calculateLegalMoves b p;
  gametree ← CreateTree b depth p;
  '(optimial_val, gametree) ←
    minimax gametree depth (-99999999) 99999999 (maximizer p);
  match children gametree with
  | Some cs =>
      choose OutOfBounds b ml p optimial_val cs
        (Z.to_nat (child_count gametree))
  | None =>
      choose NullChild b ml p optimial_val []
        (Z.to_nat (child_count gametree))
  end.

(** ** The game loops (main, lines 470-700)

    The loops of main are functions of the lines that std::getline reads
    from std::cin.  The text written to std::cout is not part of the model;
    the calls that compute what is printed are kept where they read the
    board.  A loop is written with fuel: [Fail OutOfFuel] for every amount
    of fuel is a run that does not end. *)

Definition PLAY_AI : bool := true.

(* a character of the class [0-7] *)
Definition digit_0_7 (a : ascii) : bool :=
  (48 <=? nat_of_ascii a)%nat && (nat_of_ascii a <=? 55)%nat.

(* std::regex_match(user_input, move_input_pattern) with the pattern
   "[0-7] [0-7]", then row = user_input[0] - '0', col = user_input[2] - '0';
   None when the line does not match *)
Definition parse_move (user_input : string) : option (Z * Z) :=
  match user_input with
  | String a (String sp (String c EmptyString)) =>
      if digit_0_7 a && Ascii.eqb sp " " && digit_0_7 c
      then Some (Z.of_nat (nat_of_ascii a) - 48, Z.of_nat (nat_of_ascii c) - 48)
      else None
  | _ => None
  end.

(* std::regex_match(selected_player, player_selection_pattern) with the
   pattern "w|b", then player_char = selected_player[0] *)
Definition parse_player (selected_player : string) : option player :=
  if String.eqb selected_player "w" then Some White
  else if String.eqb selected_player "b" then Some Black
  else None.

(* the lines that std::getline reads from std::cin, by number; the input
   does not end *)
Definition input : Type := nat -> string.

(* the variables of main that the loops change, and the number of lines
   read so far *)
Record game : Type := mkGame {
  g_board : board;
  g_player : player;
  g_total_moves : Z;
  g_read : nat
}.

(* how an iteration of a loop ends: the loop goes on, or main returns *)
Inductive step : Type :=
| Continue (g : game)
| Return (code : Z) (g : game).

(* if (player == 'b' && getBlackLegalMoves(board).empty()) { player = 'w'; continue; }
   if (player == 'w' && getWhiteLegalMoves(board).empty()) { player = 'b'; continue; }
   the player to whom the turn passes, if it does *)
Definition turn_passes (b : board) (p : player) : result (option player) :=
  black_passes ←
    (if decide (p = Black)
     then bm ← getBlackLegalMoves b; Ok (bool_decide (bm = []))
     else Ok false);
  if (black_passes : bool) then Ok (Some White)
  else
    white_passes ←
      (if decide (p = White)
       then wm ← getWhiteLegalMoves b; Ok (bool_decide (wm = []))
       else Ok false);
    if (white_passes : bool) then Ok (Some Black) else Ok None.

(* try { if(isLegalMove(board, move_list, row, col, player))
           makeMove(board, row, col, player);
         else { ...; continue; } }
   catch(std::range_error& e){ ...; return 1; }
   None: the move is rejected (continue); Some (inl b'): the move is made;
   Some (inr 1): main returns 1 *)
Definition try_move (b : board) (move_list : list move) (row col : Z)
    (p : player) : result (option (board + Z)) :=
  match isLegalMove b move_list row col p with
  | Ok (true, _) => b' ← makeMove b row col p; Ok (Some (inl b'))
  | Ok (false, _) => Ok None
  | Fail (RangeError _) => Ok (Some (inr 1))
  | Fail e => Fail e
  end.

(* player = (player == 'w') ? 'b' : 'w'; *)
Definition switch_players (p : player) : player :=
  if decide (p = White) then Black else White.

(* one iteration of the loop of the two-player game (lines 635-693), entered
   with isGameOver(board) false *)
Definition two_player_step (inp : input) (g : game) : result step :=
  let board := g_board g in
  let player := g_player g in
  move_list ← calculateLegalMoves board player;
  pass ← turn_passes board player;
  match pass with
  | Some player' =>
      Ok (Continue (mkGame board player' (g_total_moves g) (g_read g)))
  | None =>
      let user_input := inp (g_read g) in
      let g1 := mkGame board player (g_total_moves g) (S (g_read g)) in
      match parse_move user_input with
      | None => Ok (Continue g1)
      | Some (row, col) =>
          r ← try_move board move_list row col player;
          match r with
          | None => Ok (Continue g1)
          | Some (inr code) => Ok (Return code g1)
          | Some (inl board') =>
              let total_moves := g_total_moves g + 1 in
              white_total ← getScore board' White;
              black_total ← getScore board' Black;
              Ok (Continue (mkGame board' (switch_players player) total_moves
                              (S (g_read g))))
          end
      end
  end.

(* while(!isGameOver(board)){ ... }
   std::cout << board; printWinner(board); return 0;
   printWinner calls getScore for the two colours *)
Fixpoint two_player_game (fuel : nat) (inp : input) (g : game)
    : result (Z * game) :=
  match fuel with
  | O => Fail OutOfFuel
  | S fuel' =>
      over ← isGameOver (g_board g);
      if (over : bool) then
        white_total ← getScore (g_board g) White;
        black_total ← getScore (g_board g) Black;
        Ok (0, g)
      else
        s ← two_player_step inp g;
        match s with
        | Continue g' => two_player_game fuel' inp g'
        | Return code g' => Ok (code, g')
        end
  end.

(* the inner loop of the user's turn in the game against the engine
   (lines 551-581): lines are read until one is a legal move; the value is
   the board after the move, or the code with which main returns, and the
   number of lines read *)
Fixpoint user_turn (fuel : nat) (inp : input) (b : board)
    (move_list : list move) (p : player) (read : nat)
    : result ((board + Z) * nat) :=
  match fuel with
  | O => Fail OutOfFuel
  | S fuel' =>
      let user_input := inp read in
      match parse_move user_input with
      | None => user_turn fuel' inp b move_list p (S read)
      | Some (row, col) =>
          r ← try_move b move_list row col p;
          match r with
          | None => user_turn fuel' inp b move_list p (S read)
          | Some outcome => Ok (outcome, S read)
          end
      end
  end.

(* one iteration of the loop of the game against the engine (lines 520-632),
   entered with isGameOver(board) false; [player_char] is the user's colour *)
Definition ai_game_step (fuel : nat) (inp : input) (player_char : player)
    (g : game) : result step :=
  let board := g_board g in
  let player := g_player g in
  move_list ← calculateLegalMoves board player;
  pass ← turn_passes board player;
  match pass with
  | Some player' =>
      Ok (Continue (mkGame board player' (g_total_moves g) (g_read g)))
  | None =>
      white_total ← getScore board White;
      black_total ← getScore board Black;
      if decide (player = player_char) then
        (* printLegalMoves(board, player_char) computes the list once more *)
        _ ← calculateLegalMoves board player_char;
        '(outcome, read) ←
          user_turn fuel inp board move_list player (g_read g);
        match outcome with
        | inr code =>
            Ok (Return code (mkGame board player (g_total_moves g) read))
        | inl board' =>
            Ok (Continue (mkGame board' (switch_players player)
                            (g_total_moves g + 1) read))
        end
      else
        board' ← ai_turn MINIMAX_DEPTH board player;
        Ok (Continue (mkGame board' (switch_players player)
                        (g_total_moves g + 1) (g_read g)))
  end.

Fixpoint ai_game (fuel : nat) (inp : input) (player_char : player) (g : game)
    : result (Z * game) :=
  match fuel with
  | O => Fail OutOfFuel
  | S fuel' =>
      over ← isGameOver (g_board g);
      if (over : bool) then
        white_total ← getScore (g_board g) White;
        black_total ← getScore (g_board g) Black;
        Ok (0, g)
      else
        s ← ai_game_step fuel' inp player_char g;
        match s with
        | Continue g' => ai_game fuel' inp player_char g'
        | Return code g' => Ok (code, g')
        end
  end.

(* the loop that asks for the user's colour (lines 503-511): the colour and
   the number of lines read *)
Fixpoint select_player (fuel : nat) (inp : input) (read : nat)
    : result (player * nat) :=
  match fuel with
  | O => Fail OutOfFuel
  | S fuel' =>
      match parse_player (inp read) with
      | Some p => Ok (p, S read)
      | None => select_player fuel' inp (S read)
      end
  end.

(* int main(): the board is set up, Black moves first *)
Definition main (fuel : nat) (inp : input) : result (Z * game) :=
  let board := initial_board in
  let total_moves := 0 in
  let player := Black in
  if PLAY_AI then
    '(player_char, read) ← select_player fuel inp 0;
    ai_game fuel inp player_char (mkGame board player total_moves read)
  else
    two_player_game fuel inp (mkGame board player total_moves 0).

(** * The specification side

    What follows is not translated from the program: the notions in which
    the properties are stated, the positions they are evaluated on, and the
    program's selection and capture rule as the specification words them. *)

(** ** Which nodes a search visits

    A node of the tree is named by its path from the root (child indices).
    [max_arrive] and [min_arrive] follow the for-loops of the pruned search:
    the value is the alpha (beta) with which the loop comes to test
    [i < child_count] for index [i], and [None] if a [break] (or an error)
    ends the loop before.  *)

Fixpoint max_arrive (depth beta : Z) (cs : list Node) (i : nat) (alpha : Z)
    : option Z :=
  match i with
  | O => Some alpha
  | S i' =>
      match cs with
      | [] => None
      | c :: cs' =>
          match minimax c (depth - 1) alpha beta false with
          | Ok (eval, _) =>
              let alpha := Z.max alpha eval in
              if beta <=? alpha then None
              else max_arrive depth beta cs' i' alpha
          | Fail _ => None
          end
      end
  end.

Fixpoint min_arrive (depth alpha : Z) (cs : list Node) (i : nat) (beta : Z)
    : option Z :=
  match i with
  | O => Some beta
  | S i' =>
      match cs with
      | [] => None
      | c :: cs' =>
          match minimax c (depth - 1) alpha beta true with
          | Ok (eval, _) =>
              let beta := Z.min beta eval in
              if beta <=? alpha then None
              else min_arrive depth alpha cs' i' beta
          | Fail _ => None
          end
      end
  end.

(* the arguments of one call of the pruned search *)
Record call : Type := mkCall {
  c_node : Node; c_depth : Z; c_alpha : Z; c_beta : Z; c_max : bool
}.

(* the call that minimax(position, depth, alpha, beta, maxi) makes on the
   node at [path], if the search gets there *)
Fixpoint call_at (position : Node) (depth alpha beta : Z) (maxi : bool)
    (path : list nat) : option call :=
  match path with
  | [] => Some (mkCall position depth alpha beta maxi)
  | i :: path' =>
      match at_base position depth with
      | Ok false =>
          if decide (i < Z.to_nat (child_count position))%nat then
            c ← kids_of position !! i;
            if maxi then
              a ← max_arrive depth beta (kids_of position) i alpha;
              call_at c (depth - 1) a beta false path'
            else
              b ← min_arrive depth alpha (kids_of position) i beta;
              call_at c (depth - 1) alpha b true path'
          else None
      | _ => None
      end
  end.

(* the call is not a base case and its loop runs over every child and ends
   by its condition, not by a break *)
Definition fully_visited (cl : call) : bool :=
  match at_base (c_node cl) (c_depth cl) with
  | Ok false =>
      let n := Z.to_nat (child_count (c_node cl)) in
      if c_max cl then
        bool_decide (is_Some (max_arrive (c_depth cl) (c_beta cl)
                                (kids_of (c_node cl)) n (c_alpha cl)))
      else
        bool_decide (is_Some (min_arrive (c_depth cl) (c_alpha cl)
                                (kids_of (c_node cl)) n (c_beta cl)))
  | _ => false
  end.

Fixpoint subtree (t : Node) (path : list nat) : option Node :=
  match path with
  | [] => Some t
  | i :: path' => c ← kids_of t !! i; subtree c path'
  end.

(* the search writes val on the node at [path]: it calls minimax on it and
   the call is not a base case *)
Definition written (t : Node) (depth alpha beta : Z) (maxi : bool)
    (path : list nat) : bool :=
  match call_at t depth alpha beta maxi path with
  | Some cl =>
      match at_base (c_node cl) (c_depth cl) with
      | Ok false => true
      | _ => false
      end
  | None => false
  end.

(* the node at [path] and every node the search visits below it is a base
   case or fully visited: no [break] anywhere in that part of the search *)
Definition no_cut_below (t : Node) (depth alpha beta : Z) (maxi : bool)
    (path : list nat) : Prop :=
  forall path' cl,
    call_at t depth alpha beta maxi (path ++ path') = Some cl ->
    at_base (c_node cl) (c_depth cl) = Ok true \/ fully_visited cl = true.

(** ** Colour swap (the relabelling of the two players) *)

Definition swap_player (p : player) : player :=
  match p with Black => White | White => Black end.

Definition swap_cell (x : cell) : cell :=
  match x with Empty => Empty | Disc p => Disc (swap_player p) end.

Definition colorSwap (b : board) : board := map (map swap_cell) b.


(** ** The heuristic, in the words of the specification *)

(* the number of cells among [sq] that hold a piece of [p] *)
Definition pieces_on (b : board) (p : player) (sq : list move) : Z :=
  Z.of_nat (length (filter (fun x : move => cellAt b x.1 x.2 = Some (Disc p))
                      sq)).

Definition corners : list move := [(0, 0); (7, 0); (0, 7); (7, 7)].

(* score = legal-move count + piece count + 10 per corner occupied *)
Definition score_of (b : board) (p : player) (moves : list move) : Z :=
  Z.of_nat (length moves) + pieces_on b p squares + 10 * pieces_on b p corners.

(** ** The capture rule, in the words of the specification *)

(* in direction (d0, d1) from (r, c): [k] >= 1 cells of the opponent, then a
   cell of the mover, all of them on the grid *)
Definition opposing_run (b : board) (p : player) (r c d0 d1 k : Z) : Prop :=
  1 <= k /\
  (forall i, 1 <= i <= k ->
     cellAt b (r + i * d0) (c + i * d1) = Some (Disc (swap_player p))) /\
  cellAt b (r + (k + 1) * d0) (c + (k + 1) * d1) = Some (Disc p).

Definition captures_in (b : board) (p : player) (r c : Z) (d : Z * Z) : Prop :=
  exists k, opposing_run b p r c d.1 d.2 k.

Definition legal_by_rule (b : board) (p : player) (r c : Z) : Prop :=
  cellAt b r c = Some Empty /\
  exists d, d ∈ surroundingPosDeltas /\ captures_in b p r c d.

(* "(r,c) is in legalMoves(board, player) iff the cell is Empty and some
   direction qualifies" *)
Definition legal_moves_as_specified (b : board) (p : player) : Prop :=
  exists l, calculateLegalMoves b p = Ok l /\
    forall r c, 0 <= r <= 7 -> 0 <= c <= 7 ->
      ((r, c) ∈ l <-> legal_by_rule b p r c).

(* the cells that a move on (r, c) turns over along the directions [ds] *)
Definition flipped_by (b : board) (p : player) (r c : Z) (ds : list (Z * Z))
    (x : move) : Prop :=
  exists d k i, d ∈ ds /\ opposing_run b p r c d.1 d.2 k /\
                1 <= i <= k /\ x = (r + i * d.1, c + i * d.2).

(** ** The shape of the tree, in the words of the specification

    [built_as n b p t]: [t] is the node for player [p] to move on [b] with
    [n] plies left.  It holds the board and the legal moves of [p] in
    row-major order; it has no children when there is no legal move or no
    ply left, and otherwise one child per legal move, in the order of the
    list, each on the board after that move, for the opposing player, with
    one ply less. *)
Fixpoint built_as (n : nat) (b : board) (p : player) (t : Node) : Prop :=
  state t = b /\
  calculateLegalMoves b p = Ok (move_list t) /\
  sublist (move_list t) squares /\
  child_count t = Z.of_nat (length (move_list t)) /\
  match n with
  | O => children t = None
  | S n' =>
      if decide (move_list t = []) then children t = None
      else
        exists kids, children t = Some kids /\
          Forall2 (fun (m : move) (c : Node) =>
                     exists b', makeMove b m.1 m.2 p = Ok b' /\
                                built_as n' b' (swap_player p) c)
                  (move_list t) kids
  end.

(** ** The search and the selection, in the words of the specification *)

(* "the pruned and the non-pruning search return the same root value, and
   every node that the pruned search fully visits gets the same val" *)
Definition same_val_when_fully_visited (b : board) (depth : Z) (p : player)
    : Prop :=
  forall t ta tp v v',
    CreateTree b depth p = Ok t ->
    minimax t depth (-99999999) 99999999 (maximizer p) = Ok (v, ta) ->
    minimax_plain t depth (maximizer p) = Ok (v', tp) ->
    v = v' /\
    forall path cl,
      call_at t depth (-99999999) 99999999 (maximizer p) path = Some cl ->
      fully_visited cl = true ->
      val <$> subtree ta path = val <$> subtree tp path.

(* the two searches run on the tree of [b], and the vals they leave at
   [path] when the pruned search fully visits that node *)
Definition vals_at (b : board) (depth : Z) (p : player) (path : list nat)
    : option (option Z * option Z) :=
  match CreateTree b depth p with
  | Ok t =>
      match minimax t depth (-99999999) 99999999 (maximizer p),
            minimax_plain t depth (maximizer p),
            call_at t depth (-99999999) 99999999 (maximizer p) path with
      | Ok (_, ta), Ok (_, tp), Some cl =>
          if fully_visited cl
          then Some (val <$> subtree ta path, val <$> subtree tp path)
          else None
      | _, _, _ => None
      end
  | Fail _ => None
  end.

(* the move selection as the specification words it: the matched child is
   compared with the current board on all 64 cells *)
Fixpoint choose_claimed (e : error) (b : board) (ml : list move) (p : player)
    (optimial_val : Z) (cs : list Node) (todo : nat) {struct cs}
    : result board :=
  match todo with
  | O => Ok b
  | S todo' =>
      match cs with
      | [] => Fail e
      | c :: cs' =>
          if decide (val c = optimial_val) then
            same_config ← same_config_scan (state c) b squares true;
            if negb same_config then Ok (state c)
            else
              match ml with
              | [] => Fail OutOfBounds
              | m :: _ => makeMove b m.1 m.2 p
              end
          else choose_claimed e b ml p optimial_val cs' todo'
      end
  end.

Definition ai_turn_claimed (depth : Z) (b : board) (p : player)
    : result board :=
  ml ← calculateLegalMoves b p;
  gametree ← CreateTree b depth p;
  '(optimial_val, gametree) ←
    minimax gametree depth (-99999999) 99999999 (maximizer p);
  match children gametree with
  | Some cs =>
      choose_claimed OutOfBounds b ml p optimial_val cs
        (Z.to_nat (child_count gametree))
  | None =>
      choose_claimed NullChild b ml p optimial_val []
        (Z.to_nat (child_count gametree))
  end.

(** ** Positions *)

(* the board after the moves [ms], played in turn from [b] with [p] to move;
   None as soon as a move is not in the list of legal moves *)
Fixpoint play (b : board) (p : player) (ms : list move) : option board :=
  match ms with
  | [] => Some b
  | m :: ms' =>
      match calculateLegalMoves b p with
      | Ok ml =>
          if decide (m ∈ ml) then
            match makeMove b m.1 m.2 p with
            | Ok b' => play b' (other_player p) ms'
            | Fail _ => None
            end
          else None
      | Fail _ => None
      end
  end.

(* White to move, after Black 3,2  White 2,2  Black 1,2  White 1,1  Black 1,0 *)
Definition fifth_ply_board : board :=
  let e := Empty in let b := Disc Black in let w := Disc White in
  [ [e;e;e;e;e;e;e;e];
    [b;b;b;e;e;e;e;e];
    [e;e;w;e;e;e;e;e];
    [e;e;b;w;b;e;e;e];
    [e;e;e;b;w;e;e;e];
    [e;e;e;e;e;e;e;e];
    [e;e;e;e;e;e;e;e];
    [e;e;e;e;e;e;e;e] ].

(* Black to move; White on (3,0), Black on (2,7) *)
Definition left_edge_board : board :=
  let e := Empty in let b := Disc Black in let w := Disc White in
  [ [e;e;e;e;e;e;e;e];
    [e;e;e;e;e;e;e;e];
    [e;e;e;e;e;e;e;b];
    [w;e;e;w;b;e;e;e];
    [e;e;e;b;w;e;e;e];
    [e;e;e;e;e;e;e;e];
    [e;e;e;e;e;e;e;e];
    [e;e;e;e;e;e;e;e] ].

(* White to move, after Black 4,5  White 5,5  Black 6,5 *)
Definition midgame_board : board :=
  let e := Empty in let b := Disc Black in let w := Disc White in
  [ [e;e;e;e;e;e;e;e];
    [e;e;e;e;e;e;e;e];
    [e;e;e;e;e;e;e;e];
    [e;e;e;w;b;e;e;e];
    [e;e;e;b;w;b;e;e];
    [e;e;e;e;e;b;e;e];
    [e;e;e;e;e;b;e;e];
    [e;e;e;e;e;e;e;e] ].

(* Black to move; the only empty cell is (0,0) *)
Definition endgame_board : board :=
  let e := Empty in let b := Disc Black in let w := Disc White in
  [ [e;w;b;b;b;b;b;b];
    [b;b;b;b;b;b;b;b];
    [b;b;b;b;b;b;b;b];
    [b;b;b;b;b;b;b;b];
    [b;b;b;b;b;b;b;b];
    [b;b;b;b;b;b;b;b];
    [b;b;b;b;b;b;b;b];
    [b;b;b;b;b;b;b;b] ].

(* Black to move; the empty cells are (2,0) and (7,7) *)
Definition lastrow_board : board :=
  let e := Empty in let b := Disc Black in let w := Disc White in
  [ [b;b;b;b;b;b;b;w];
    [b;b;b;b;b;b;b;b];
    [e;w;b;b;b;b;b;b];
    [b;b;b;b;b;b;b;b];
    [b;b;b;b;b;b;b;b];
    [b;b;b;b;b;b;b;b];
    [b;b;b;b;b;b;b;b];
    [b;b;b;b;b;b;w;e] ].

Definition leaf (b : board) : Node := mkNode None 0 [] b 0.

(* White to move, after Black 2,3  White 2,2  Black 2,1  White 3,5  Black 4,5 *)
Definition reply_board : board :=
  let e := Empty in let b := Disc Black in let w := Disc White in
  [ [e;e;e;e;e;e;e;e];
    [e;e;e;e;e;e;e;e];
    [e;b;b;b;e;e;e;e];
    [e;e;e;w;b;w;e;e];
    [e;e;e;b;b;b;e;e];
    [e;e;e;e;e;e;e;e];
    [e;e;e;e;e;e;e;e];
    [e;e;e;e;e;e;e;e] ].

(* CreateTree(board, 2, 'b') on the initial board *)
Definition opening_tree : Node :=
  Eval vm_compute in
    match CreateTree initial_board 2 Black with
    | Ok t => t
    | Fail _ => leaf initial_board
    end.

(* the same tree after minimax(gametree, 2, true) without pruning *)
Definition opening_searched : Node :=
  Eval vm_compute in
    match minimax_plain opening_tree 2 true with
    | Ok (_, t) => t
    | Fail _ => leaf initial_board
    end.

(* the same tree after minimax(gametree, 2, -99999999, 99999999, true) *)
Definition opening_pruned : Node :=
  Eval vm_compute in
    match minimax opening_tree 2 (-99999999) 99999999 true with
    | Ok (_, t) => t
    | Fail _ => leaf initial_board
    end.

(* CreateTree(board, 1, 'w') on [reply_board], and the tree after
   minimax(gametree, 1, -99999999, 99999999, false) *)
Definition reply_tree : Node :=
  Eval vm_compute in
    match CreateTree reply_board 1 White with
    | Ok t => t
    | Fail _ => leaf reply_board
    end.

Definition reply_searched : Node :=
  Eval vm_compute in
    match minimax reply_tree 1 (-99999999) 99999999 false with
    | Ok (_, t) => t
    | Fail _ => leaf reply_board
    end.

(* every cell holds a black piece *)
Definition full_black : board := replicate 8 (replicate 8 (Disc Black)).

(* Black to move has no move, White has 0,2 *)
Definition pass_board : board :=
  let e := Empty in let b := Disc Black in let w := Disc White in
  [ [w;b;e;e;e;e;e;e];
    [e;e;e;e;e;e;e;e];
    [e;e;e;e;e;e;e;e];
    [e;e;e;e;e;e;e;e];
    [e;e;e;e;e;e;e;e];
    [e;e;e;e;e;e;e;e];
    [e;e;e;e;e;e;e;e];
    [e;e;e;e;e;e;e;e] ].

(** ** The row-major layout *)

(** [isFlippable] once more, on the usual layout of [char board[8][8]]: the
    64 cells in row-major order, so that [board[r][c]] is the cell at offset
    8 * r + c and [board[r][-1]] is [board[r-1][7]].  Only used to say what
    the out-of-range read of line 148 yields on such an implementation. *)
Module RowMajor.

Definition read (b : board) (r c : Z) : result cell :=
  let offset := 8 * r + c in
  if (0 <=? offset) && (offset <=? 63) then
    match concat b !! Z.to_nat offset with
    | Some x => Ok x
    | None => Fail OutOfBounds
    end
  else Fail OutOfBounds.

Fixpoint walk (fuel : nat) (b : board) (other : cell)
    (d0 d1 : Z) (curr_row curr_col : Z) (char_in_pos : cell) : result cell :=
  if decide (char_in_pos = other) then
    match fuel with
    | O => Fail OutOfFuel
    | S fuel' =>
        let curr_row := curr_row + d0 in
        let curr_col := curr_col + d1 in
        if off_board_144 curr_row curr_col then Ok char_in_pos
        else
          ch ← read b curr_row curr_col;
          walk fuel' b other d0 d1 curr_row curr_col ch
    end
  else Ok char_in_pos.

Fixpoint isFlippable_dirs (b : board) (row col : Z) (p : player)
    (ds : list (Z * Z)) : result bool :=
  match ds with
  | [] => Ok false
  | (d0, d1) :: ds' =>
      if off_board (row + d0) (col + d1) then isFlippable_dirs b row col p ds'
      else
        char_in_pos ← read b (row + d0) (col + d1);
        if decide (char_in_pos = Disc (otherPlayer p)) then
          last ← walk 64 b (Disc (otherPlayer p)) d0 d1
                   (row + d0) (col + d1) char_in_pos;
          if decide (last = Disc p) then Ok true
          else isFlippable_dirs b row col p ds'
        else isFlippable_dirs b row col p ds'
  end.

Definition isFlippable (b : board) (row col : Z) (p : player) : result bool :=
  isFlippable_dirs b row col p surroundingPosDeltas.

End RowMajor.

(** ** The board in memory

    What the program does where it reads outside the array is left open by
    the language and settled by the implementation.  On the usual one the 64
    cells lie in row-major order, [board[r][c]] is the byte at offset
    8 * r + c from the first cell, and a negative offset is a byte of the
    memory in front of the array.  The functions below are those of the
    program on such an implementation.

    [mem] are the bytes in front of the array, the nearest first; what is
    proved holds for every [mem].  [Empty] stands for every byte that is
    neither 'b' nor 'w': the one read that can leave the array, that of line
    148, is compared with the two pieces and with nothing else.  The memory
    beyond [mem] is taken to hold such a byte; a walk ends there at the
    latest.  The bytes are taken not to change while the program runs.

    The other functions that index the board ([flip], [makeMove],
    [getScore], [isLegalMove], the corner tests of [heuristic], the
    comparison of main) stay inside the array wherever the program calls
    them ([makeMove_spec], [getScore_wf], [same_config_scan_total]); they
    are the functions above, and so are the loops over the children of a
    node and the reading of the user's line. *)
Module Layout.

(* board[r][c] as an rvalue: the byte at offset 8 * r + c, in the array or
   in front of it; the program reads nothing behind the array *)
Definition read (mem : list cell) (b : board) (r c : Z) : result cell :=
  let offset := 8 * r + c in
  if offset <? 0 then Ok (default Empty (mem !! Z.to_nat (- offset - 1)))
  else
    match concat b !! Z.to_nat offset with
    | Some x => Ok x
    | None => Fail OutOfBounds
    end.

(* a walk passes over the 64 cells and the bytes of [mem] at most *)
Definition walk_fuel (mem : list cell) : nat := (65 + length mem)%nat.

(* the loop of lines 139-149 *)
Fixpoint walk (mem : list cell) (fuel : nat) (b : board) (other : cell)
    (d0 d1 : Z) (curr_row curr_col : Z) (char_in_pos : cell) : result cell :=
  if decide (char_in_pos = other) then
    match fuel with
    | O => Fail OutOfFuel
    | S fuel' =>
        let curr_row := curr_row + d0 in
        let curr_col := curr_col + d1 in
        if off_board_144 curr_row curr_col then Ok char_in_pos
        else
          ch ← read mem b curr_row curr_col;
          walk mem fuel' b other d0 d1 curr_row curr_col ch
    end
  else Ok char_in_pos.

Fixpoint isFlippable_dirs (mem : list cell) (b : board) (row col : Z)
    (p : player) (ds : list (Z * Z)) : result bool :=
  match ds with
  | [] => Ok false
  | (d0, d1) :: ds' =>
      if off_board (row + d0) (col + d1)
      then isFlippable_dirs mem b row col p ds'
      else
        char_in_pos ← read mem b (row + d0) (col + d1);
        if decide (char_in_pos = Disc (otherPlayer p)) then
          last ← walk mem (walk_fuel mem) b (Disc (otherPlayer p)) d0 d1
                   (row + d0) (col + d1) char_in_pos;
          if decide (last = Disc p) then Ok true
          else isFlippable_dirs mem b row col p ds'
        else isFlippable_dirs mem b row col p ds'
  end.

Definition isFlippable (mem : list cell) (b : board) (row col : Z)
    (p : player) : result bool :=
  isFlippable_dirs mem b row col p surroundingPosDeltas.
Arguments isFlippable : simpl never.

Fixpoint legal_scan (mem : list cell) (b : board) (p : player)
    (sq : list move) (move_list : list move) : result (list move) :=
  match sq with
  | [] => Ok move_list
  | (i, j) :: sq' =>
      ch ← read mem b i j;
      if decide (ch = Empty) then
        flippable ← isFlippable mem b i j p;
        if (flippable : bool)
        then legal_scan mem b p sq' (move_list ++ [(i, j)])
        else legal_scan mem b p sq' move_list
      else legal_scan mem b p sq' move_list
  end.

Definition calculateLegalMoves (mem : list cell) (b : board) (p : player)
    : result (list move) :=
  legal_scan mem b p squares [].

Definition getBlackLegalMoves (mem : list cell) (b : board) :=
  calculateLegalMoves mem b Black.
Definition getWhiteLegalMoves (mem : list cell) (b : board) :=
  calculateLegalMoves mem b White.

Definition isGameOver (mem : list cell) (b : board) : result bool :=
  bm ← getBlackLegalMoves mem b;
  match bm with
  | [] => wm ← getWhiteLegalMoves mem b; Ok (bool_decide (wm = []))
  | _ :: _ => Ok false
  end.

Definition heuristic (mem : list cell) (b : board) : result Z :=
  let b_total := 0 in
  let w_total := 0 in
  bm ← getBlackLegalMoves mem b;
  let b_total := b_total + Z.of_nat (length bm) in
  wm ← getWhiteLegalMoves mem b;
  let w_total := w_total + Z.of_nat (length wm) in
  bs ← getScore b Black;
  let b_total := b_total + bs in
  ws ← getScore b White;
  let w_total := w_total + ws in
  t ← corner b 0 0 (b_total, w_total);
  t ← corner b 7 0 t;
  t ← corner b 0 7 t;
  t ← corner b 7 7 t;
  Ok (t.1 - t.2).

Fixpoint CreateTree_n (mem : list cell) (n : nat) (b : board) (p : player)
    : result Node :=
  ml ← (if decide (p = White) then getWhiteLegalMoves mem b
        else getBlackLegalMoves mem b);
  let count := Z.of_nat (length ml) in
  match n with
  | S n' =>
      if 0 <? count then
        kids ← mapM (fun m : move =>
                  tmp_board ← makeMove b m.1 m.2 p;
                  CreateTree_n mem n' tmp_board (other_player p)) ml;
        Ok (mkNode (Some kids) count ml b 0)
      else Ok (mkNode None count ml b 0)
  | O => Ok (mkNode None count ml b 0)
  end.

Definition CreateTree (mem : list cell) (b : board) (depth : Z) (p : player)
    : result Node :=
  CreateTree_n mem (Z.to_nat depth) b p.

Definition at_base (mem : list cell) (position : Node) (depth : Z)
    : result bool :=
  if decide (depth = 0) then Ok true else isGameOver mem (state position).

Fixpoint minimax (mem : list cell) (position : Node) (depth alpha beta : Z)
    (maximizing_player : bool) {struct position} : result (Z * Node) :=
  base ← at_base mem position depth;
  if (base : bool) then
    h ← heuristic mem (state position); Ok (h, position)
  else
    match position with
    | mkNode ch cc _ _ _ =>
        if maximizing_player then
          '(max_eval, kids) ←
            match ch with
            | Some cs =>
                max_loop (minimax mem) OutOfBounds depth beta cs (Z.to_nat cc)
                  alpha (-9999999)
            | None =>
                max_loop (minimax mem) NullChild depth beta [] (Z.to_nat cc)
                  alpha (-9999999)
            end;
          Ok (max_eval, store position kids max_eval)
        else
          '(min_eval, kids) ←
            match ch with
            | Some cs =>
                min_loop (minimax mem) OutOfBounds depth alpha cs (Z.to_nat cc)
                  beta 9999999
            | None =>
                min_loop (minimax mem) NullChild depth alpha [] (Z.to_nat cc)
                  beta 9999999
            end;
          Ok (min_eval, store position kids min_eval)
    end.

Definition ai_turn (mem : list cell) (depth : Z) (b : board) (p : player)
    : result board :=
  ml ← calculateLegalMoves mem b p;
  gametree ← CreateTree mem b depth p;
  '(optimial_val, gametree) ←
    minimax mem gametree depth (-99999999) 99999999 (maximizer p);
  match children gametree with
  | Some cs =>
      choose OutOfBounds b ml p optimial_val cs
        (Z.to_nat (child_count gametree))
  | None =>
      choose NullChild b ml p optimial_val []
        (Z.to_nat (child_count gametree))
  end.

Definition turn_passes (mem : list cell) (b : board) (p : player)
    : result (option player) :=
  black_passes ←
    (if decide (p = Black)
     then bm ← getBlackLegalMoves mem b; Ok (bool_decide (bm = []))
     else Ok false);
  if (black_passes : bool) then Ok (Some White)
  else
    white_passes ←
      (if decide (p = White)
       then wm ← getWhiteLegalMoves mem b; Ok (bool_decide (wm = []))
       else Ok false);
    if (white_passes : bool) then Ok (Some Black) else Ok None.

Definition two_player_step (mem : list cell) (inp : input) (g : game)
    : result step :=
  let board := g_board g in
  let player := g_player g in
  move_list ← calculateLegalMoves mem board player;
  pass ← turn_passes mem board player;
  match pass with
  | Some player' =>
      Ok (Continue (mkGame board player' (g_total_moves g) (g_read g)))
  | None =>
      let user_input := inp (g_read g) in
      let g1 := mkGame board player (g_total_moves g) (S (g_read g)) in
      match parse_move user_input with
      | None => Ok (Continue g1)
      | Some (row, col) =>
          r ← try_move board move_list row col player;
          match r with
          | None => Ok (Continue g1)
          | Some (inr code) => Ok (Return code g1)
          | Some (inl board') =>
              let total_moves := g_total_moves g + 1 in
              white_total ← getScore board' White;
              black_total ← getScore board' Black;
              Ok (Continue (mkGame board' (switch_players player) total_moves
                              (S (g_read g))))
          end
      end
  end.

Definition ai_game_step (mem : list cell) (fuel : nat) (inp : input)
    (player_char : player) (g : game) : result step :=
  let board := g_board g in
  let player := g_player g in
  move_list ← calculateLegalMoves mem board player;
  pass ← turn_passes mem board player;
  match pass with
  | Some player' =>
      Ok (Continue (mkGame board player' (g_total_moves g) (g_read g)))
  | None =>
      white_total ← getScore board White;
      black_total ← getScore board Black;
      if decide (player = player_char) then
        _ ← calculateLegalMoves mem board player_char;
        '(outcome, read) ←
          user_turn fuel inp board move_list player (g_read g);
        match outcome with
        | inr code =>
            Ok (Return code (mkGame board player (g_total_moves g) read))
        | inl board' =>
            Ok (Continue (mkGame board' (switch_players player)
                            (g_total_moves g + 1) read))
        end
      else
        board' ← ai_turn mem MINIMAX_DEPTH board player;
        Ok (Continue (mkGame board' (switch_players player)
                        (g_total_moves g + 1) (g_read g)))
  end.

(* the shape of the tree, as [built_as] above *)
Fixpoint built_as (mem : list cell) (n : nat) (b : board) (p : player)
    (t : Node) : Prop :=
  state t = b /\
  calculateLegalMoves mem b p = Ok (move_list t) /\
  sublist (move_list t) squares /\
  child_count t = Z.of_nat (length (move_list t)) /\
  match n with
  | O => children t = None
  | S n' =>
      if decide (move_list t = []) then children t = None
      else
        exists kids, children t = Some kids /\
          Forall2 (fun (m : move) (c : Node) =>
                     exists b', makeMove b m.1 m.2 p = Ok b' /\
                                built_as mem n' b' (swap_player p) c)
                  (move_list t) kids
  end.

End Layout.

(* the number of nodes of a tree *)
Fixpoint nodes (t : Node) : Z :=
  match t with
  | mkNode (Some cs) _ _ _ _ => 1 + foldr (fun c n => nodes c + n) 0 cs
  | mkNode None _ _ _ _ => 1
  end.

(** ** Notions used in the proofs *)

(* the number of steps after which a walk of [Layout.walk] has ended *)
Definition Layout_steps (mem : list cell) (d0 d1 r c : Z) : Z :=
  if d0 =? 1 then 8 - r
  else if d0 =? -1 then r + 1
  else if d1 =? 1 then 8 - c
  else Z.max 0 (8 * r + c + Z.of_nat (length mem)) + 1.

(* the eight directions: steps of -1, 0 or 1 on each axis, not both 0 *)
Definition valid_dir (d : Z * Z) : Prop :=
  -1 <= d.1 <= 1 /\ -1 <= d.2 <= 1 /\ (d.1 <> 0 \/ d.2 <> 0).

(* the number of steps from (r, c) until direction (d0, d1) leaves the grid *)
Definition steps_left (d0 d1 r c : Z) : Z :=
  if d0 =? 1 then 8 - r
  else if d0 =? -1 then r + 1
  else if d1 =? 1 then 8 - c
  else c + 1.

(* children[i] with i past the end of the array, or on the NULL pointer *)
Definition no_child (t : Node) : error :=
  match children t with Some _ => OutOfBounds | None => NullChild end.

(* the values a search can return *)
Definition in_bounds (v : Z) : Prop := -9999999 <= v <= 9999999.

Definition plain_bounded (c : Node) : Prop :=
  forall d m v tp, minimax_plain c d m = Ok (v, tp) -> in_bounds v.

(* [agrees alpha beta v r]: what a pruned search with window (alpha, beta)
   may return as [r] on a node whose value without pruning is [v] *)
Definition agrees (alpha beta v r : Z) : Prop :=
  (v <= alpha -> r <= alpha) /\ (beta <= v -> beta <= r) /\
  (alpha < v < beta -> r = v).

Definition pruning_sound (c : Node) : Prop :=
  forall d alpha beta m v tp,
    alpha < beta -> minimax_plain c d m = Ok (v, tp) ->
    exists r ta, minimax c d alpha beta m = Ok (r, ta) /\ agrees alpha beta v r.

(* a pruned search of [c] that makes no cut is the search without pruning *)
Definition same_without_cut (c : Node) : Prop :=
  forall d alpha beta m v ta,
    no_cut_below c d alpha beta m [] ->
    minimax c d alpha beta m = Ok (v, ta) ->
    minimax_plain c d m = Ok (v, ta).

(** ** Further notions *)

(* the cells of [sq] on which [b] has the opponent's piece and [b'] the
   mover's: the discs that a move of [p] from [b] to [b'] has turned over *)
Definition turned (b b' : board) (p : player) (sq : list move) : Z :=
  Z.of_nat (length (filter (fun x : move =>
     cellAt b x.1 x.2 = Some (Disc (otherPlayer p)) /\
     cellAt b' x.1 x.2 = Some (Disc p)) sq)).

(* the number of discs on the board *)
Definition discs (b : board) : Z :=
  pieces_on b Black squares + pieces_on b White squares.

(* the tree with every val set to 0: what CreateTree built, whatever a
   search has written since *)
Fixpoint forget_val (t : Node) : Node :=
  match t with
  | mkNode ch cc ml st _ =>
      mkNode (match ch with
              | Some cs => Some (map forget_val cs)
              | None => None
              end) cc ml st 0
  end.

(* the heuristic can be computed on every node of the tree *)
Definition evaluable (t : Node) : Prop :=
  forall path x, subtree t path = Some x -> exists h, heuristic (state x) = Ok h.

(* a value of the heuristic, or one of the two initial values of the loops *)
Definition search_value (v : Z) : Prop :=
  -104 <= v <= 104 \/ v = -9999999 \/ v = 9999999.

Definition pruned_value (c : Node) : Prop :=
  forall d alpha beta m v t',
    minimax c d alpha beta m = Ok (v, t') -> search_value v.

Definition plain_value (c : Node) : Prop :=
  forall d m v t', minimax_plain c d m = Ok (v, t') -> search_value v.

Definition only_val_pruned (c : Node) : Prop :=
  forall d alpha beta m v t',
    minimax c d alpha beta m = Ok (v, t') -> forget_val t' = forget_val c.

Definition only_val_plain (c : Node) : Prop :=
  forall d m v t',
    minimax_plain c d m = Ok (v, t') -> forget_val t' = forget_val c.


(* the first [todo] children are searched beyond a base case, and the
   search without pruning returns on each of them *)
Definition searched_children (cs : list Node) (todo : nat) (d : Z) (m : bool)
    : Prop :=
  forall j c, (j < todo)%nat -> cs !! j = Some c ->
    at_base c (d - 1) = Ok false /\
    exists vp tp, minimax_plain c (d - 1) m = Ok (vp, tp).

(* the line "<r> <c>" *)
Definition move_line (r c : Z) : string :=
  String (ascii_of_nat (Z.to_nat (48 + r)))
    (String " " (String (ascii_of_nat (Z.to_nat (48 + c))) EmptyString)).

(* an iteration of a game loop leaves the board as it is, or makes one
   legal move of the player whose turn it is *)
Definition legal_step (g g' : game) : Prop :=
  (g_board g' = g_board g /\
   g_total_moves g <= g_total_moves g' <= g_total_moves g + 1) \/
  (exists r c,
     legal_by_rule (g_board g) (g_player g) r c /\
     makeMove (g_board g) r c (g_player g) = Ok (g_board g') /\
     g_player g' = switch_players (g_player g) /\
     g_total_moves g' = g_total_moves g + 1).

(* an iteration of a game loop leaves the board as it is, or makes one move
   of the list [ml] for the player whose turn it is *)
Definition listed_step (ml : list move) (g g' : game) : Prop :=
  (g_board g' = g_board g /\
   g_total_moves g <= g_total_moves g' <= g_total_moves g + 1) \/
  (exists r c,
     (r, c) ∈ ml /\ cellAt (g_board g) r c = Some Empty /\
     makeMove (g_board g) r c (g_player g) = Ok (g_board g') /\
     wf_board (g_board g') /\
     g_player g' = switch_players (g_player g) /\
     g_total_moves g' = g_total_moves g + 1).

(** * Properties *)

(** ** The result monad *)

Lemma bind_Ok {A B} (a : A) (f : A -> result B) : Ok a ≫= f = f a.
Proof. reflexivity. Qed.

Lemma bind_Fail {A B} (e : error) (f : A -> result B) : Fail e ≫= f = Fail e.
Proof. reflexivity. Qed.

Lemma bind_Ok_inv {A B} (m : result A) (f : A -> result B) (b : B) :
  m ≫= f = Ok b -> exists a, m = Ok a /\ f a = Ok b.
Proof. destruct m as [a|e]; simpl; [eauto | discriminate]. Qed.

(* split a successful bind in the hypotheses *)
Ltac inv_bind H :=
  let a := fresh "a" in
  let Ha := fresh "Ha" in
  apply bind_Ok_inv in H; destruct H as (a & Ha & H).

(** ** Reading and writing cells *)

Lemma on_grid_spec r c :
  on_grid r c = true <-> 0 <= r <= 7 /\ 0 <= c <= 7.
Proof. unfold on_grid. rewrite !andb_true_iff, !Z.leb_le. lia. Qed.

Lemma off_board_spec r c : off_board r c = negb (on_grid r c).
Proof.
  unfold off_board, on_grid.
  rewrite !Z.gtb_ltb, !Z.ltb_antisym.
  destruct (0 <=? r), (r <=? 7), (0 <=? c), (c <=? 7); reflexivity.
Qed.

Lemma cellAt_on_grid b r c x : cellAt b r c = Some x -> on_grid r c = true.
Proof. unfold cellAt. destruct (on_grid r c); [done | discriminate]. Qed.

Lemma cellAt_wf b r c :
  wf_board b -> on_grid r c = true -> is_Some (cellAt b r c).
Proof.
  intros [Hlen Hrows] Hg. unfold cellAt. rewrite Hg.
  apply on_grid_spec in Hg.
  destruct (lookup_lt_is_Some_2 b (Z.to_nat r)) as [row Hrow]; [lia|].
  simpl. rewrite Hrow. simpl.
  apply lookup_lt_is_Some_2.
  rewrite Forall_forall in Hrows.
  rewrite (Hrows row) by (eapply list_elem_of_lookup_2; eauto). lia.
Qed.

Lemma read_Ok b r c x : read b r c = Ok x <-> cellAt b r c = Some x.
Proof. unfold read. destruct (cellAt b r c); split; congruence. Qed.

Lemma read_Fail b r c e : read b r c = Fail e -> e = OutOfBounds.
Proof. unfold read. destruct (cellAt b r c); congruence. Qed.

(* on a well-formed board a read fails exactly when an index is out of range *)
Lemma read_out_of_range b r c :
  wf_board b -> (read b r c = Fail OutOfBounds <-> on_grid r c = false).
Proof.
  intros Hwf. unfold read. destruct (cellAt b r c) as [x|] eqn:E.
  - apply cellAt_on_grid in E. split; congruence.
  - split; [|done]. intros _. destruct (on_grid r c) eqn:Hg; [|done].
    destruct (cellAt_wf b r c Hwf Hg) as [x Hx]. congruence.
Qed.

Lemma initial_board_wf : wf_board initial_board.
Proof. split; [reflexivity | repeat constructor]. Qed.

Lemma otherPlayer_swap_player p : otherPlayer p = swap_player p.
Proof. by destruct p. Qed.

Lemma write_spec b r c v :
  wf_board b -> on_grid r c = true ->
  exists b', write b r c v = Ok b' /\ wf_board b' /\
    forall r' c', cellAt b' r' c' =
      if decide ((r', c') = (r, c)) then Some v else cellAt b r' c'.
Proof.
  intros Hwf Hg. destruct (cellAt_wf b r c Hwf Hg) as [x Hx].
  unfold write. rewrite Hx. eexists. split; [done|].
  destruct Hwf as [Hlen Hrows]. split.
  - split; [by rewrite length_alter|].
    apply Forall_alter; [done|]. intros row Hrow Hr.
    by rewrite length_insert.
  - intros r' c'. unfold cellAt in *. rewrite Hg in Hx.
    apply on_grid_spec in Hg.
    destruct (on_grid r' c') eqn:Hg'.
    2:{ destruct (decide ((r', c') = (r, c))) as [[= -> ->]|]; [|done].
        apply not_true_iff_false in Hg'. rewrite on_grid_spec in Hg'. lia. }
    apply on_grid_spec in Hg'. simpl in *.
    destruct (b !! Z.to_nat r) as [row|] eqn:Hrow; [|done]. simpl in Hx.
    destruct (decide (Z.to_nat r' = Z.to_nat r)) as [Er|Er].
    + rewrite Er, list_lookup_alter_eq, Hrow. simpl.
      destruct (decide (Z.to_nat c' = Z.to_nat c)) as [Ec|Ec].
      * rewrite Ec, list_lookup_insert_eq
          by (by eapply lookup_lt_Some).
        destruct (decide _) as [_|Hne]; [done|].
        exfalso. apply Hne. f_equal; lia.
      * rewrite list_lookup_insert_ne by done.
        destruct (decide _) as [[= -> ->]|]; done.
    + rewrite list_lookup_alter_ne by done.
      destruct (decide _) as [[= -> ->]|]; done.
Qed.

(** ** The walks never run out of fuel *)

Lemma walk_fuel_eq : Z.of_nat walk_fuel = 8.
Proof. reflexivity. Qed.

#[global] Opaque walk_fuel.

Lemma surroundingPosDeltas_valid : Forall valid_dir surroundingPosDeltas.
Proof. repeat constructor; unfold valid_dir; simpl; lia. Qed.

Lemma steps_left_pos d0 d1 r c :
  on_grid r c = true -> 1 <= steps_left d0 d1 r c <= 8.
Proof.
  rewrite on_grid_spec. unfold steps_left.
  destruct (d0 =? 1), (d0 =? -1), (d1 =? 1); lia.
Qed.

Lemma steps_left_step d0 d1 r c :
  valid_dir (d0, d1) ->
  steps_left d0 d1 (r + d0) (c + d1) = steps_left d0 d1 r c - 1.
Proof.
  unfold valid_dir, steps_left. simpl. intros (H0 & H1 & Hnz).
  destruct (Z.eqb_spec d0 1), (Z.eqb_spec d0 (-1)), (Z.eqb_spec d1 1); lia.
Qed.


Lemma collect_Fail fuel b other d0 d1 r c ch acc e :
  valid_dir (d0, d1) -> on_grid r c = true ->
  steps_left d0 d1 r c <= Z.of_nat fuel ->
  collect fuel b other d0 d1 r c ch acc = Fail e -> e = OutOfBounds.
Proof.
  intros Hd. revert r c ch acc.
  induction fuel as [|fuel IH]; intros r c ch acc Hg Hfuel; simpl.
  - pose proof (steps_left_pos d0 d1 r c Hg). lia.
  - destruct (decide (ch = other)); [|discriminate].
    destruct (read b (r + d0) (c + d1)) as [x|e'] eqn:E; simpl.
    + apply IH.
      * apply read_Ok in E. eapply cellAt_on_grid; eauto.
      * rewrite steps_left_step by done. lia.
    + intros [= <-]. eapply read_Fail; eauto.
Qed.






Lemma corner_Fail b r c t e : corner b r c t = Fail e -> e = OutOfBounds.
Proof.
  unfold corner. destruct t as [bt wt].
  destruct (read b r c) as [x|e'] eqn:E; simpl; [discriminate|].
  intros [= <-]. eapply read_Fail; eauto.
Qed.


(** ** The walks of [flip] *)

Lemma walk_stop chk fuel b other d0 d1 r c ch :
  ch <> other -> walk chk fuel b other d0 d1 r c ch = Ok ch.
Proof. intros H. destruct fuel; simpl; by destruct (decide (ch = other)). Qed.

Lemma collect_stop fuel b other d0 d1 r c ch acc :
  ch <> other -> collect fuel b other d0 d1 r c ch acc = Ok acc.
Proof. intros H. destruct fuel; simpl; by destruct (decide (ch = other)). Qed.

Lemma read_wf b r c :
  wf_board b -> off_board r c = false -> exists x, read b r c = Ok x.
Proof.
  intros Hwf Hoff. rewrite off_board_spec in Hoff.
  apply negb_false_iff in Hoff.
  destruct (cellAt_wf b r c Hwf Hoff) as [x Hx]. exists x. by apply read_Ok.
Qed.

Lemma walk_defined fuel b other d0 d1 : forall r c ch,
  wf_board b -> valid_dir (d0, d1) -> on_grid r c = true ->
  steps_left d0 d1 r c <= Z.of_nat fuel ->
  exists y, walk off_board fuel b other d0 d1 r c ch = Ok y.
Proof.
  induction fuel as [|fuel IH]; intros r c ch Hwf Hd Hg Hfuel; simpl.
  - pose proof (steps_left_pos d0 d1 r c Hg). lia.
  - destruct (decide (ch = other)); [|eauto].
    destruct (off_board (r + d0) (c + d1)) eqn:Hoff; [eauto|].
    destruct (read_wf b _ _ Hwf Hoff) as [x Hx]. rewrite Hx. simpl.
    apply IH; try done.
    + apply read_Ok in Hx. eapply cellAt_on_grid; eauto.
    + rewrite steps_left_step by done. lia.
Qed.

Lemma off_board_on_grid r c : on_grid r c = true -> off_board r c = false.
Proof. intros H. by rewrite off_board_spec, H. Qed.

Lemma off_board_144_on_grid r c : on_grid r c = true -> off_board_144 r c = false.
Proof.
  rewrite on_grid_spec. unfold off_board_144. intros H.
  rewrite !orb_false_iff, Z.gtb_ltb, !Z.ltb_ge. lia.
Qed.

Section Direction.
Variables (b : board) (p : player) (r c d0 d1 : Z).
Hypothesis Hd : valid_dir (d0, d1).

Lemma opposing_run_short k : opposing_run b p r c d0 d1 k -> k <= 7.
Proof.
  intros (Hk & Hrun & Hend).
  specialize (Hrun 1 ltac:(lia)).
  apply cellAt_on_grid, on_grid_spec in Hrun, Hend.
  destruct Hd as (H0 & H1 & Hnz). simpl in *.
  assert (d0 = -1 \/ d0 = 0 \/ d0 = 1) as [-> | [-> | ->]] by lia;
    assert (d1 = -1 \/ d1 = 0 \/ d1 = 1) as [-> | [-> | ->]] by lia; lia.
Qed.

Lemma opposing_run_unique k k' :
  opposing_run b p r c d0 d1 k -> opposing_run b p r c d0 d1 k' -> k = k'.
Proof.
  intros (Hk & Hrun & Hend) (Hk' & Hrun' & Hend').
  destruct (Z.lt_trichotomy k k') as [Hlt|[->|Hlt]]; [|done|].
  - specialize (Hrun' (k + 1) ltac:(lia)). rewrite Hend in Hrun'.
    by destruct p.
  - specialize (Hrun (k' + 1) ltac:(lia)). rewrite Hend' in Hrun.
    by destruct p.
Qed.

Lemma walk_run chk fuel :
  (forall r' c', on_grid r' c' = true -> chk r' c' = false) ->
  forall j k,
    opposing_run b p r c d0 d1 k -> 1 <= j <= k -> k - j < Z.of_nat fuel ->
    walk chk fuel b (Disc (otherPlayer p)) d0 d1
      (r + j * d0) (c + j * d1) (Disc (otherPlayer p)) = Ok (Disc p).
Proof.
  intros Hchk.
  induction fuel as [|fuel IH]; intros j k Hrun Hj Hfuel; [lia|].
  simpl. destruct (decide _) as [_|]; [|done].
  replace (r + j * d0 + d0) with (r + (j + 1) * d0) by lia.
  replace (c + j * d1 + d1) with (c + (j + 1) * d1) by lia.
  pose proof Hrun as (Hk & Hcells & Hend).
  destruct (decide (j = k)) as [->|Hne].
  - rewrite (Hchk _ _ (cellAt_on_grid _ _ _ _ Hend)).
    apply read_Ok in Hend. rewrite Hend. simpl.
    apply walk_stop. by destruct p.
  - specialize (Hcells (j + 1) ltac:(lia)).
    rewrite (Hchk _ _ (cellAt_on_grid _ _ _ _ Hcells)).
    apply read_Ok in Hcells. rewrite Hcells. simpl.
    rewrite <- otherPlayer_swap_player. apply (IH (j + 1) k); [done|lia|lia].
Qed.

Lemma walk_Ok_own chk fuel : forall j,
  1 <= j ->
  (forall i, 1 <= i <= j ->
     cellAt b (r + i * d0) (c + i * d1) = Some (Disc (swap_player p))) ->
  walk chk fuel b (Disc (otherPlayer p)) d0 d1
    (r + j * d0) (c + j * d1) (Disc (otherPlayer p)) = Ok (Disc p) ->
  exists k, j <= k /\ opposing_run b p r c d0 d1 k.
Proof.
  induction fuel as [|fuel IH]; intros j Hj Hcells; simpl;
    (destruct (decide _) as [_|]; [|done]); [done|].
  replace (r + j * d0 + d0) with (r + (j + 1) * d0) by lia.
  replace (c + j * d1 + d1) with (c + (j + 1) * d1) by lia.
  destruct (chk _ _); [intros [= H]; by destruct p|].
  intros H. inv_bind H. apply read_Ok in Ha.
  destruct (decide (a = Disc (otherPlayer p))) as [->|Hne].
  - apply (IH (j + 1)) in H as (k & Hk & Hrun); [|lia|].
    + exists k. split; [lia | done].
    + intros i Hi. destruct (decide (i = j + 1)) as [->|];
        [by rewrite <- otherPlayer_swap_player | apply Hcells; lia].
  - rewrite walk_stop in H by done. injection H as ->.
    exists j. split; [lia|]. split; [lia|]. split; done.
Qed.

Lemma collect_run fuel : forall j k acc,
  opposing_run b p r c d0 d1 k -> 1 <= j <= k -> k - j < Z.of_nat fuel ->
  collect fuel b (Disc (otherPlayer p)) d0 d1
    (r + j * d0) (c + j * d1) (Disc (otherPlayer p)) acc
  = Ok (acc ++ ((fun i => (r + i * d0, c + i * d1)) <$> seqZ j (k - j + 1))).
Proof.
  induction fuel as [|fuel IH]; intros j k acc Hrun Hj Hfuel; [lia|].
  simpl. destruct (decide _) as [_|]; [|done].
  replace (r + j * d0 + d0) with (r + (j + 1) * d0) by lia.
  replace (c + j * d1 + d1) with (c + (j + 1) * d1) by lia.
  pose proof Hrun as (Hk & Hcells & Hend).
  rewrite (seqZ_cons j) by lia. simpl.
  destruct (decide (j = k)) as [->|Hne].
  - apply read_Ok in Hend. rewrite Hend. simpl.
    rewrite collect_stop by (by destruct p).
    replace (Z.pred (k - k + 1)) with 0 by lia. done.
  - specialize (Hcells (j + 1) ltac:(lia)).
    apply read_Ok in Hcells. rewrite Hcells. simpl.
    rewrite <- otherPlayer_swap_player.
    rewrite (IH (j + 1) k) by (done || lia).
    rewrite <- app_assoc. simpl.
    replace (Z.succ j) with (j + 1) by lia.
    replace (Z.pred (k - j + 1)) with (k - (j + 1) + 1) by lia. done.
Qed.
End Direction.

(** ** [flip] and [makeMove] *)

Lemma flipped_by_cons b p r c d ds x :
  flipped_by b p r c (d :: ds) x <->
  (exists k i, opposing_run b p r c d.1 d.2 k /\ 1 <= i <= k /\
               x = (r + i * d.1, c + i * d.2)) \/
  flipped_by b p r c ds x.
Proof.
  unfold flipped_by. split.
  - intros (d' & k & i & Hd' & H). apply elem_of_cons in Hd' as [->|Hd'].
    + left. by exists k, i.
    + right. by exists d', k, i.
  - intros [(k & i & H)|(d' & k & i & Hd' & H)].
    + exists d, k, i. split; [by left | done].
    + exists d', k, i. split; [by right | done].
Qed.

Lemma flipped_by_skip b p r c d ds x :
  ~ captures_in b p r c d ->
  flipped_by b p r c (d :: ds) x <-> flipped_by b p r c ds x.
Proof.
  intros Hno. rewrite flipped_by_cons. split; [|by right].
  intros [(k & i & Hrun & _)|H]; [|done]. destruct Hno. by exists k.
Qed.

Lemma flip_dirs_spec b p r c ds :
  wf_board b -> Forall valid_dir ds ->
  forall acc, exists discs,
    flip_dirs b r c p ds acc = Ok discs /\
    forall x, x ∈ discs <-> x ∈ acc \/ flipped_by b p r c ds x.
Proof.
  intros Hwf. induction 1 as [|[d0 d1] ds Hd Hds IH]; intros acc.
  { exists acc. split; [done|]. intros x. split; [by left|].
    intros [H|(d & k & i & Hin & _)]; [done|]. by apply elem_of_nil in Hin. }
  simpl.
  (* the three ways in which this direction captures nothing *)
  assert (Hskip : ~ captures_in b p r c (d0, d1) ->
    exists discs, flip_dirs b r c p ds acc = Ok discs /\
      forall x, x ∈ discs <-> x ∈ acc \/ flipped_by b p r c ((d0, d1) :: ds) x).
  { intros Hno. destruct (IH acc) as (discs & Hf & Hiff).
    exists discs. split; [done|]. intros x. by rewrite flipped_by_skip. }
  destruct (off_board (r + d0) (c + d1)) eqn:Hoff.
  { apply Hskip. intros (k & Hk & Hcells & _). simpl in Hcells.
    specialize (Hcells 1 ltac:(lia)). apply cellAt_on_grid in Hcells.
    rewrite off_board_spec in Hoff.
    replace (r + 1 * d0) with (r + d0) in Hcells by lia.
    replace (c + 1 * d1) with (c + d1) in Hcells by lia.
    by rewrite Hcells in Hoff. }
  destruct (read_wf b _ _ Hwf Hoff) as [ch Hch]. rewrite Hch. simpl.
  apply read_Ok in Hch as Hcell.
  destruct (decide (ch = Disc (otherPlayer p))) as [->|Hne].
  2:{ apply Hskip. intros (k & Hk & Hcells & _). simpl in Hcells.
      specialize (Hcells 1 ltac:(lia)).
      replace (r + 1 * d0) with (r + d0) in Hcells by lia.
      replace (c + 1 * d1) with (c + d1) in Hcells by lia.
      rewrite Hcell, <- otherPlayer_swap_player in Hcells. congruence. }
  assert (Hg : on_grid (r + d0) (c + d1) = true)
    by (eapply cellAt_on_grid; eauto).
  destruct (walk_defined walk_fuel b (Disc (otherPlayer p)) d0 d1
              (r + d0) (c + d1) (Disc (otherPlayer p)) Hwf Hd Hg) as [y Hy].
  { pose proof (steps_left_pos d0 d1 _ _ Hg). rewrite walk_fuel_eq. lia. }
  rewrite Hy. simpl.
  destruct (decide (y = Disc p)) as [->|Hy'].
  - replace (r + d0) with (r + 1 * d0) in Hy by lia.
    replace (c + d1) with (c + 1 * d1) in Hy by lia.
    apply walk_Ok_own in Hy as (k & Hk & Hrun); [|lia|].
    2:{ intros i Hi. assert (i = 1) as -> by lia.
        replace (r + 1 * d0) with (r + d0) by lia.
        replace (c + 1 * d1) with (c + d1) by lia.
        by rewrite <- otherPlayer_swap_player. }
    pose proof (opposing_run_short b p r c d0 d1 Hd k Hrun) as Hshort.
    replace (r + d0) with (r + 1 * d0) by lia.
    replace (c + d1) with (c + 1 * d1) by lia.
    rewrite (collect_run b p r c d0 d1 walk_fuel 1 k acc Hrun)
      by (rewrite ?walk_fuel_eq; lia).
    simpl.
    destruct (IH (acc ++ ((fun i => (r + i * d0, c + i * d1))
                            <$> seqZ 1 (k - 1 + 1))))
      as (discs & Hf & Hiff).
    exists discs. split; [done|]. intros x.
    rewrite Hiff, elem_of_app, flipped_by_cons, list_elem_of_fmap. simpl.
    split.
    + intros [[H|(i & -> & Hi)]|H]; [by left| |by right; right].
      apply elem_of_seqZ in Hi. right. left. exists k, i.
      split; [done|]. split; [lia | done].
    + intros [H|[(k' & i & Hrun' & Hi & ->)|H]]; [by left; left| |by right].
      rewrite (opposing_run_unique b p r c d0 d1 k' k Hrun' Hrun) in Hi.
      left. right. exists i. split; [done|]. apply elem_of_seqZ. lia.
  - apply Hskip. intros (k & Hrun). simpl in Hrun.
    pose proof (opposing_run_short b p r c d0 d1 Hd k Hrun) as Hshort.
    pose proof (walk_run b p r c d0 d1 off_board walk_fuel
                  off_board_on_grid 1 k Hrun) as Hw.
    replace (r + 1 * d0) with (r + d0) in Hw by lia.
    replace (c + 1 * d1) with (c + d1) in Hw by lia.
    rewrite Hw in Hy; [congruence | destruct Hrun; lia |].
    rewrite walk_fuel_eq. lia.
Qed.

Lemma paint_spec p discs : forall b,
  wf_board b -> Forall (fun x : move => on_grid x.1 x.2 = true) discs ->
  exists b', paint b p discs = Ok b' /\ wf_board b' /\
    forall r c, cellAt b' r c =
      if decide ((r, c) ∈ discs) then Some (Disc p) else cellAt b r c.
Proof.
  induction discs as [|[r0 c0] discs IH]; intros b Hwf Hg; simpl.
  - exists b. split; [done|]. split; [done|]. intros r c.
    destruct (decide ((r, c) ∈ [])) as [H|]; [by apply elem_of_nil in H | done].
  - apply Forall_cons in Hg as [Hg0 Hg]. simpl in Hg0.
    destruct (write_spec b r0 c0 (Disc p) Hwf Hg0) as (b1 & -> & Hwf1 & H1).
    simpl. destruct (IH b1 Hwf1 Hg) as (b' & -> & Hwf' & H').
    exists b'. split; [done|]. split; [done|]. intros r c.
    rewrite H', H1.
    destruct (decide ((r, c) ∈ discs)) as [Hin|Hin],
      (decide ((r, c) = (r0, c0))) as [He|Hne],
      (decide ((r, c) ∈ (r0, c0) :: discs)) as [Hin'|Hin']; try done.
    + destruct Hin'. by right.
    + destruct Hin'. by right.
    + destruct Hin'. rewrite He. by left.
    + apply elem_of_cons in Hin' as [?|?]; done.
Qed.

Lemma opposing_run_write b b' p r c d0 d1 k :
  valid_dir (d0, d1) ->
  (forall r' c', (r', c') <> (r, c) -> cellAt b' r' c' = cellAt b r' c') ->
  opposing_run b' p r c d0 d1 k <-> opposing_run b p r c d0 d1 k.
Proof.
  intros (H0 & H1 & Hnz) Hsame. simpl in *.
  assert (Hcell : forall i, 1 <= i ->
            cellAt b' (r + i * d0) (c + i * d1)
            = cellAt b (r + i * d0) (c + i * d1)).
  { intros i Hi. apply Hsame. intros [= Hr Hc]. nia. }
  unfold opposing_run. split; intros (Hk & Hcells & Hend);
    (split; [done|]); split.
  - intros i Hi. rewrite <- Hcell by lia. by apply Hcells.
  - rewrite <- Hcell by lia. done.
  - intros i Hi. rewrite Hcell by lia. by apply Hcells.
  - rewrite Hcell by lia. done.
Qed.

Lemma flipped_by_write b b' p r c ds x :
  Forall valid_dir ds ->
  (forall r' c', (r', c') <> (r, c) -> cellAt b' r' c' = cellAt b r' c') ->
  flipped_by b' p r c ds x <-> flipped_by b p r c ds x.
Proof.
  intros Hds Hsame. rewrite Forall_forall in Hds.
  unfold flipped_by. split; intros (d & k & i & Hd & Hrun & Hi);
    exists d, k, i; (split; [done|]); (split; [|done]);
    specialize (Hds d Hd); destruct d as [d0 d1];
    apply (opposing_run_write b b' p r c d0 d1 k Hds Hsame); exact Hrun.
Qed.

Lemma flipped_by_on_grid b p r c ds x :
  flipped_by b p r c ds x -> on_grid x.1 x.2 = true.
Proof.
  intros (d & k & i & _ & (_ & Hcells & _) & Hi & ->). simpl.
  eapply cellAt_on_grid. by apply Hcells.
Qed.

(* what applying a move does, for any number of capturing directions *)
Lemma makeMove_spec b p r c :
  wf_board b -> on_grid r c = true ->
  exists b', makeMove b r c p = Ok b' /\ wf_board b' /\
    cellAt b' r c = Some (Disc p) /\
    (forall x, flipped_by b p r c surroundingPosDeltas x ->
       cellAt b' x.1 x.2 = Some (Disc p)) /\
    (forall r' c', (r', c') <> (r, c) ->
       ~ flipped_by b p r c surroundingPosDeltas (r', c') ->
       cellAt b' r' c' = cellAt b r' c').
Proof.
  intros Hwf Hg. unfold makeMove, flip.
  destruct (write_spec b r c (Disc p) Hwf Hg) as (b1 & -> & Hwf1 & H1).
  rewrite bind_Ok.
  assert (Hsame : forall r' c', (r', c') <> (r, c) ->
            cellAt b1 r' c' = cellAt b r' c').
  { intros r' c' Hne. rewrite H1. by destruct (decide _). }
  destruct (flip_dirs_spec b1 p r c surroundingPosDeltas Hwf1
              surroundingPosDeltas_valid []) as (discs & -> & Hdiscs).
  rewrite bind_Ok.
  assert (Hin : forall x, x ∈ discs <->
                  flipped_by b p r c surroundingPosDeltas x).
  { intros x. rewrite Hdiscs.
    rewrite (flipped_by_write b b1) by (done || apply surroundingPosDeltas_valid).
    split; [intros [H|H]; [by apply elem_of_nil in H | done] | by right]. }
  destruct (paint_spec p discs b1 Hwf1) as (b' & -> & Hwf' & H').
  { apply Forall_forall. intros x Hx. apply Hin in Hx.
    by eapply flipped_by_on_grid. }
  exists b'. split; [done|]. split; [done|]. split; [|split].
  - rewrite H', H1. destruct (decide ((r, c) ∈ discs)); [done|].
    by destruct (decide ((r, c) = (r, c))).
  - intros [r' c'] Hx. simpl. rewrite H'.
    destruct (decide ((r', c') ∈ discs)) as [|Hn]; [done|].
    destruct Hn. by apply Hin.
  - intros r' c' Hne Hnf. rewrite H'.
    destruct (decide ((r', c') ∈ discs)) as [Hd|_].
    + destruct Hnf. by apply Hin.
    + by apply Hsame.
Qed.

(** C4.  When the move (r, c) is legal and exactly one direction [d]
    captures, with a run of [k] opposing cells closed by a cell of the
    mover, [makeMove] puts the mover's piece on (r, c), turns exactly the
    [k] cells of that run to the mover's colour, and leaves every other
    cell as it was. *)
Theorem makeMove_single_run (b : board) (p : player) (r c : Z) (d : Z * Z)
    (k : Z) :
  wf_board b ->
  legal_by_rule b p r c ->
  d ∈ surroundingPosDeltas ->
  opposing_run b p r c d.1 d.2 k ->
  (forall d', d' ∈ surroundingPosDeltas -> captures_in b p r c d' -> d' = d) ->
  exists b',
    makeMove b r c p = Ok b' /\
    cellAt b' r c = Some (Disc p) /\
    (forall i, 1 <= i <= k ->
       cellAt b (r + i * d.1) (c + i * d.2) = Some (Disc (swap_player p)) /\
       cellAt b' (r + i * d.1) (c + i * d.2) = Some (Disc p)) /\
    (forall r' c',
       (r', c') <> (r, c) ->
       (forall i, 1 <= i <= k -> (r', c') <> (r + i * d.1, c + i * d.2)) ->
       cellAt b' r' c' = cellAt b r' c').
Proof.
  intros Hwf [Hempty _] Hd Hrun Honly.
  apply cellAt_on_grid in Hempty as Hg.
  destruct (makeMove_spec b p r c Hwf Hg) as (b' & Hm & _ & Hrc & Hfl & Hrest).
  exists b'. split; [done|]. split; [done|]. split.
  - intros i Hi. split; [by apply Hrun|].
    apply (Hfl (r + i * d.1, c + i * d.2)). by exists d, k, i.
  - intros r' c' Hne Hnot. apply Hrest; [done|].
    intros (d' & k' & i & Hd' & Hrun' & Hi & Hx).
    assert (d' = d) as -> by (apply Honly; [done | by exists k']).
    assert (Hvd : valid_dir (d.1, d.2)).
    { pose proof surroundingPosDeltas_valid as Hv.
      rewrite Forall_forall in Hv. specialize (Hv d Hd). by destruct d. }
    rewrite (opposing_run_unique b p r c d.1 d.2 k' k Hrun' Hrun) in Hi.
    by apply (Hnot i).
Qed.

Lemma makeMove_single_run_witness :
  exists b',
    makeMove initial_board 2 3 Black = Ok b' /\
    cellAt b' 2 3 = Some (Disc Black) /\
    cellAt b' 3 3 = Some (Disc Black) /\
    cellAt b' 4 4 = cellAt initial_board 4 4.
Proof.
  assert (Hlegal : legal_by_rule initial_board Black 2 3).
  { split; [reflexivity|]. exists (1, 0).
    split; [do 6 apply list_elem_of_further; apply list_elem_of_here|].
    exists 1. split; [lia|]. split; [|reflexivity].
    intros i Hi. assert (i = 1) as -> by lia. reflexivity. }
  assert (Hd : (1, 0) ∈ surroundingPosDeltas)
    by (do 6 apply list_elem_of_further; apply list_elem_of_here).
  assert (Hrun : opposing_run initial_board Black 2 3 (1, 0).1 (1, 0).2 1).
  { split; [lia|]. split; [|reflexivity].
    intros i Hi. assert (i = 1) as -> by lia. reflexivity. }
  assert (Honly : forall d', d' ∈ surroundingPosDeltas ->
            captures_in initial_board Black 2 3 d' -> d' = (1, 0)).
  { intros d' Hd' (k & Hk & Hcells & _).
    specialize (Hcells 1 ltac:(lia)).
    unfold surroundingPosDeltas in Hd'.
    repeat (apply elem_of_cons in Hd' as [->|Hd']); try done.
    by apply elem_of_nil in Hd'. }
  destruct (makeMove_single_run initial_board Black 2 3 (1, 0) 1
              initial_board_wf Hlegal Hd Hrun Honly)
    as (b' & Hm & Hrc & Hrun' & Hrest).
  exists b'. split; [exact Hm|]. split; [exact Hrc|]. split.
  - exact (proj2 (Hrun' 1 ltac:(lia))).
  - apply Hrest; [done|]. intros i Hi. assert (i = 1) as -> by lia. done.
Defined.

(** ** The legal moves *)

Lemma isFlippable_dirs_spec b p r c ds f :
  Forall valid_dir ds ->
  isFlippable_dirs b r c p ds = Ok f ->
  (f = true <-> exists d, d ∈ ds /\ captures_in b p r c d).
Proof.
  induction 1 as [|[d0 d1] ds Hd Hds IH]; simpl.
  { intros [= <-]. split; [done|]. intros (d & Hin & _).
    by apply elem_of_nil in Hin. }
  assert (Hskip : ~ captures_in b p r c (d0, d1) ->
    isFlippable_dirs b r c p ds = Ok f ->
    (f = true <-> exists d, d ∈ (d0, d1) :: ds /\ captures_in b p r c d)).
  { intros Hno Hf. rewrite (IH Hf). split.
    - intros (d & Hin & Hc). exists d. split; [by right | done].
    - intros (d & Hin & Hc). apply elem_of_cons in Hin as [->|Hin];
        [done | by exists d]. }
  destruct (off_board (r + d0) (c + d1)) eqn:Hoff.
  { apply Hskip. intros (k & Hk & Hcells & _). simpl in Hcells.
    specialize (Hcells 1 ltac:(lia)). apply cellAt_on_grid in Hcells.
    rewrite off_board_spec in Hoff.
    replace (r + 1 * d0) with (r + d0) in Hcells by lia.
    replace (c + 1 * d1) with (c + d1) in Hcells by lia.
    by rewrite Hcells in Hoff. }
  intros H. inv_bind H. apply read_Ok in Ha as Hcell.
  destruct (decide (a = Disc (otherPlayer p))) as [->|Hne].
  2:{ apply Hskip; [|done]. intros (k & Hk & Hcells & _). simpl in Hcells.
      specialize (Hcells 1 ltac:(lia)).
      replace (r + 1 * d0) with (r + d0) in Hcells by lia.
      replace (c + 1 * d1) with (c + d1) in Hcells by lia.
      rewrite Hcell, <- otherPlayer_swap_player in Hcells. congruence. }
  inv_bind H.
  destruct (decide (a = Disc p)) as [->|Hy'].
  - injection H as <-. split; [|done]. intros _. exists (d0, d1).
    split; [by left|].
    replace (r + d0) with (r + 1 * d0) in Ha0 by lia.
    replace (c + d1) with (c + 1 * d1) in Ha0 by lia.
    apply walk_Ok_own in Ha0 as (k & Hk & Hrun); [by exists k | lia |].
    intros i Hi. assert (i = 1) as -> by lia.
    replace (r + 1 * d0) with (r + d0) by lia.
    replace (c + 1 * d1) with (c + d1) by lia.
    by rewrite <- otherPlayer_swap_player.
  - apply Hskip; [|done]. intros (k & Hrun). simpl in Hrun.
    pose proof (opposing_run_short b p r c d0 d1 Hd k Hrun) as Hshort.
    pose proof (walk_run b p r c d0 d1 off_board_144 walk_fuel
                  off_board_144_on_grid 1 k Hrun) as Hw.
    replace (r + 1 * d0) with (r + d0) in Hw by lia.
    replace (c + 1 * d1) with (c + d1) in Hw by lia.
    rewrite Hw in Ha0; [congruence | destruct Hrun; lia |].
    rewrite walk_fuel_eq. lia.
Qed.

Lemma legal_scan_spec b p sq : forall acc l,
  legal_scan b p sq acc = Ok l ->
  forall x, x ∈ l <->
    x ∈ acc \/ (x ∈ sq /\ cellAt b x.1 x.2 = Some Empty /\
                isFlippable b x.1 x.2 p = Ok true).
Proof.
  induction sq as [|[i j] sq IH]; intros acc l; simpl.
  { intros [= <-] x. split; [by left|]. intros [H|(H & _)]; [done|].
    by apply elem_of_nil in H. }
  intros H x. inv_bind H. apply read_Ok in Ha.
  assert (Hskip : (a <> Empty \/ isFlippable b i j p = Ok false) ->
    legal_scan b p sq acc = Ok l ->
    (x ∈ l <-> x ∈ acc \/ (x ∈ (i, j) :: sq /\ cellAt b x.1 x.2 = Some Empty /\
                            isFlippable b x.1 x.2 p = Ok true))).
  { intros Hno Hl. rewrite (IH _ _ Hl x). split.
    - intros [?|(? & ?)]; [by left|]. right. split; [by right | done].
    - intros [?|(Hin & He & Hf)]; [by left|].
      apply elem_of_cons in Hin as [->|Hin]; [|by right].
      simpl in *. destruct Hno; congruence. }
  destruct (decide (a = Empty)) as [->|Hne]; [|apply Hskip; auto].
  inv_bind H. destruct a; [|apply Hskip; auto].
  rewrite (IH _ _ H x), elem_of_app, list_elem_of_singleton, elem_of_cons.
  split.
  - intros [[? | ->] | (? & ?)]; [by left| |].
    + right. split; [by left | done].
    + right. split; [by right | done].
  - intros [? | ([-> | Hin] & He & Hf)]; [by left; left| |].
    + left. by right.
    + by right.
Qed.

Lemma elem_of_squares r c : (r, c) ∈ squares <-> on_grid r c = true.
Proof.
  unfold squares. rewrite on_grid_spec, list_elem_of_bind. split.
  - intros (i & Hj & Hi). apply list_elem_of_bind in Hj as (j & Hx & Hj).
    apply list_elem_of_singleton in Hx as [= -> ->].
    apply elem_of_seqZ in Hi, Hj. lia.
  - intros H. exists r. split; [|apply elem_of_seqZ; lia].
    apply list_elem_of_bind. exists c. split; [|apply elem_of_seqZ; lia].
    by apply list_elem_of_singleton.
Qed.

(* whenever the computation of the legal moves stays inside the board, its
   result is the list the capture rule describes *)
Lemma calculateLegalMoves_spec b p l :
  calculateLegalMoves b p = Ok l ->
  forall r c, (r, c) ∈ l <-> legal_by_rule b p r c.
Proof.
  intros H r c. rewrite (legal_scan_spec b p squares [] l H (r, c)). simpl.
  unfold legal_by_rule. split.
  - intros [Hnil|(Hsq & He & Hf)]; [by apply elem_of_nil in Hnil|].
    split; [done|].
    by apply (isFlippable_dirs_spec b p r c surroundingPosDeltas true
                surroundingPosDeltas_valid Hf).
  - intros (He & Hcap). right.
    split; [by apply elem_of_squares; eapply cellAt_on_grid|].
    split; [done|].
    assert (exists f, isFlippable b r c p = Ok f) as [f Hf].
    { pose proof (legal_scan_spec b p squares [] l H) as _.
      clear -H He. unfold calculateLegalMoves in H.
      assert (Hin : (r, c) ∈ squares)
        by (by apply elem_of_squares; eapply cellAt_on_grid).
      revert H. generalize (@nil move) as acc. revert Hin.
      induction squares as [|[i j] sq IH]; intros Hin acc H;
        [by apply elem_of_nil in Hin|].
      simpl in H. inv_bind H. apply read_Ok in Ha.
      apply elem_of_cons in Hin as [[= <- <-]|Hin].
      - rewrite He in Ha. injection Ha as <-. simpl in H.
        inv_bind H. eauto.
      - destruct (decide (a = Empty)); [|eauto].
        inv_bind H. destruct a0; eauto. }
    rewrite Hf. f_equal.
    by apply (isFlippable_dirs_spec b p r c surroundingPosDeltas f
                surroundingPosDeltas_valid Hf).
Qed.

(* the opening position: Black's four moves, and the count after 2,3 *)
Lemma opening_position :
  calculateLegalMoves initial_board Black = Ok [(2, 3); (3, 2); (4, 5); (5, 4)] /\
  isGameOver initial_board = Ok false /\
  (b ← makeMove initial_board 2 3 Black;
   black ← getScore b Black; white ← getScore b White; Ok (black, white))
  = Ok (4, 1).
Proof. repeat split; vm_compute; reflexivity. Qed.

(** ** The walk of [isFlippable] that leaves the board *)

Lemma fifth_ply_board_wf : wf_board fifth_ply_board.
Proof. split; [reflexivity | repeat constructor]. Qed.

Lemma left_edge_board_wf : wf_board left_edge_board.
Proof. split; [reflexivity | repeat constructor]. Qed.

(** C2.  [fifth_ply_board] is reached from the initial board by five legal
    moves.  White's candidate (1,3) has the black cells (1,2), (1,1), (1,0)
    to its left; the walk of [isFlippable] steps to column -1, the test of
    line 144 (which tests the row twice and never [curr_col < 0]) does not
    stop it, and the walk reads board[1][-1], outside the board.  The test
    of [flip] stops at the same place.  The tree that the engine builds
    for its first move (depth 5 from the initial board) contains this
    position. *)
Theorem isFlippable_reads_column_minus_one :
  play initial_board Black [(3, 2); (2, 2); (1, 2); (1, 1); (1, 0)]
  = Some fifth_ply_board /\
  cellAt fifth_ply_board 1 3 = Some Empty /\
  off_board_144 1 (-1) = false /\
  off_board 1 (-1) = true /\
  read fifth_ply_board 1 (-1) = Fail OutOfBounds /\
  walk off_board_144 walk_fuel fifth_ply_board (Disc Black) 0 (-1) 1 2
    (Disc Black) = Fail OutOfBounds /\
  walk off_board walk_fuel fifth_ply_board (Disc Black) 0 (-1) 1 2
    (Disc Black) = Ok (Disc Black) /\
  isFlippable fifth_ply_board 1 3 White = Fail OutOfBounds /\
  CreateTree initial_board MINIMAX_DEPTH Black = Fail OutOfBounds.
Proof. repeat split; vm_compute; reflexivity. Qed.

(** C1.  On [left_edge_board] no direction from (3,1) captures for Black:
    the only opposing neighbour is (3,0) and the board ends behind it.  By
    the rule (3,1) is not a legal move.  [isFlippable] walks on to column
    -1 and reads board[3][-1]; the list of legal moves is not computed
    within the board.  Where the 64 cells lie in row-major order that read
    is board[2][7], a black piece, and [isFlippable] answers true. *)
Theorem legal_moves_at_left_edge :
  cellAt left_edge_board 3 1 = Some Empty /\
  ~ legal_by_rule left_edge_board Black 3 1 /\
  isFlippable left_edge_board 3 1 Black = Fail OutOfBounds /\
  calculateLegalMoves left_edge_board Black = Fail OutOfBounds /\
  ~ legal_moves_as_specified left_edge_board Black /\
  RowMajor.isFlippable left_edge_board 3 1 Black = Ok true.
Proof.
  assert (Hc : calculateLegalMoves left_edge_board Black = Fail OutOfBounds)
    by (vm_compute; reflexivity).
  split; [reflexivity|]. split; [|split; [|split; [|split]]].
  - intros (_ & d & Hd & k & Hk & Hcells & Hend).
    pose proof (Hcells 1 ltac:(lia)) as H1.
    unfold surroundingPosDeltas in Hd.
    repeat (apply elem_of_cons in Hd as [->|Hd]); try done.
    + destruct (decide (k = 1)) as [->|Hne]; [done|].
      by specialize (Hcells 2 ltac:(lia)).
    + by apply elem_of_nil in Hd.
  - vm_compute; reflexivity.
  - exact Hc.
  - intros (l & Hl & _). rewrite Hc in Hl. discriminate.
  - vm_compute; reflexivity.
Qed.

(** ** [isLegalMove]: the thrown error and the rejection *)

(** C8.  On a board of eight rows of eight cells, [isLegalMove] throws
    [std::range_error] exactly when [row] or [col] is outside 0..7, and that
    is its only failure.  For a coordinate in range it returns, leaves the
    board as it was, and answers [false] exactly when the cell is not empty
    or the move is not in the list it was given. *)
Theorem isLegalMove_outcome (b : board) (ml : list move) (row col : Z)
    (p : player) :
  wf_board b ->
  ((exists e, isLegalMove b ml row col p = Fail e) <->
     ~ (0 <= row <= 7 /\ 0 <= col <= 7)) /\
  (~ (0 <= row <= 7 /\ 0 <= col <= 7) ->
     isLegalMove b ml row col p = Fail (RangeError "isLegalMove()")) /\
  (0 <= row <= 7 /\ 0 <= col <= 7 ->
     exists answer : bool,
       isLegalMove b ml row col p = Ok (answer, b) /\
       (answer = false <->
          cellAt b row col <> Some Empty \/ (row, col) ∉ ml)).
Proof.
  intros Hwf.
  assert (Hchk : (row >? 7) || (row <? 0) || (col >? 7) || (col <? 0)
                 = negb (on_grid row col)) by apply off_board_spec.
  assert (Hin : 0 <= row <= 7 /\ 0 <= col <= 7 ->
     exists answer : bool,
       isLegalMove b ml row col p = Ok (answer, b) /\
       (answer = false <->
          cellAt b row col <> Some Empty \/ (row, col) ∉ ml)).
  { intros Hr. apply on_grid_spec in Hr.
    unfold isLegalMove. rewrite Hchk, Hr. simpl.
    destruct (cellAt_wf b row col Hwf Hr) as [x Hx].
    apply read_Ok in Hx as Hrd. rewrite Hrd. simpl.
    destruct (decide (x <> Empty)) as [Hne|He].
    - exists false. split; [done|]. split; [|done]. intros _. left. congruence.
    - apply dec_stable in He. subst x.
      destruct (decide ((row, col) ∈ ml)) as [Hm|Hm].
      + exists true. split; [done|]. split; [done|]. intros [?|?]; done.
      + exists false. split; [done|]. split; [|done]. intros _. by right. }
  assert (Hout : ~ (0 <= row <= 7 /\ 0 <= col <= 7) ->
     isLegalMove b ml row col p = Fail (RangeError "isLegalMove()")).
  { intros Hr. rewrite <- on_grid_spec in Hr. apply not_true_is_false in Hr.
    unfold isLegalMove. by rewrite Hchk, Hr. }
  split; [|split]; [|done|done].
  split.
  - intros [e He] Hr. destruct (Hin Hr) as (a & Ha & _). congruence.
  - intros Hr. eexists. by apply Hout.
Qed.

Lemma isLegalMove_outcome_witness :
  wf_board initial_board /\
  ((exists e, isLegalMove initial_board [(2, 3)] 2 3 Black = Fail e) <->
     ~ (0 <= 2 <= 7 /\ 0 <= 3 <= 7)).
Proof.
  split; [exact initial_board_wf|].
  exact (proj1 (isLegalMove_outcome initial_board [(2, 3)] 2 3 Black
                  initial_board_wf)).
Defined.

(** ** Colour swap *)

Lemma swap_cell_inj x y : swap_cell x = swap_cell y <-> x = y.
Proof. destruct x as [|[]], y as [|[]]; simpl; split; congruence. Qed.

Lemma otherPlayer_swap p : otherPlayer (swap_player p) = swap_player (otherPlayer p).
Proof. by destruct p. Qed.

Lemma cellAt_colorSwap b r c :
  cellAt (colorSwap b) r c = swap_cell <$> cellAt b r c.
Proof.
  unfold cellAt, colorSwap. destruct (on_grid r c); [|done]. simpl.
  rewrite list_lookup_fmap.
  destruct (b !! Z.to_nat r) as [row|]; simpl; [|done].
  by rewrite list_lookup_fmap.
Qed.

Lemma read_colorSwap b r c :
  read (colorSwap b) r c = swap_cell <$> read b r c.
Proof.
  unfold read. rewrite cellAt_colorSwap. by destruct (cellAt b r c).
Qed.

Lemma walk_colorSwap chk fuel b other d0 d1 r c ch :
  walk chk fuel (colorSwap b) (swap_cell other) d0 d1 r c (swap_cell ch)
  = swap_cell <$> walk chk fuel b other d0 d1 r c ch.
Proof.
  revert r c ch. induction fuel as [|fuel IH]; intros r c ch; simpl.
  - destruct (decide (swap_cell ch = swap_cell other)) as [H|H],
      (decide (ch = other)) as [H'|H']; try done;
      rewrite swap_cell_inj in H; done.
  - destruct (decide (swap_cell ch = swap_cell other)) as [H|H],
      (decide (ch = other)) as [H'|H']; try done;
      try (rewrite swap_cell_inj in H; done).
    destruct (chk (r + d0) (c + d1)); [done|].
    rewrite read_colorSwap.
    destruct (read b (r + d0) (c + d1)) as [x|e]; simpl; [apply IH | done].
Qed.

Lemma isFlippable_dirs_colorSwap b row col p ds :
  isFlippable_dirs (colorSwap b) row col (swap_player p) ds
  = isFlippable_dirs b row col p ds.
Proof.
  induction ds as [|[d0 d1] ds IH]; simpl; [done|].
  destruct (off_board (row + d0) (col + d1)); [done|].
  rewrite read_colorSwap.
  destruct (read b (row + d0) (col + d1)) as [x|e]; simpl; [|done].
  rewrite otherPlayer_swap.
  change (Disc (swap_player (otherPlayer p)))
    with (swap_cell (Disc (otherPlayer p))).
  destruct (decide (swap_cell x = swap_cell (Disc (otherPlayer p)))) as [H|H],
    (decide (x = Disc (otherPlayer p))) as [H'|H']; try done;
    try (rewrite swap_cell_inj in H; done).
  rewrite walk_colorSwap.
  simpl.
  destruct (walk off_board_144 walk_fuel b (Disc (otherPlayer p))
              d0 d1 (row + d0) (col + d1) x) as [y|e]; simpl; [|done].
  change (Disc (swap_player p)) with (swap_cell (Disc p)).
  destruct (decide (swap_cell y = swap_cell (Disc p))) as [G|G],
    (decide (y = Disc p)) as [G'|G']; try done;
    rewrite swap_cell_inj in G; done.
Qed.

Lemma isFlippable_colorSwap b row col p :
  isFlippable (colorSwap b) row col (swap_player p) = isFlippable b row col p.
Proof. apply isFlippable_dirs_colorSwap. Qed.

Lemma legal_scan_colorSwap b p sq acc :
  legal_scan (colorSwap b) (swap_player p) sq acc = legal_scan b p sq acc.
Proof.
  revert acc. induction sq as [|[i j] sq IH]; intros acc; simpl; [done|].
  rewrite read_colorSwap, isFlippable_colorSwap.
  destruct (read b i j) as [x|e]; simpl; [|done].
  destruct x as [|q]; simpl; [|apply IH].
  destruct (isFlippable b i j p) as [[]|e]; simpl;
    [apply IH | apply IH | done].
Qed.

Lemma calculateLegalMoves_colorSwap b p :
  calculateLegalMoves (colorSwap b) (swap_player p) = calculateLegalMoves b p.
Proof. apply legal_scan_colorSwap. Qed.




Lemma pieces_on_cons b p x sq :
  pieces_on b p (x :: sq) =
  (if decide (cellAt b x.1 x.2 = Some (Disc p)) then 1 else 0)
  + pieces_on b p sq.
Proof.
  unfold pieces_on. rewrite filter_cons.
  destruct (decide _); simpl length; lia.
Qed.

Lemma score_scan_count b p sq : forall total n,
  score_scan b p sq total = Ok n -> n = total + pieces_on b p sq.
Proof.
  induction sq as [|[i j] sq IH]; intros total n; simpl.
  - intros [= <-]. unfold pieces_on. simpl. lia.
  - intros H. inv_bind H. apply read_Ok in Ha. rewrite pieces_on_cons. simpl.
    rewrite Ha.
    destruct (decide (a = Disc p)) as [->|Hne]; apply IH in H.
    + destruct (decide _); [lia | done].
    + destruct (decide _) as [[= ?]|]; [done | lia].
Qed.

Lemma corner_adds b r c bt wt bt' wt' :
  corner b r c (bt, wt) = Ok (bt', wt') ->
  bt' = bt + 10 * pieces_on b Black [(r, c)] /\
  wt' = wt + 10 * pieces_on b White [(r, c)].
Proof.
  unfold corner. intros H. inv_bind H. inv_bind H. injection H as <- <-.
  rewrite Ha in Ha0. injection Ha0 as <-. apply read_Ok in Ha.
  rewrite !pieces_on_cons. simpl. rewrite Ha. unfold pieces_on. simpl.
  destruct a as [|[]]; simpl; split; lia.
Qed.

(* the value of [heuristic] is blackScore - whiteScore as specified *)
Lemma heuristic_formula b h :
  heuristic b = Ok h ->
  exists bm wm,
    calculateLegalMoves b Black = Ok bm /\
    calculateLegalMoves b White = Ok wm /\
    h = score_of b Black bm - score_of b White wm.
Proof.
  unfold heuristic, getBlackLegalMoves, getWhiteLegalMoves, getScore.
  intros H. inv_bind H. inv_bind H. exists a, a0.
  split; [done|]. split; [done|].
  inv_bind H. apply score_scan_count in Ha1.
  inv_bind H. apply score_scan_count in Ha2.
  inv_bind H. destruct a3 as [x1 y1]. apply corner_adds in Ha3 as [E1 F1].
  inv_bind H. destruct a3 as [x2 y2]. apply corner_adds in Ha3 as [E2 F2].
  inv_bind H. destruct a3 as [x3 y3]. apply corner_adds in Ha3 as [E3 F3].
  inv_bind H. destruct a3 as [x4 y4]. apply corner_adds in Ha3 as [E4 F4].
  injection H as <-. simpl. unfold score_of, corners.
  rewrite !pieces_on_cons.
  rewrite !pieces_on_cons in E1, F1, E2, F2, E3, F3, E4, F4.
  assert (Hnil : forall q, pieces_on b q [] = 0) by done.
  rewrite !Hnil in *. simpl in *. lia.
Qed.


(** ** [CreateTree] *)

Lemma mapM_Ok_Forall2 {A B} (f : A -> result B) (l : list A) (k : list B) :
  mapM f l = Ok k -> Forall2 (fun x y => f x = Ok y) l k.
Proof.
  revert k. induction l as [|x l IH]; intros k; simpl.
  - intros [= <-]. constructor.
  - intros H. inv_bind H. inv_bind H. injection H as <-.
    constructor; auto.
Qed.

Lemma legal_scan_sublist b p sq acc l :
  legal_scan b p sq acc = Ok l -> exists l', l = acc ++ l' /\ sublist l' sq.
Proof.
  revert acc l. induction sq as [|[i j] sq IH]; intros acc l; simpl.
  - intros [= <-]. exists []. by rewrite app_nil_r.
  - intros H. inv_bind H.
    destruct (decide (a = Empty)).
    + inv_bind H. destruct a0.
      * apply IH in H as (l' & -> & Hl'). exists ((i, j) :: l').
        rewrite <- app_assoc. split; [done|]. by constructor.
      * apply IH in H as (l' & -> & Hl'). exists l'. split; [done|].
        by constructor.
    + apply IH in H as (l' & -> & Hl'). exists l'. split; [done|].
      by constructor.
Qed.

Lemma calculateLegalMoves_sublist b p l :
  calculateLegalMoves b p = Ok l -> sublist l squares.
Proof. intros H. by apply legal_scan_sublist in H as (l' & -> & ?). Qed.

Lemma other_player_swap p : other_player p = swap_player p.
Proof. by destruct p. Qed.

Lemma CreateTree_n_built n b p t :
  CreateTree_n n b p = Ok t -> built_as n b p t.
Proof.
  revert b p t. induction n as [|n IH]; intros b p t H; simpl in H.
  - inv_bind H. injection H as <-. simpl.
    assert (calculateLegalMoves b p = Ok a) as Hc by (by destruct p).
    repeat split; eauto using calculateLegalMoves_sublist.
  - inv_bind H.
    assert (calculateLegalMoves b p = Ok a) as Hc by (by destruct p).
    destruct (0 <? Z.of_nat (length a)) eqn:Hpos.
    + inv_bind H. injection H as <-. simpl.
      repeat split; eauto using calculateLegalMoves_sublist.
      destruct (decide (a = [])) as [->|Hne]; [done|].
      exists a0. split; [done|].
      apply mapM_Ok_Forall2 in Ha0.
      eapply Forall2_impl; [exact Ha0|].
      intros m c Hm. simpl in Hm. inv_bind Hm.
      exists a1. split; [done|].
      rewrite <- (other_player_swap p). exact (IH _ _ _ Hm).
    + injection H as <-. simpl.
      repeat split; eauto using calculateLegalMoves_sublist.
      destruct (decide (a = [])) as [He|Hne]; [done|].
      destruct a as [|m a]; [done|]. apply Z.ltb_ge in Hpos.
      simpl length in Hpos. lia.
Qed.

(** ** Induction on trees and the equations of the two searches *)

Lemma Node_ind (P : Node -> Prop) :
  (forall t, Forall P (kids_of t) -> P t) -> forall t, P t.
Proof.
  intros step. fix F 1. intros t. apply step.
  destruct t as [[cs|] cc ml st v]; simpl; [|constructor].
  induction cs as [|c cs IH]; constructor; [apply F | apply IH].
Qed.

Lemma minimax_eq t d alpha beta m :
  minimax t d alpha beta m =
  base ← at_base t d;
  if (base : bool) then h ← heuristic (state t); Ok (h, t)
  else if m then
    '(max_eval, kids) ←
      max_loop minimax (no_child t) d beta (kids_of t)
        (Z.to_nat (child_count t)) alpha (-9999999);
    Ok (max_eval, store t kids max_eval)
  else
    '(min_eval, kids) ←
      min_loop minimax (no_child t) d alpha (kids_of t)
        (Z.to_nat (child_count t)) beta 9999999;
    Ok (min_eval, store t kids min_eval).
Proof. destruct t as [[cs|] cc ml st v]; reflexivity. Qed.

Lemma minimax_plain_eq t d m :
  minimax_plain t d m =
  base ← at_base t d;
  if (base : bool) then h ← heuristic (state t); Ok (h, t)
  else if m then
    '(max_eval, kids) ←
      plain_max_loop minimax_plain (no_child t) d (kids_of t)
        (Z.to_nat (child_count t)) (-9999999);
    Ok (max_eval, store t kids max_eval)
  else
    '(min_eval, kids) ←
      plain_min_loop minimax_plain (no_child t) d (kids_of t)
        (Z.to_nat (child_count t)) 9999999;
    Ok (min_eval, store t kids min_eval).
Proof. destruct t as [[cs|] cc ml st v]; reflexivity. Qed.

(** ** The heuristic is small *)

Lemma legal_scan_length b p sq acc l :
  legal_scan b p sq acc = Ok l -> (length l <= length acc + length sq)%nat.
Proof.
  intros H. apply legal_scan_sublist in H as (l' & -> & Hl').
  apply sublist_length in Hl'. rewrite length_app. lia.
Qed.

Lemma squares_length : length squares = 64%nat.
Proof. reflexivity. Qed.

Lemma calculateLegalMoves_length b p l :
  calculateLegalMoves b p = Ok l -> (length l <= 64)%nat.
Proof.
  intros H. apply legal_scan_length in H. rewrite squares_length in H.
  simpl in H. lia.
Qed.

Lemma score_scan_bounds b p sq total n :
  score_scan b p sq total = Ok n ->
  total <= n <= total + Z.of_nat (length sq).
Proof.
  revert total. induction sq as [|[i j] sq IH]; intros total; simpl.
  - intros [= <-]. lia.
  - intros H. inv_bind H.
    destruct (decide (a = Disc p)); apply IH in H; lia.
Qed.

Lemma getScore_bounds b p n : getScore b p = Ok n -> 0 <= n <= 64.
Proof.
  intros H. apply score_scan_bounds in H. rewrite squares_length in H. lia.
Qed.

Lemma corner_bounds b r c bt wt bt' wt' :
  corner b r c (bt, wt) = Ok (bt', wt') ->
  bt <= bt' <= bt + 10 /\ wt <= wt' <= wt + 10.
Proof.
  unfold corner. intros H. inv_bind H. inv_bind H. injection H as <- <-.
  destruct (decide (a = Disc White)), (decide (a0 = Disc Black)); lia.
Qed.

Lemma heuristic_bounds b h : heuristic b = Ok h -> -168 <= h <= 168.
Proof.
  unfold heuristic, getBlackLegalMoves, getWhiteLegalMoves. intros H.
  inv_bind H. apply calculateLegalMoves_length in Ha.
  inv_bind H. apply calculateLegalMoves_length in Ha0.
  inv_bind H. apply getScore_bounds in Ha1.
  inv_bind H. apply getScore_bounds in Ha2.
  inv_bind H. destruct a3 as [x1 y1]. apply corner_bounds in Ha3.
  inv_bind H. destruct a3 as [x2 y2]. apply corner_bounds in Ha4.
  inv_bind H. destruct a3 as [x3 y3]. apply corner_bounds in Ha5.
  inv_bind H. destruct a3 as [x4 y4]. apply corner_bounds in Ha6.
  injection H as <-. simpl. lia.
Qed.

(** ** Values of the search without pruning *)

Lemma plain_max_loop_bounds e d cs todo V v k :
  Forall plain_bounded cs -> in_bounds V ->
  plain_max_loop minimax_plain e d cs todo V = Ok (v, k) ->
  in_bounds v /\ V <= v.
Proof.
  intros Hcs. revert todo V v k.
  induction Hcs as [|c cs Hc Hcs IH]; intros todo V v k HV H;
    destruct todo as [|todo]; simpl in H;
    try (injection H as <- <-; unfold in_bounds in *; lia);
    try discriminate.
  inv_bind H. destruct a as [ev c']. apply Hc in Ha.
  inv_bind H. destruct a as [m cs'']. injection H as <- <-.
  apply IH in Ha0; unfold in_bounds in *; lia.
Qed.

Lemma plain_min_loop_bounds e d cs todo V v k :
  Forall plain_bounded cs -> in_bounds V ->
  plain_min_loop minimax_plain e d cs todo V = Ok (v, k) ->
  in_bounds v /\ v <= V.
Proof.
  intros Hcs. revert todo V v k.
  induction Hcs as [|c cs Hc Hcs IH]; intros todo V v k HV H;
    destruct todo as [|todo]; simpl in H;
    try (injection H as <- <-; unfold in_bounds in *; lia);
    try discriminate.
  inv_bind H. destruct a as [ev c']. apply Hc in Ha.
  inv_bind H. destruct a as [m cs'']. injection H as <- <-.
  apply IH in Ha0; unfold in_bounds in *; lia.
Qed.

Lemma plain_max_loop_bounds_ge e d cs todo V v k :
  plain_max_loop minimax_plain e d cs todo V = Ok (v, k) -> V <= v.
Proof.
  revert todo V v k.
  induction cs as [|c cs IH]; intros todo V v k H;
    destruct todo as [|todo]; simpl in H; try (injection H as <- <-; lia);
    try discriminate.
  inv_bind H. destruct a as [ev c'].
  inv_bind H. destruct a as [m cs'']. injection H as <- <-.
  apply IH in Ha0. lia.
Qed.

Lemma plain_min_loop_bounds_le e d cs todo V v k :
  plain_min_loop minimax_plain e d cs todo V = Ok (v, k) -> v <= V.
Proof.
  revert todo V v k.
  induction cs as [|c cs IH]; intros todo V v k H;
    destruct todo as [|todo]; simpl in H; try (injection H as <- <-; lia);
    try discriminate.
  inv_bind H. destruct a as [ev c'].
  inv_bind H. destruct a as [m cs'']. injection H as <- <-.
  apply IH in Ha0. lia.
Qed.

Lemma minimax_plain_bounds t : plain_bounded t.
Proof.
  induction t as [t IH] using Node_ind. intros d m v tp.
  rewrite minimax_plain_eq. intros H. inv_bind H. destruct a.
  - inv_bind H. injection H as <- <-.
    apply heuristic_bounds in Ha0. unfold in_bounds. lia.
  - destruct m; inv_bind H; destruct a as [r kids]; injection H as <- <-.
    + eapply plain_max_loop_bounds; eauto. unfold in_bounds. lia.
    + eapply plain_min_loop_bounds; eauto. unfold in_bounds. lia.
Qed.

(** ** Alpha-beta against the search without pruning *)

Lemma max_loop_sound e d alpha0 beta cs :
  Forall pruning_sound cs ->
  forall todo alpha M V v kp,
    alpha < beta ->
    Z.max alpha0 M = Z.max alpha0 V -> Z.max alpha M = Z.max alpha0 M ->
    alpha0 < beta ->
    plain_max_loop minimax_plain e d cs todo V = Ok (v, kp) ->
    exists r ka, max_loop minimax e d beta cs todo alpha M = Ok (r, ka) /\
                 agrees alpha0 beta v r.
Proof.
  induction 1 as [|c cs Hc Hcs IH]; intros todo alpha M V v kp Hab HJ1 HJ2 H0 H;
    destruct todo as [|todo]; simpl in H; simpl;
    try (injection H as <- <-; eexists _, _; split; [done|];
         unfold agrees; lia);
    try discriminate.
  inv_bind H. destruct a as [vi c']. inv_bind H. destruct a as [m cs''].
  injection H as <- <-.
  destruct (Hc _ alpha beta _ _ _ Hab Ha) as (ei & ca & -> & Hagree). simpl.
  destruct (Z.leb_spec beta (Z.max alpha ei)) as [Hcut|Hgo].
  - eexists _, _. split; [done|].
    pose proof (plain_max_loop_bounds_ge e d cs todo (Z.max V vi) m cs'' Ha0).
    unfold agrees in *. lia.
  - destruct (IH todo (Z.max alpha ei) (Z.max M ei) (Z.max V vi) m cs'')
      as (r & ka & -> & Hr); try done; try (unfold agrees in *; lia).
    simpl. eexists _, _. split; [done|]. done.
Qed.

Lemma min_loop_sound e d alpha beta0 cs :
  Forall pruning_sound cs ->
  forall todo beta M V v kp,
    alpha < beta ->
    Z.min beta0 M = Z.min beta0 V -> Z.min beta M = Z.min beta0 M ->
    alpha < beta0 ->
    plain_min_loop minimax_plain e d cs todo V = Ok (v, kp) ->
    exists r ka, min_loop minimax e d alpha cs todo beta M = Ok (r, ka) /\
                 agrees alpha beta0 v r.
Proof.
  induction 1 as [|c cs Hc Hcs IH]; intros todo beta M V v kp Hab HJ1 HJ2 H0 H;
    destruct todo as [|todo]; simpl in H; simpl;
    try (injection H as <- <-; eexists _, _; split; [done|];
         unfold agrees; lia);
    try discriminate.
  inv_bind H. destruct a as [vi c']. inv_bind H. destruct a as [m cs''].
  injection H as <- <-.
  destruct (Hc _ alpha beta _ _ _ Hab Ha) as (ei & ca & -> & Hagree). simpl.
  destruct (Z.leb_spec (Z.min beta ei) alpha) as [Hcut|Hgo].
  - eexists _, _. split; [done|].
    pose proof (plain_min_loop_bounds_le e d cs todo (Z.min V vi) m cs'' Ha0).
    unfold agrees in *. lia.
  - destruct (IH todo (Z.min beta ei) (Z.min M ei) (Z.min V vi) m cs'')
      as (r & ka & -> & Hr); try done; try (unfold agrees in *; lia).
    simpl. eexists _, _. split; [done|]. done.
Qed.

Lemma minimax_pruning_sound t : pruning_sound t.
Proof.
  induction t as [t IH] using Node_ind. intros d alpha beta m v tp Hab.
  rewrite minimax_plain_eq, minimax_eq. intros H.
  inv_bind H. rewrite Ha. simpl. destruct a.
  - inv_bind H. injection H as <- <-. rewrite Ha0. simpl.
    eexists _, _. split; [done|]. unfold agrees. lia.
  - destruct m; inv_bind H; destruct a as [v' kids]; injection H as <- <-.
    + destruct (max_loop_sound (no_child t) d alpha beta (kids_of t) IH
                  (Z.to_nat (child_count t)) alpha (-9999999) (-9999999)
                  v' kids) as (r & ka & -> & Hr); try done.
      simpl. eauto.
    + destruct (min_loop_sound (no_child t) d alpha beta (kids_of t) IH
                  (Z.to_nat (child_count t)) beta 9999999 9999999
                  v' kids) as (r & ka & -> & Hr); try done.
      simpl. eauto.
Qed.

(* the window of the root call contains every value of the plain search *)
Lemma root_value_agrees t d m v tp :
  minimax_plain t d m = Ok (v, tp) ->
  exists ta, minimax t d (-99999999) 99999999 m = Ok (v, ta).
Proof.
  intros H. pose proof (minimax_plain_bounds t _ _ _ _ H) as Hb.
  destruct (minimax_pruning_sound t d (-99999999) 99999999 m v tp)
    as (r & ta & Hr & _ & _ & Heq); [lia | done |].
  unfold in_bounds in Hb. rewrite Heq in Hr by lia. eauto.
Qed.

(** ** What the loops leave in the children array *)

Lemma kids_of_store t kids r :
  kids_of (store t kids r) =
  match children t with Some _ => kids | None => [] end.
Proof. unfold kids_of, store. simpl. by destruct (children t). Qed.

Lemma kids_of_lookup_Some t i c :
  kids_of t !! i = Some c -> exists cs, children t = Some cs /\ kids_of t = cs.
Proof. unfold kids_of. destruct (children t); [eauto | done]. Qed.

Lemma max_loop_length e d beta cs todo alpha M r kids :
  max_loop minimax e d beta cs todo alpha M = Ok (r, kids) ->
  length kids = length cs.
Proof.
  revert todo alpha M r kids.
  induction cs as [|c cs IH]; intros todo alpha M r kids H;
    destruct todo as [|todo]; simpl in H; try (by injection H as <- <-);
    try discriminate.
  inv_bind H. destruct a as [ev c'].
  destruct (beta <=? Z.max alpha ev); [by injection H as <- <-|].
  inv_bind H. destruct a as [m cs'']. injection H as <- <-.
  simpl. f_equal. eauto.
Qed.

Lemma min_loop_length e d alpha cs todo beta M r kids :
  min_loop minimax e d alpha cs todo beta M = Ok (r, kids) ->
  length kids = length cs.
Proof.
  revert todo beta M r kids.
  induction cs as [|c cs IH]; intros todo beta M r kids H;
    destruct todo as [|todo]; simpl in H; try (by injection H as <- <-);
    try discriminate.
  inv_bind H. destruct a as [ev c'].
  destruct (Z.min beta ev <=? alpha); [by injection H as <- <-|].
  inv_bind H. destruct a as [m cs'']. injection H as <- <-.
  simpl. f_equal. eauto.
Qed.

(* the loop index [i] is reached with alpha [a]: child [i] is searched with
   it and replaced by the searched child; otherwise it is left as it was *)
Lemma max_loop_lookup e d beta cs :
  forall todo alpha M r kids,
    max_loop minimax e d beta cs todo alpha M = Ok (r, kids) ->
    forall i c, cs !! i = Some c ->
      match (if decide (i < todo)%nat then max_arrive d beta cs i alpha
             else None) with
      | Some a => exists ev c', minimax c (d - 1) a beta false = Ok (ev, c') /\
                                kids !! i = Some c'
      | None => kids !! i = Some c
      end.
Proof.
  induction cs as [|c0 cs IH]; intros todo alpha M r kids H i c Hi;
    [done|].
  destruct todo as [|todo]; simpl in H.
  { injection H as <- <-. destruct (decide (i < 0)%nat); [lia | done]. }
  inv_bind H. destruct a as [ev0 c0'].
  destruct i as [|i]; simpl in Hi.
  - injection Hi as <-. destruct (decide (0 < S todo)%nat); [|lia]. simpl.
    exists ev0, c0'. split; [done|].
    destruct (beta <=? Z.max alpha ev0); [by injection H as <- <-|].
    inv_bind H. destruct a as [m cs'']. by injection H as <- <-.
  - simpl. rewrite Ha.
    destruct (beta <=? Z.max alpha ev0) eqn:Hcut.
    + injection H as <- <-. by destruct (decide (S i < S todo)%nat).
    + inv_bind H. destruct a as [m cs'']. injection H as <- <-.
      specialize (IH _ _ _ _ _ Ha0 i c Hi). simpl.
      destruct (decide (S i < S todo)%nat), (decide (i < todo)%nat);
        try lia; done.
Qed.

Lemma min_loop_lookup e d alpha cs :
  forall todo beta M r kids,
    min_loop minimax e d alpha cs todo beta M = Ok (r, kids) ->
    forall i c, cs !! i = Some c ->
      match (if decide (i < todo)%nat then min_arrive d alpha cs i beta
             else None) with
      | Some b => exists ev c', minimax c (d - 1) alpha b true = Ok (ev, c') /\
                                kids !! i = Some c'
      | None => kids !! i = Some c
      end.
Proof.
  induction cs as [|c0 cs IH]; intros todo beta M r kids H i c Hi;
    [done|].
  destruct todo as [|todo]; simpl in H.
  { injection H as <- <-. destruct (decide (i < 0)%nat); [lia | done]. }
  inv_bind H. destruct a as [ev0 c0'].
  destruct i as [|i]; simpl in Hi.
  - injection Hi as <-. destruct (decide (0 < S todo)%nat); [|lia]. simpl.
    exists ev0, c0'. split; [done|].
    destruct (Z.min beta ev0 <=? alpha); [by injection H as <- <-|].
    inv_bind H. destruct a as [m cs'']. by injection H as <- <-.
  - simpl. rewrite Ha.
    destruct (Z.min beta ev0 <=? alpha) eqn:Hcut.
    + injection H as <- <-. by destruct (decide (S i < S todo)%nat).
    + inv_bind H. destruct a as [m cs'']. injection H as <- <-.
      specialize (IH _ _ _ _ _ Ha0 i c Hi). simpl.
      destruct (decide (S i < S todo)%nat), (decide (i < todo)%nat);
        try lia; done.
Qed.

Lemma plain_max_loop_lookup e d cs :
  forall todo V v kids,
    plain_max_loop minimax_plain e d cs todo V = Ok (v, kids) ->
    forall i c, cs !! i = Some c -> (i < todo)%nat ->
      exists ev c', minimax_plain c (d - 1) false = Ok (ev, c') /\
                    kids !! i = Some c'.
Proof.
  induction cs as [|c0 cs IH]; intros todo V v kids H i c Hi Hlt; [done|].
  destruct todo as [|todo]; [lia|]. simpl in H.
  inv_bind H. destruct a as [ev0 c0'].
  inv_bind H. destruct a as [m cs'']. injection H as <- <-.
  destruct i as [|i]; simpl in Hi.
  - injection Hi as <-. eauto.
  - simpl. eapply IH; eauto. lia.
Qed.

Lemma plain_min_loop_lookup e d cs :
  forall todo V v kids,
    plain_min_loop minimax_plain e d cs todo V = Ok (v, kids) ->
    forall i c, cs !! i = Some c -> (i < todo)%nat ->
      exists ev c', minimax_plain c (d - 1) true = Ok (ev, c') /\
                    kids !! i = Some c'.
Proof.
  induction cs as [|c0 cs IH]; intros todo V v kids H i c Hi Hlt; [done|].
  destruct todo as [|todo]; [lia|]. simpl in H.
  inv_bind H. destruct a as [ev0 c0'].
  inv_bind H. destruct a as [m cs'']. injection H as <- <-.
  destruct i as [|i]; simpl in Hi.
  - injection Hi as <-. eauto.
  - simpl. eapply IH; eauto. lia.
Qed.

(** ** The calls of the pruned search and the trees the searches return *)

Lemma call_at_cons t d alpha beta m i path cl :
  call_at t d alpha beta m (i :: path) = Some cl ->
  at_base t d = Ok false /\ (i < Z.to_nat (child_count t))%nat /\
  exists c, kids_of t !! i = Some c /\
    if m then
      exists a, max_arrive d beta (kids_of t) i alpha = Some a /\
                call_at c (d - 1) a beta false path = Some cl
    else
      exists b, min_arrive d alpha (kids_of t) i beta = Some b /\
                call_at c (d - 1) alpha b true path = Some cl.
Proof.
  simpl. destruct (at_base t d) as [[]|]; try done.
  destruct (decide (i < Z.to_nat (child_count t))%nat); [|done].
  destruct (kids_of t !! i) as [c|]; [|done]. simpl.
  intros H. split; [done|]. split; [done|]. exists c. split; [done|].
  destruct m.
  - destruct (max_arrive d beta (kids_of t) i alpha); [eauto | done].
  - destruct (min_arrive d alpha (kids_of t) i beta); [eauto | done].
Qed.

Lemma call_at_app path : forall t d alpha beta m cl path',
  call_at t d alpha beta m path = Some cl ->
  call_at t d alpha beta m (path ++ path')
  = call_at (c_node cl) (c_depth cl) (c_alpha cl) (c_beta cl) (c_max cl) path'.
Proof.
  induction path as [|i path IH]; intros t d alpha beta m cl path' H.
  - by injection H as <-.
  - pose proof H as H'. apply call_at_cons in H' as (Hb & Hlt & c & Hc & Hm).
    simpl. rewrite Hb, Hc. destruct (decide _) as [_|]; [|done]. simpl.
    destruct m.
    + destruct Hm as (a & -> & Hcall). simpl. by apply IH.
    + destruct Hm as (b & -> & Hcall). simpl. by apply IH.
Qed.

(* the node the pruned search leaves at a path it visits is the node its
   call there returns *)
Lemma subtree_searched path : forall t d alpha beta m v t' cl,
  minimax t d alpha beta m = Ok (v, t') ->
  call_at t d alpha beta m path = Some cl ->
  exists v' n',
    minimax (c_node cl) (c_depth cl) (c_alpha cl) (c_beta cl) (c_max cl)
      = Ok (v', n') /\
    subtree t' path = Some n'.
Proof.
  induction path as [|i path IH]; intros t d alpha beta m v t' cl H Hcall.
  - injection Hcall as <-. simpl. eauto.
  - apply call_at_cons in Hcall as (Hb & Hlt & c & Hc & Hm).
    rewrite minimax_eq, Hb in H. simpl in H.
    destruct (kids_of_lookup_Some _ _ _ Hc) as (cs & Hch & Hcs).
    destruct m; inv_bind H; destruct a as [r kids]; injection H as <- <-;
      destruct Hm as (a & Harr & Hcall).
    + pose proof (max_loop_lookup _ _ _ _ _ _ _ _ _ Ha i c Hc) as Hl.
      destruct (decide (i < Z.to_nat (child_count t))%nat); [|done].
      rewrite Harr in Hl. destruct Hl as (ev & c' & Hmc & Hk).
      destruct (IH _ _ _ _ _ _ _ _ Hmc Hcall) as (v' & n' & Hn & Hs).
      exists v', n'. split; [done|].
      simpl. rewrite kids_of_store, Hch, Hk. done.
    + pose proof (min_loop_lookup _ _ _ _ _ _ _ _ _ Ha i c Hc) as Hl.
      destruct (decide (i < Z.to_nat (child_count t))%nat); [|done].
      rewrite Harr in Hl. destruct Hl as (ev & c' & Hmc & Hk).
      destruct (IH _ _ _ _ _ _ _ _ Hmc Hcall) as (v' & n' & Hn & Hs).
      exists v', n'. split; [done|].
      simpl. rewrite kids_of_store, Hch, Hk. done.
Qed.

(* the search without pruning visits every node the pruned search visits *)
Lemma subtree_plain path : forall t d alpha beta m v tp cl,
  minimax_plain t d m = Ok (v, tp) ->
  call_at t d alpha beta m path = Some cl ->
  exists v' n',
    minimax_plain (c_node cl) (c_depth cl) (c_max cl) = Ok (v', n') /\
    subtree tp path = Some n'.
Proof.
  induction path as [|i path IH]; intros t d alpha beta m v tp cl H Hcall.
  - injection Hcall as <-. simpl. eauto.
  - apply call_at_cons in Hcall as (Hb & Hlt & c & Hc & Hm).
    rewrite minimax_plain_eq, Hb in H. simpl in H.
    destruct (kids_of_lookup_Some _ _ _ Hc) as (cs & Hch & Hcs).
    destruct m; inv_bind H; destruct a as [r kids]; injection H as <- <-;
      destruct Hm as (a & Harr & Hcall).
    + destruct (plain_max_loop_lookup _ _ _ _ _ _ _ Ha i c Hc Hlt)
        as (ev & c' & Hmc & Hk).
      destruct (IH _ _ _ _ _ _ _ _ Hmc Hcall) as (v' & n' & Hn & Hs).
      exists v', n'. split; [done|].
      simpl. rewrite kids_of_store, Hch, Hk. done.
    + destruct (plain_min_loop_lookup _ _ _ _ _ _ _ Ha i c Hc Hlt)
        as (ev & c' & Hmc & Hk).
      destruct (IH _ _ _ _ _ _ _ _ Hmc Hcall) as (v' & n' & Hn & Hs).
      exists v', n'. split; [done|].
      simpl. rewrite kids_of_store, Hch, Hk. done.
Qed.

(* where the search does not write, the tree is as it was *)
Lemma unwritten_unchanged path : forall t d alpha beta m v t',
  minimax t d alpha beta m = Ok (v, t') ->
  written t d alpha beta m path = false ->
  subtree t' path = subtree t path.
Proof.
  induction path as [|i path IH]; intros t d alpha beta m v t' H Hw;
    rewrite minimax_eq in H; inv_bind H; unfold written in Hw; simpl in Hw;
    rewrite Ha in Hw; destruct a;
    try (inv_bind H; by injection H as <- <-); try done.
  assert (exists r kids, t' = store t kids r /\
            length kids = length (kids_of t) /\
            forall c, kids_of t !! i = Some c ->
              match (if decide (i < Z.to_nat (child_count t))%nat then
                       if m then max_arrive d beta (kids_of t) i alpha
                       else min_arrive d alpha (kids_of t) i beta
                     else None) with
              | Some a =>
                  exists ev c',
                    minimax c (d - 1) (if m then a else alpha)
                      (if m then beta else a) (negb m) = Ok (ev, c') /\
                    kids !! i = Some c'
              | None => kids !! i = Some c
              end) as (r & kids & -> & Hlen & Hl).
  { destruct m; inv_bind H; destruct a as [r kids]; injection H as <- <-;
      exists r, kids; (split; [done|]).
    - split; [eapply max_loop_length; eauto|]. intros c Hc.
      pose proof (max_loop_lookup _ _ _ _ _ _ _ _ _ Ha0 i c Hc) as Hl.
      by destruct (decide _).
    - split; [eapply min_loop_length; eauto|]. intros c Hc.
      pose proof (min_loop_lookup _ _ _ _ _ _ _ _ _ Ha0 i c Hc) as Hl.
      by destruct (decide _). }
  simpl. rewrite kids_of_store.
  destruct (kids_of t !! i) as [c|] eqn:Hc.
  - destruct (kids_of_lookup_Some _ _ _ Hc) as (cs & Hch & Hcs).
    rewrite Hch. specialize (Hl c eq_refl). simpl in Hw.
    destruct (decide (i < Z.to_nat (child_count t))%nat);
      [|by rewrite Hl]. 
    destruct m.
    + destruct (max_arrive d beta (kids_of t) i alpha) as [a|];
        [|by rewrite Hl].
      destruct Hl as (ev & c' & Hmc & ->). simpl. eapply IH; eauto.
    + destruct (min_arrive d alpha (kids_of t) i beta) as [a|];
        [|by rewrite Hl].
      destruct Hl as (ev & c' & Hmc & ->). simpl. eapply IH; eauto.
  - destruct (children t) as [cs|] eqn:Hch; [|done].
    rewrite (proj2 (lookup_ge_None kids i)); [done|].
    apply lookup_ge_None in Hc. lia.
Qed.

(** ** A search without any cut is the search without pruning *)

Lemma max_loop_no_cut e d beta cs :
  Forall same_without_cut cs ->
  forall todo alpha M r kids,
    max_loop minimax e d beta cs todo alpha M = Ok (r, kids) ->
    is_Some (max_arrive d beta cs todo alpha) ->
    (forall j c a, (j < todo)%nat -> cs !! j = Some c ->
       max_arrive d beta cs j alpha = Some a ->
       no_cut_below c (d - 1) a beta false []) ->
    plain_max_loop minimax_plain e d cs todo M = Ok (r, kids).
Proof.
  induction 1 as [|c cs Hc Hcs IH]; intros todo alpha M r kids H Harr Hsub;
    destruct todo as [|todo]; simpl in H; simpl; try done.
  inv_bind H. destruct a as [ev c'].
  simpl in Harr. rewrite Ha in Harr.
  destruct (beta <=? Z.max alpha ev) eqn:Hcut; [by destruct Harr|].
  inv_bind H. destruct a as [m cs'']. injection H as <- <-.
  rewrite (Hc _ _ _ _ _ _ (Hsub 0%nat c alpha ltac:(lia) eq_refl eq_refl) Ha).
  simpl.
  rewrite (IH _ _ _ _ _ Ha0 Harr); [done|].
  intros j cj a Hj Hcj Ha'. apply (Hsub (S j) cj a); [lia | done |].
  simpl. by rewrite Ha, Hcut.
Qed.

Lemma min_loop_no_cut e d alpha cs :
  Forall same_without_cut cs ->
  forall todo beta M r kids,
    min_loop minimax e d alpha cs todo beta M = Ok (r, kids) ->
    is_Some (min_arrive d alpha cs todo beta) ->
    (forall j c b, (j < todo)%nat -> cs !! j = Some c ->
       min_arrive d alpha cs j beta = Some b ->
       no_cut_below c (d - 1) alpha b true []) ->
    plain_min_loop minimax_plain e d cs todo M = Ok (r, kids).
Proof.
  induction 1 as [|c cs Hc Hcs IH]; intros todo beta M r kids H Harr Hsub;
    destruct todo as [|todo]; simpl in H; simpl; try done.
  inv_bind H. destruct a as [ev c'].
  simpl in Harr. rewrite Ha in Harr.
  destruct (Z.min beta ev <=? alpha) eqn:Hcut; [by destruct Harr|].
  inv_bind H. destruct a as [m cs'']. injection H as <- <-.
  rewrite (Hc _ _ _ _ _ _ (Hsub 0%nat c beta ltac:(lia) eq_refl eq_refl) Ha).
  simpl.
  rewrite (IH _ _ _ _ _ Ha0 Harr); [done|].
  intros j cj b Hj Hcj Hb'. apply (Hsub (S j) cj b); [lia | done |].
  simpl. by rewrite Ha, Hcut.
Qed.

Lemma no_cut_below_child t d alpha beta m i c a :
  no_cut_below t d alpha beta m [] ->
  at_base t d = Ok false -> (i < Z.to_nat (child_count t))%nat ->
  kids_of t !! i = Some c ->
  (if m then max_arrive d beta (kids_of t) i alpha
   else min_arrive d alpha (kids_of t) i beta) = Some a ->
  no_cut_below c (d - 1) (if m then a else alpha) (if m then beta else a)
    (negb m) [].
Proof.
  intros Hn Hb Hlt Hc Harr path' cl Hcall. apply (Hn (i :: path') cl).
  simpl in *. rewrite Hb, Hc. destruct (decide _); [|done]. simpl.
  destruct m; rewrite Harr; done.
Qed.

Lemma minimax_same_without_cut t : same_without_cut t.
Proof.
  induction t as [t IH] using Node_ind. intros d alpha beta m v ta Hn.
  rewrite minimax_plain_eq, minimax_eq. intros H.
  inv_bind H. rewrite Ha. simpl. destruct a; [done|].
  destruct (Hn [] (mkCall t d alpha beta m) eq_refl) as [Hb|Hf];
    simpl in *; [congruence|].
  unfold fully_visited in Hf. simpl in Hf. rewrite Ha in Hf.
  destruct m; inv_bind H; destruct a as [r kids]; injection H as <- <-;
    apply bool_decide_eq_true in Hf.
  - erewrite max_loop_no_cut; eauto.
    intros j c a Hj Hc Harr.
    by apply (no_cut_below_child t d alpha beta true j c a).
  - erewrite min_loop_no_cut; eauto.
    intros j c b Hj Hc Harr.
    by apply (no_cut_below_child t d alpha beta false j c b).
Qed.

(** ** The two searches on the tree of [CreateTree] *)

(** C3, as amended.  On the tree that [CreateTree] builds, whenever the
    search without pruning returns a value, the alpha-beta search called
    with alpha = -99999999 and beta = 99999999 returns the same value; and
    every node that the pruned search visits, and below which it makes no
    cut at all, ends with the same val as under the search without
    pruning. *)
Theorem pruned_search_agrees (b : board) (depth : Z) (p : player)
    (t tp : Node) (v : Z) :
  CreateTree b depth p = Ok t ->
  minimax_plain t depth (maximizer p) = Ok (v, tp) ->
  exists ta,
    minimax t depth (-99999999) 99999999 (maximizer p) = Ok (v, ta) /\
    forall path cl,
      call_at t depth (-99999999) 99999999 (maximizer p) path = Some cl ->
      no_cut_below t depth (-99999999) 99999999 (maximizer p) path ->
      val <$> subtree ta path = val <$> subtree tp path.
Proof.
  intros _ Hp.
  destruct (root_value_agrees t depth (maximizer p) v tp Hp) as [ta Ha].
  exists ta. split; [done|]. intros path cl Hcall Hn.
  destruct (subtree_searched path _ _ _ _ _ _ _ _ Ha Hcall)
    as (v1 & n1 & Hs1 & ->).
  destruct (subtree_plain path _ _ _ _ _ _ _ _ Hp Hcall)
    as (v2 & n2 & Hs2 & ->).
  apply minimax_same_without_cut in Hs1.
  - rewrite Hs1 in Hs2. by injection Hs2 as <- <-.
  - intros path' cl' Hcall'. apply (Hn path' cl').
    by rewrite (call_at_app path _ _ _ _ _ _ path' Hcall).
Qed.

Lemma pruned_search_agrees_witness :
  CreateTree initial_board 2 Black = Ok opening_tree /\
  minimax_plain opening_tree 2 (maximizer Black) = Ok (-1, opening_searched) /\
  exists ta,
    minimax opening_tree 2 (-99999999) 99999999 (maximizer Black)
    = Ok (-1, ta).
Proof.
  assert (Ht : CreateTree initial_board 2 Black = Ok opening_tree)
    by (vm_compute; reflexivity).
  assert (Hp : minimax_plain opening_tree 2 (maximizer Black)
               = Ok (-1, opening_searched)) by (vm_compute; reflexivity).
  split; [exact Ht|]. split; [exact Hp|].
  destruct (pruned_search_agrees initial_board 2 Black opening_tree
              opening_searched (-1) Ht Hp) as (ta & Ha & _).
  by exists ta.
Defined.

(** C3, as the claim states it, fails on [midgame_board] with White to
    move and depth 4.  The pruned search runs the loop of the node at path
    2,0 (a minimizing node searched with beta = 4) over all four children
    without a break and stores 4; the search without pruning stores 6: the
    children were cut and returned bounds, not values. *)
Lemma fully_visited_val_differs :
  play initial_board Black [(4, 5); (5, 5); (6, 5)] = Some midgame_board /\
  vals_at midgame_board 4 White [2; 0]%nat = Some (Some 4, Some 6) /\
  ~ same_val_when_fully_visited midgame_board 4 White.
Proof.
  assert (Hv : vals_at midgame_board 4 White [2; 0]%nat
               = Some (Some 4, Some 6)) by (vm_compute; reflexivity).
  split; [vm_compute; reflexivity|].
  split; [exact Hv|]. intros Hclaim. unfold vals_at in Hv.
  destruct (CreateTree midgame_board 4 White) as [t|] eqn:Ht; [|done].
  destruct (minimax t 4 (-99999999) 99999999 (maximizer White))
    as [[v ta]|] eqn:Ha; [|done].
  destruct (minimax_plain t 4 (maximizer White)) as [[v' tp]|] eqn:Hp;
    [|done].
  destruct (call_at t 4 (-99999999) 99999999 (maximizer White) [2; 0]%nat)
    as [cl|] eqn:Hcall; [|done].
  destruct (fully_visited cl) eqn:Hf; [|done].
  destruct (Hclaim t ta tp v v' Ht Ha Hp) as [_ Hsame].
  specialize (Hsame _ _ Hcall Hf). rewrite Hsame in Hv. congruence.
Qed.

(** ** The val field *)

Lemma CreateTree_n_val n : forall b p t,
  CreateTree_n n b p = Ok t ->
  forall path x, subtree t path = Some x -> val x = 0.
Proof.
  induction n as [|n IH]; intros b p t H path x Hx; simpl in H; inv_bind H.
  - injection H as <-. destruct path as [|i path]; simpl in Hx.
    + by injection Hx as <-.
    + done.
  - destruct (0 <? Z.of_nat (length a)).
    + inv_bind H. injection H as <-. destruct path as [|i path]; simpl in Hx.
      * by injection Hx as <-.
      * unfold kids_of in Hx. simpl in Hx.
        destruct (a0 !! i) as [c|] eqn:Hc; [|done]. simpl in Hx.
        apply mapM_Ok_Forall2 in Ha0.
        destruct (Forall2_lookup_r _ _ _ _ _ Ha0 Hc) as (m & _ & Hm).
        simpl in Hm. inv_bind Hm. eapply IH; eauto.
    + injection H as <-. destruct path as [|i path]; simpl in Hx.
      * by injection Hx as <-.
      * done.
Qed.

(** C10.  Every node of a tree built by [CreateTree] has val = 0.  A search
    writes val only on the nodes on which it runs a loop over the children:
    a node that it never calls minimax on (a child skipped by a cut, or
    anything below such a child or below a base case), and a node on which
    the call is a base case (depth == 0 or a terminal board), has val = 0
    after the search as well.  So when the value the search returns is 0,
    the test [val == optimal value] of the scan of the root's children
    holds for such a child. *)
Theorem unwritten_val_stays_zero (b : board) (depth : Z) (p : player)
    (t : Node) :
  CreateTree b depth p = Ok t ->
  (forall path n, subtree t path = Some n -> val n = 0) /\
  (forall d alpha beta m v t',
     minimax t d alpha beta m = Ok (v, t') ->
     forall path n',
       subtree t' path = Some n' ->
       (call_at t d alpha beta m path = None \/
        exists cl, call_at t d alpha beta m path = Some cl /\
                   at_base (c_node cl) (c_depth cl) = Ok true) ->
       val n' = 0 /\ (v = 0 -> val n' = v)).
Proof.
  intros Ht.
  assert (Hzero : forall path n, subtree t path = Some n -> val n = 0)
    by (eapply CreateTree_n_val; exact Ht).
  split; [exact Hzero|].
  intros d alpha beta m v t' Hs path n' Hn' Hcase.
  assert (written t d alpha beta m path = false) as Hw.
  { unfold written. destruct Hcase as [->|(cl & -> & ->)]; done. }
  rewrite (unwritten_unchanged path _ _ _ _ _ _ _ Hs Hw) in Hn'.
  apply Hzero in Hn'. split; [done|]. intros ->. done.
Qed.

(* White to move on [reply_board], searched one ply deep: the replies 1,1
   1,3  5,3  5,5 are worth 2, 4, 2 and 0, the search returns 0, and the first
   child passes the test val == 0 with the 0 it was created with: the scan
   selects 1,1. *)
Lemma unwritten_val_stays_zero_witness :
  play initial_board Black [(2, 3); (2, 2); (2, 1); (3, 5); (4, 5)]
  = Some reply_board /\
  CreateTree reply_board 1 White = Ok reply_tree /\
  minimax reply_tree 1 (-99999999) 99999999 (maximizer White)
  = Ok (0, reply_searched) /\
  (heuristic <$> (state <$> kids_of reply_tree)) = [Ok 2; Ok 4; Ok 2; Ok 0] /\
  (exists n', subtree reply_searched [0%nat] = Some n' /\ val n' = 0) /\
  ai_turn 1 reply_board White = makeMove reply_board 1 1 White.
Proof.
  assert (Ht : CreateTree reply_board 1 White = Ok reply_tree)
    by (vm_compute; reflexivity).
  assert (Hs : minimax reply_tree 1 (-99999999) 99999999 (maximizer White)
               = Ok (0, reply_searched)) by (vm_compute; reflexivity).
  split; [vm_compute; reflexivity|].
  split; [exact Ht|]. split; [exact Hs|].
  split; [vm_compute; reflexivity|]. split; [|vm_compute; reflexivity].
  destruct (subtree reply_searched [0%nat]) as [n'|] eqn:Hn;
    [|by vm_compute in Hn].
  exists n'. split; [reflexivity|].
  refine (proj1 (proj2 (unwritten_val_stays_zero reply_board 1 White
                          reply_tree Ht)
                   1 (-99999999) 99999999 (maximizer White) 0 reply_searched
                   Hs [0%nat] n' Hn _)).
  right.
  destruct (call_at reply_tree 1 (-99999999) 99999999 (maximizer White)
              [0%nat]) as [cl|] eqn:Hc; [|by vm_compute in Hc].
  exists cl. split; [reflexivity|].
  vm_compute in Hc. injection Hc as <-. vm_compute. reflexivity.
Defined.

(** ** The engine's turn on two end-game boards *)

(** C5.  On [endgame_board], Black to move, with the depth, alpha and beta
    of main: the search visits the only child of the root (the full board
    after 0,0), the call on it is a base case and returns 104, which is the
    value of the root; the child's val is still 0 afterwards.  The scan of
    the root's children then finds no child with val = 104 and the engine
    leaves the board as it was. *)
Theorem base_case_value_not_recorded :
  match CreateTree endgame_board MINIMAX_DEPTH Black with
  | Ok t =>
      match minimax t MINIMAX_DEPTH (-99999999) 99999999 (maximizer Black),
            call_at t MINIMAX_DEPTH (-99999999) 99999999 (maximizer Black)
              [0%nat] with
      | Ok (v, t'), Some cl =>
          v = 104 /\
          at_base (c_node cl) (c_depth cl) = Ok true /\
          fst <$> minimax (c_node cl) (c_depth cl) (c_alpha cl) (c_beta cl)
                    (c_max cl) = Ok 104 /\
          val <$> subtree t' [0%nat] = Some 0
      | _, _ => False
      end
  | Fail _ => False
  end /\
  ai_turn MINIMAX_DEPTH endgame_board Black = Ok endgame_board.
Proof. vm_compute. repeat split; reflexivity. Qed.

(** C6.  On [lastrow_board], Black to move: the first child of the root
    whose val equals the value of the search is the second one, the board
    after 7,7.  It differs from the current board on (7,6) and (7,7) only,
    which the comparison over j < 7, k < 7 never reads; the engine takes
    the two boards for identical and plays the first legal move, 2,0.  As
    the specification words the selection, the board becomes that of the
    child. *)
Theorem selection_skips_last_row_and_column :
  calculateLegalMoves lastrow_board Black = Ok [(2, 0); (7, 7)] /\
  ai_turn MINIMAX_DEPTH lastrow_board Black = makeMove lastrow_board 2 0 Black /\
  ai_turn_claimed MINIMAX_DEPTH lastrow_board Black
  = makeMove lastrow_board 7 7 Black /\
  (exists b1 b2, makeMove lastrow_board 2 0 Black = Ok b1 /\
                 makeMove lastrow_board 7 7 Black = Ok b2 /\ b1 <> b2).
Proof.
  split; [vm_compute; reflexivity|].
  split; [vm_compute; reflexivity|].
  split; [vm_compute; reflexivity|].
  destruct (makeMove lastrow_board 2 0 Black) as [b1|] eqn:H1;
    [|by vm_compute in H1].
  destruct (makeMove lastrow_board 7 7 Black) as [b2|] eqn:H2;
    [|by vm_compute in H2].
  exists b1, b2. split; [done|]. split; [done|].
  vm_compute in H1, H2. injection H1 as <-. injection H2 as <-. done.
Qed.

(** * Further properties *)

(** ** [flip] and [makeMove] on any number of directions *)

Lemma endgame_board_wf : wf_board endgame_board.
Proof. split; [reflexivity | repeat constructor]. Qed.

Lemma cellAt_off_grid b r c : on_grid r c = false -> cellAt b r c = None.
Proof. unfold cellAt. by intros ->. Qed.

Lemma makeMove_Ok_on_grid b p r c b' :
  makeMove b r c p = Ok b' -> on_grid r c = true.
Proof.
  unfold makeMove, write. destruct (cellAt b r c) as [x|] eqn:E; [|done].
  intros _. by eapply cellAt_on_grid.
Qed.

(** X1.  On a board of eight rows of eight cells [makeMove] (and [flip],
    which it calls) stays inside the board exactly when the cell it is
    given is on the grid: for a cell on the grid it returns a board of the
    same shape, whatever the cell holds and whether or not the move is
    legal; for a cell off the grid the first statement, board[row][col] =
    player, writes outside the array. *)
Theorem makeMove_in_range (b : board) (p : player) (r c : Z) :
  wf_board b ->
  (on_grid r c = true -> exists b', makeMove b r c p = Ok b' /\ wf_board b') /\
  (on_grid r c = false -> makeMove b r c p = Fail OutOfBounds).
Proof.
  intros Hwf. split.
  - intros Hg. destruct (makeMove_spec b p r c Hwf Hg) as (b' & H & Hwf' & _).
    eauto.
  - intros Hg. unfold makeMove, write. by rewrite (cellAt_off_grid b r c Hg).
Qed.

Lemma makeMove_in_range_witness :
  wf_board initial_board /\
  (exists b', makeMove initial_board 2 3 Black = Ok b' /\ wf_board b') /\
  makeMove initial_board 3 8 Black = Fail OutOfBounds.
Proof.
  split; [exact initial_board_wf|].
  split.
  - exact (proj1 (makeMove_in_range initial_board Black 2 3 initial_board_wf)
             eq_refl).
  - exact (proj2 (makeMove_in_range initial_board Black 3 8 initial_board_wf)
             eq_refl).
Defined.

(** X2.  What [makeMove] does in general, with any number of capturing
    directions (none included): the cell (r, c) gets the mover's piece;
    every cell of every run of opposing pieces that starts next to (r, c)
    and is closed by a piece of the mover held the opponent's piece and now
    holds the mover's; every other cell is as it was. *)
Theorem makeMove_every_run (b : board) (p : player) (r c : Z) (b' : board) :
  wf_board b ->
  makeMove b r c p = Ok b' ->
  cellAt b' r c = Some (Disc p) /\
  (forall x, flipped_by b p r c surroundingPosDeltas x ->
     cellAt b x.1 x.2 = Some (Disc (swap_player p)) /\
     cellAt b' x.1 x.2 = Some (Disc p)) /\
  (forall r' c', (r', c') <> (r, c) ->
     ~ flipped_by b p r c surroundingPosDeltas (r', c') ->
     cellAt b' r' c' = cellAt b r' c').
Proof.
  intros Hwf Hm. pose proof (makeMove_Ok_on_grid _ _ _ _ _ Hm) as Hg.
  destruct (makeMove_spec b p r c Hwf Hg) as (b1 & H1 & _ & Hrc & Hfl & Hrest).
  rewrite Hm in H1. injection H1 as <-.
  split; [done|]. split; [|done].
  intros x Hx. split; [|by apply Hfl].
  destruct Hx as (d & k & i & _ & (_ & Hcells & _) & Hi & ->). simpl.
  by apply Hcells.
Qed.

Lemma makeMove_every_run_witness :
  exists b',
    makeMove initial_board 2 3 Black = Ok b' /\
    cellAt b' 2 3 = Some (Disc Black) /\
    cellAt b' 0 0 = cellAt initial_board 0 0.
Proof.
  destruct (makeMove initial_board 2 3 Black) as [b'|] eqn:Hm;
    [|by vm_compute in Hm].
  destruct (makeMove_every_run initial_board Black 2 3 b' initial_board_wf Hm)
    as (Hrc & _ & Hrest).
  exists b'. split; [reflexivity|]. split; [exact Hrc|].
  apply Hrest; [done|].
  intros (d & k & i & _ & (_ & Hcells & _) & Hi & [= Hr Hc]).
  specialize (Hcells i Hi). rewrite <- Hr, <- Hc in Hcells. discriminate Hcells.
Defined.

(* two boards with the same cells are the same board *)
Lemma board_ext b1 b2 :
  wf_board b1 -> wf_board b2 ->
  (forall r c, on_grid r c = true -> cellAt b1 r c = cellAt b2 r c) -> b1 = b2.
Proof.
  intros [Hl1 Hr1] [Hl2 Hr2] Hcells. apply list_eq. intros i.
  destruct (decide (i < 8)%nat) as [Hi|Hi].
  2:{ rewrite !(proj2 (lookup_ge_None _ _)); [done | lia | lia]. }
  destruct (lookup_lt_is_Some_2 b1 i) as [row1 E1]; [lia|].
  destruct (lookup_lt_is_Some_2 b2 i) as [row2 E2]; [lia|].
  rewrite E1, E2. f_equal.
  rewrite Forall_forall in Hr1, Hr2.
  pose proof (Hr1 row1 (list_elem_of_lookup_2 _ _ _ E1)) as L1.
  pose proof (Hr2 row2 (list_elem_of_lookup_2 _ _ _ E2)) as L2.
  apply list_eq. intros j.
  destruct (decide (j < 8)%nat) as [Hj|Hj].
  2:{ rewrite !(proj2 (lookup_ge_None _ _)); [done | lia | lia]. }
  assert (Hg : on_grid (Z.of_nat i) (Z.of_nat j) = true)
    by (apply on_grid_spec; lia).
  specialize (Hcells _ _ Hg). unfold cellAt in Hcells.
  rewrite Hg, !Nat2Z.id, E1, E2 in Hcells. exact Hcells.
Qed.

(* the rays from a cell in two directions meet in that cell only *)
Lemma rays_disjoint d d' i j r c :
  valid_dir d -> valid_dir d' -> 1 <= i -> 1 <= j ->
  (r + i * d.1, c + i * d.2) = (r + j * d'.1, c + j * d'.2) ->
  d = d' /\ i = j.
Proof.
  destruct d as [d0 d1], d' as [e0 e1]. unfold valid_dir. simpl.
  intros (H0 & H1 & Hnz) (G0 & G1 & Gnz) Hi Hj [= Hr Hc].
  assert (d0 = -1 \/ d0 = 0 \/ d0 = 1) as [-> | [-> | ->]] by lia;
    assert (d1 = -1 \/ d1 = 0 \/ d1 = 1) as [-> | [-> | ->]] by lia;
    assert (e0 = -1 \/ e0 = 0 \/ e0 = 1) as [-> | [-> | ->]] by lia;
    assert (e1 = -1 \/ e1 = 0 \/ e1 = 1) as [-> | [-> | ->]] by lia;
    try lia; split; (reflexivity || lia).
Qed.

Lemma ray_leaves_origin d i r c :
  valid_dir d -> 1 <= i -> (r + i * d.1, c + i * d.2) <> (r, c).
Proof.
  destruct d as [d0 d1]. unfold valid_dir. simpl.
  intros (H0 & H1 & Hnz) Hi [= Hr Hc]. nia.
Qed.

Lemma valid_dir_elem d : d ∈ surroundingPosDeltas -> valid_dir d.
Proof.
  intros Hd. pose proof surroundingPosDeltas_valid as Hv.
  rewrite Forall_forall in Hv. by apply Hv.
Qed.

Lemma flipped_by_dec b p r c x :
  wf_board b ->
  flipped_by b p r c surroundingPosDeltas x \/
  ~ flipped_by b p r c surroundingPosDeltas x.
Proof.
  intros Hwf.
  destruct (flip_dirs_spec b p r c surroundingPosDeltas Hwf
              surroundingPosDeltas_valid []) as (discs & _ & Hdiscs).
  destruct (decide (x ∈ discs)) as [Hin|Hin].
  - left. apply Hdiscs in Hin as [Hin|Hin]; [by apply elem_of_nil in Hin | done].
  - right. intros Hf. apply Hin, Hdiscs. by right.
Qed.

(* after a move on (r, c) no direction from (r, c) captures any more *)
Lemma makeMove_no_run_left b p r c b' x :
  wf_board b -> makeMove b r c p = Ok b' ->
  ~ flipped_by b' p r c surroundingPosDeltas x.
Proof.
  intros Hwf Hm. pose proof (makeMove_Ok_on_grid _ _ _ _ _ Hm) as Hg.
  destruct (makeMove_spec b p r c Hwf Hg) as (b1 & H1 & _ & Hrc & Hfl & Hrest).
  rewrite Hm in H1. injection H1 as <-.
  intros (d & k & i0 & Hd & Hrun & _). clear i0 x.
  pose proof (valid_dir_elem d Hd) as Hvd.
  destruct Hrun as (Hk & Hcells & Hend).
  (* the cells of the run were not turned over, so they are as in [b] *)
  assert (Hold : forall i, 1 <= i <= k ->
            ~ flipped_by b p r c surroundingPosDeltas
                (r + i * d.1, c + i * d.2)).
  { intros i Hi Hf. apply Hfl in Hf. simpl in Hf.
    rewrite (Hcells i Hi) in Hf. by destruct p. }
  assert (Hsame : forall i, 1 <= i <= k ->
            cellAt b (r + i * d.1) (c + i * d.2)
            = Some (Disc (swap_player p))).
  { intros i Hi. rewrite <- (Hrest _ _ (ray_leaves_origin d i r c Hvd
                                         ltac:(lia)) (Hold i Hi)).
    by apply Hcells. }
  apply (Hold 1); [lia|].
  destruct (flipped_by_dec b p r c (r + (k + 1) * d.1, c + (k + 1) * d.2) Hwf)
    as [Hf|Hnf].
  - (* the closing cell was turned over: by a run in this same direction *)
    destruct Hf as (d' & k' & j & Hd' & Hrun' & Hj & Heq).
    apply rays_disjoint in Heq as [<- <-];
      [|done|by apply valid_dir_elem|lia|lia].
    exists d, k', 1. split; [done|]. split; [done|]. split; [lia | done].
  - (* it was not: the run was there before the move *)
    exists d, k, 1. split; [done|]. split; [|split; [lia | done]].
    split; [done|]. split; [done|].
    rewrite <- (Hrest _ _ (ray_leaves_origin d (k + 1) r c Hvd ltac:(lia)) Hnf).
    done.
Qed.

(** X3.  Making the same move a second time changes nothing: on the board
    that [makeMove] returns, [flip] at the same cell for the same player
    turns no disc over, and [makeMove] returns that board again.  (The
    discs turned over lie on the rays from (r, c); after the move no ray
    holds a run of opposing pieces closed by the mover's.) *)
Theorem makeMove_twice (b : board) (p : player) (r c : Z) (b' : board) :
  wf_board b ->
  makeMove b r c p = Ok b' ->
  makeMove b' r c p = Ok b' /\ flip b' r c p = Ok b'.
Proof.
  intros Hwf Hm. pose proof (makeMove_Ok_on_grid _ _ _ _ _ Hm) as Hg.
  destruct (makeMove_spec b p r c Hwf Hg) as (b1 & H1 & Hwf' & Hrc & _).
  rewrite Hm in H1. injection H1 as <-.
  assert (Hmm : makeMove b' r c p = Ok b').
  { destruct (makeMove_spec b' p r c Hwf' Hg)
      as (b2 & H2 & Hwf2 & Hrc2 & _ & Hrest2).
    rewrite H2. f_equal. apply board_ext; try done.
    intros r' c' _. destruct (decide ((r', c') = (r, c))) as [[= -> ->]|Hne].
    - by rewrite Hrc, Hrc2.
    - apply Hrest2; [done|]. exact (makeMove_no_run_left b p r c b' _ Hwf Hm). }
  split; [done|].
  (* writing the mover's piece on (r, c) again does nothing *)
  unfold makeMove in Hmm.
  destruct (write_spec b' r c (Disc p) Hwf' Hg) as (b1 & Hw & Hwf1 & H1).
  rewrite Hw in Hmm. simpl in Hmm.
  assert (b1 = b') as ->; [|done].
  apply board_ext; try done. intros r' c' _. rewrite H1.
  destruct (decide _) as [[= -> ->]|]; done.
Qed.

Lemma makeMove_twice_witness :
  exists b', makeMove initial_board 2 3 Black = Ok b' /\
             makeMove b' 2 3 Black = Ok b'.
Proof.
  destruct (makeMove initial_board 2 3 Black) as [b'|] eqn:Hm;
    [|by vm_compute in Hm].
  exists b'. split; [reflexivity|].
  exact (proj1 (makeMove_twice initial_board Black 2 3 b' initial_board_wf Hm)).
Defined.

(** ** Counting the discs *)

Lemma score_scan_wf b p sq : forall total,
  wf_board b -> Forall (fun x : move => on_grid x.1 x.2 = true) sq ->
  score_scan b p sq total = Ok (total + pieces_on b p sq).
Proof.
  induction sq as [|[i j] sq IH]; intros total Hwf Hsq; simpl.
  - unfold pieces_on. simpl. f_equal. lia.
  - apply Forall_cons in Hsq as [Hg Hsq]. simpl in Hg.
    destruct (cellAt_wf b i j Hwf Hg) as [x Hx].
    rewrite (proj2 (read_Ok b i j x) Hx). simpl.
    rewrite pieces_on_cons. simpl. rewrite Hx.
    destruct (decide (x = Disc p)) as [->|Hne].
    + rewrite IH by done. destruct (decide _); [f_equal; lia | done].
    + rewrite IH by done. destruct (decide _) as [[= ?]|]; [done | f_equal; lia].
Qed.

Lemma squares_on_grid : Forall (fun x : move => on_grid x.1 x.2 = true) squares.
Proof. apply Forall_forall. intros [r c]. apply elem_of_squares. Qed.

(* on a board of eight rows of eight cells getScore is the number of the
   player's pieces *)
Lemma getScore_wf b p :
  wf_board b -> getScore b p = Ok (pieces_on b p squares).
Proof.
  intros Hwf. unfold getScore.
  rewrite (score_scan_wf b p squares 0 Hwf squares_on_grid). f_equal.
Qed.

Lemma squares_NoDup : NoDup squares.
Proof. apply (bool_decide_unpack _). vm_compute. reflexivity. Qed.

Lemma filter_eq_NoDup {A} `{EqDecision A} (x : A) (l : list A) :
  NoDup l -> x ∈ l -> length (filter (fun y => y = x) l) = 1%nat.
Proof.
  induction 1 as [|y l Hy Hl IH]; intros Hin; [by apply elem_of_nil in Hin|].
  rewrite filter_cons. destruct (decide (y = x)) as [->|Hne].
  - simpl. f_equal.
    destruct (filter (fun y => y = x) l) as [|z k] eqn:E; [done|].
    assert (Hz : z ∈ filter (fun y => y = x) l) by (rewrite E; left).
    apply list_elem_of_filter in Hz as [-> Hz]. done.
  - apply elem_of_cons in Hin as [->|Hin]; [done | by apply IH].
Qed.

Lemma pieces_on_nonneg b p sq : 0 <= pieces_on b p sq.
Proof. unfold pieces_on. lia. Qed.

(* the counts after a move on the empty cell (r, c), when every other cell
   is turned over for the mover or left as it was *)
Lemma pieces_on_after b b' p r c sq :
  cellAt b r c = Some Empty ->
  cellAt b' r c = Some (Disc p) ->
  (forall r' c', (r', c') <> (r, c) ->
     (cellAt b r' c' = Some (Disc (otherPlayer p)) /\
      cellAt b' r' c' = Some (Disc p)) \/
     cellAt b' r' c' = cellAt b r' c') ->
  pieces_on b' p sq
  = pieces_on b p sq + Z.of_nat (length (filter (fun y => y = (r, c)) sq))
    + turned b b' p sq /\
  pieces_on b' (otherPlayer p) sq
  = pieces_on b (otherPlayer p) sq - turned b b' p sq.
Proof.
  intros Hempty Hrc Hcells.
  induction sq as [|[i j] sq [IH1 IH2]]; [done|].
  rewrite !pieces_on_cons, IH1, IH2. unfold turned.
  rewrite !filter_cons. simpl.
  destruct (decide ((i, j) = (r, c))) as [[= -> ->]|Hne].
  - rewrite Hempty, Hrc.
    repeat (destruct (decide _) as [?|?]); simpl length;
      first [lia | exfalso; pose proof (otherPlayer_swap_player p);
                   destruct p; simpl in *; intuition congruence].
  - destruct (Hcells i j Hne) as [[Hb Hb']|Hsame].
    + rewrite Hb, Hb'.
      repeat (destruct (decide _) as [?|?]); simpl length;
        first [lia | exfalso; pose proof (otherPlayer_swap_player p);
                     destruct p; simpl in *; intuition congruence].
    + rewrite Hsame.
      repeat (destruct (decide _) as [?|?]); simpl length;
        first [lia | exfalso; pose proof (otherPlayer_swap_player p);
                     destruct p; simpl in *; intuition congruence].
Qed.

(* a legal move adds the piece played and moves [k] >= 1 discs from the
   opponent to the mover *)
Lemma makeMove_counts b p r c b' :
  wf_board b -> legal_by_rule b p r c -> makeMove b r c p = Ok b' ->
  wf_board b' /\
  exists k, 1 <= k <= pieces_on b (otherPlayer p) squares /\
    pieces_on b' p squares = pieces_on b p squares + k + 1 /\
    pieces_on b' (otherPlayer p) squares
    = pieces_on b (otherPlayer p) squares - k.
Proof.
  intros Hwf [Hempty Hcap] Hm. apply cellAt_on_grid in Hempty as Hg.
  destruct (makeMove_spec b p r c Hwf Hg) as (b1 & H1 & Hwf' & Hrc & Hfl & Hrest).
  rewrite Hm in H1. injection H1 as <-. split; [done|].
  assert (Hcells : forall r' c', (r', c') <> (r, c) ->
    (cellAt b r' c' = Some (Disc (otherPlayer p)) /\
     cellAt b' r' c' = Some (Disc p)) \/
    cellAt b' r' c' = cellAt b r' c').
  { intros r' c' Hne.
    destruct (flipped_by_dec b p r c (r', c') Hwf) as [Hf|Hnf].
    - left. split; [|by apply (Hfl (r', c'))].
      destruct Hf as (d & k & i & _ & (_ & Hc & _) & Hi & [= -> ->]).
      rewrite otherPlayer_swap_player. by apply Hc.
    - right. by apply Hrest. }
  destruct (pieces_on_after b b' p r c squares Hempty Hrc Hcells) as [E1 E2].
  rewrite (filter_eq_NoDup (r, c) squares squares_NoDup) in E1
    by (by apply elem_of_squares).
  change (Z.of_nat 1) with 1 in E1.
  exists (turned b b' p squares). split; [|split; lia].
  split.
  - (* the first cell of a capturing run is turned over *)
    destruct Hcap as (d & Hd & k & Hrun).
    assert (Hf : flipped_by b p r c surroundingPosDeltas
                   (r + 1 * d.1, c + 1 * d.2)).
    { exists d, k, 1. pose proof Hrun as (Hk & _).
      split; [done|]. split; [done|]. split; [lia | done]. }
    pose proof Hrun as (Hk & Hc & _). specialize (Hc 1 ltac:(lia)).
    apply Hfl in Hf as Hb'. simpl in Hb'.
    unfold turned.
    assert (Hx : (r + 1 * d.1, c + 1 * d.2) ∈
      filter (fun x : move =>
        cellAt b x.1 x.2 = Some (Disc (otherPlayer p)) /\
        cellAt b' x.1 x.2 = Some (Disc p)) squares).
    { apply list_elem_of_filter. simpl. rewrite otherPlayer_swap_player.
      split; [done|]. apply elem_of_squares. by eapply cellAt_on_grid. }
    destruct (filter _ squares); [by apply elem_of_nil in Hx|].
    simpl length. lia.
  - pose proof (pieces_on_nonneg b' (otherPlayer p) squares). lia.
Qed.

(* a move on an empty cell adds the piece played and moves [k] discs from
   the opponent to the mover; some disc is turned exactly when the move is
   legal by the rule *)
Lemma makeMove_counts_empty b p r c :
  wf_board b -> cellAt b r c = Some Empty ->
  exists b' k, makeMove b r c p = Ok b' /\ wf_board b' /\
    0 <= k <= pieces_on b (otherPlayer p) squares /\
    (1 <= k <-> legal_by_rule b p r c) /\
    pieces_on b' p squares = pieces_on b p squares + k + 1 /\
    pieces_on b' (otherPlayer p) squares
    = pieces_on b (otherPlayer p) squares - k.
Proof.
  intros Hwf Hempty. apply cellAt_on_grid in Hempty as Hg.
  destruct (makeMove_spec b p r c Hwf Hg) as (b' & Hm & Hwf' & Hrc & Hfl & Hrest).
  exists b', (turned b b' p squares). split; [done|]. split; [done|].
  assert (Hcells : forall r' c', (r', c') <> (r, c) ->
    (cellAt b r' c' = Some (Disc (otherPlayer p)) /\
     cellAt b' r' c' = Some (Disc p)) \/
    cellAt b' r' c' = cellAt b r' c').
  { intros r' c' Hne.
    destruct (flipped_by_dec b p r c (r', c') Hwf) as [Hf|Hnf].
    - left. split; [|by apply (Hfl (r', c'))].
      destruct Hf as (d & k & i & _ & (_ & Hc & _) & Hi & [= -> ->]).
      rewrite otherPlayer_swap_player. by apply Hc.
    - right. by apply Hrest. }
  destruct (pieces_on_after b b' p r c squares Hempty Hrc Hcells) as [E1 E2].
  rewrite (filter_eq_NoDup (r, c) squares squares_NoDup) in E1
    by (by apply elem_of_squares).
  change (Z.of_nat 1) with 1 in E1.
  pose proof (pieces_on_nonneg b' (otherPlayer p) squares) as Hnn.
  split; [unfold turned in *; lia|]. split; [|split; lia].
  split.
  - (* a disc that is turned over lies on a capturing run *)
    intros Hk. split; [done|].
    unfold turned in Hk.
    destruct (filter _ squares) as [|[r' c'] l] eqn:E; [simpl in Hk; lia|].
    assert (Hx : (r', c') ∈ filter (fun x : move =>
        cellAt b x.1 x.2 = Some (Disc (otherPlayer p)) /\
        cellAt b' x.1 x.2 = Some (Disc p)) squares) by (rewrite E; left).
    apply list_elem_of_filter in Hx as [[Hb Hb'] _]. simpl in Hb, Hb'.
    assert (Hne : (r', c') <> (r, c)) by (intros [= -> ->]; congruence).
    destruct (flipped_by_dec b p r c (r', c') Hwf) as [Hf|Hnf].
    + destruct Hf as (d & k & i & Hd & Hrun & _). exists d.
      split; [done | by exists k].
    + rewrite (Hrest r' c' Hne Hnf), Hb in Hb'. destruct p; done.
  - intros Hl.
    destruct (makeMove_counts b p r c b' Hwf Hl Hm) as (_ & k & Hk & E1' & _).
    lia.
Qed.

(* a move on an empty cell adds one disc *)
Lemma empty_move_adds_a_disc b p r c b' :
  wf_board b -> cellAt b r c = Some Empty -> makeMove b r c p = Ok b' ->
  wf_board b' /\ discs b' = discs b + 1.
Proof.
  intros Hwf He Hm.
  destruct (makeMove_counts_empty b p r c Hwf He)
    as (b1 & k & Hm1 & Hwf' & _ & _ & E1 & E2).
  rewrite Hm in Hm1. injection Hm1 as <-. split; [done|].
  rewrite otherPlayer_swap_player in E2.
  unfold discs. destruct p; simpl in E2; lia.
Qed.

(** X4.  [makeMove] on an empty cell of the grid changes the two scores
    with the discs it turns over: with [k] >= 0 their number, [getScore] of
    the mover grows by k + 1 and [getScore] of the opponent falls by k, and
    k >= 1 exactly when the move is legal by the capture rule. *)
Theorem makeMove_scores (b : board) (p : player) (r c : Z) :
  wf_board b ->
  cellAt b r c = Some Empty ->
  exists b' n m k,
    makeMove b r c p = Ok b' /\
    getScore b p = Ok n /\ getScore b (otherPlayer p) = Ok m /\
    0 <= k <= m /\
    (1 <= k <-> legal_by_rule b p r c) /\
    getScore b' p = Ok (n + k + 1) /\
    getScore b' (otherPlayer p) = Ok (m - k).
Proof.
  intros Hwf He.
  destruct (makeMove_counts_empty b p r c Hwf He)
    as (b' & k & Hm & Hwf' & Hk & Hiff & E1 & E2).
  exists b', (pieces_on b p squares), (pieces_on b (otherPlayer p) squares), k.
  rewrite !getScore_wf by done. rewrite E1, E2. done.
Qed.

Lemma makeMove_scores_witness :
  exists b' n m k,
    makeMove initial_board 2 3 Black = Ok b' /\
    getScore initial_board Black = Ok n /\
    getScore initial_board (otherPlayer Black) = Ok m /\
    0 <= k <= m /\
    (1 <= k <-> legal_by_rule initial_board Black 2 3) /\
    getScore b' Black = Ok (n + k + 1) /\
    getScore b' (otherPlayer Black) = Ok (m - k).
Proof.
  assert (He : cellAt initial_board 2 3 = Some Empty) by reflexivity.
  exact (makeMove_scores initial_board Black 2 3 initial_board_wf He).
Defined.

(* [makeMove] changes a cell other than the one played exactly when some
   direction captures *)
Lemma flip_turns_iff_captures b p r c b' :
  wf_board b -> on_grid r c = true -> makeMove b r c p = Ok b' ->
  ((exists r' c', (r', c') <> (r, c) /\ cellAt b' r' c' <> cellAt b r' c') <->
   exists d, d ∈ surroundingPosDeltas /\ captures_in b p r c d).
Proof.
  intros Hwf Hg Hm.
  destruct (makeMove_spec b p r c Hwf Hg) as (b1 & Hm1 & _ & _ & Hfl & Hrest).
  rewrite Hm in Hm1. injection Hm1 as <-.
  split.
  - intros (r' & c' & Hne & Hch).
    destruct (flipped_by_dec b p r c (r', c') Hwf) as [Hfb|Hnf].
    + destruct Hfb as (d & k & i & Hd & Hrun & _). exists d.
      split; [done | by exists k].
    + destruct Hch. by apply Hrest.
  - intros (d & Hd & k & Hrun).
    pose proof Hrun as (Hk & Hcells & _).
    exists (r + 1 * d.1), (c + 1 * d.2).
    split; [apply ray_leaves_origin; [by apply valid_dir_elem | lia]|].
    assert (Hx : flipped_by b p r c surroundingPosDeltas
                   (r + 1 * d.1, c + 1 * d.2)).
    { exists d, k, 1. split; [done|]. split; [done|]. split; [lia | done]. }
    apply Hfl in Hx. simpl in Hx. rewrite Hx, (Hcells 1) by lia.
    by destruct p.
Qed.

(** ** Colour swap and the moves *)

Lemma write_colorSwap b r c v :
  write (colorSwap b) r c (swap_cell v) = colorSwap <$> write b r c v.
Proof.
  unfold write. rewrite cellAt_colorSwap.
  destruct (cellAt b r c) as [x|]; simpl; [|done]. f_equal.
  unfold colorSwap.
  change (map (map swap_cell) ?l) with ((fmap (M := list) swap_cell) <$> l).
  symmetry. apply list_fmap_alter. apply Forall_forall. intros row _.
  apply list_fmap_insert.
Qed.

Lemma collect_colorSwap fuel b other d0 d1 : forall r c ch acc,
  collect fuel (colorSwap b) (swap_cell other) d0 d1 r c (swap_cell ch) acc
  = collect fuel b other d0 d1 r c ch acc.
Proof.
  induction fuel as [|fuel IH]; intros r c ch acc; simpl.
  - destruct (decide (swap_cell ch = swap_cell other)) as [H|H],
      (decide (ch = other)) as [H'|H']; try done;
      rewrite swap_cell_inj in H; done.
  - destruct (decide (swap_cell ch = swap_cell other)) as [H|H],
      (decide (ch = other)) as [H'|H']; try done;
      try (rewrite swap_cell_inj in H; done).
    rewrite read_colorSwap.
    destruct (read b (r + d0) (c + d1)) as [x|e]; simpl; [apply IH | done].
Qed.

Lemma flip_dirs_colorSwap b row col p ds : forall acc,
  flip_dirs (colorSwap b) row col (swap_player p) ds acc
  = flip_dirs b row col p ds acc.
Proof.
  induction ds as [|[d0 d1] ds IH]; intros acc; simpl; [done|].
  destruct (off_board (row + d0) (col + d1)); [done|].
  rewrite read_colorSwap.
  destruct (read b (row + d0) (col + d1)) as [x|e] eqn:Hx; simpl; [|done].
  rewrite otherPlayer_swap.
  change (Disc (swap_player (otherPlayer p)))
    with (swap_cell (Disc (otherPlayer p))).
  destruct (decide (swap_cell x = swap_cell (Disc (otherPlayer p)))) as [H|H],
    (decide (x = Disc (otherPlayer p))) as [H'|H']; try done;
    try (rewrite swap_cell_inj in H; done).
  rewrite walk_colorSwap.
  destruct (walk off_board walk_fuel b (Disc (otherPlayer p))
              d0 d1 (row + d0) (col + d1) x) as [y|e]; simpl; [|done].
  change (Disc (swap_player p)) with (swap_cell (Disc p)).
  destruct (decide (swap_cell y = swap_cell (Disc p))) as [G|G],
    (decide (y = Disc p)) as [G'|G']; try done;
    try (rewrite swap_cell_inj in G; done).
  simpl.
  change (Disc (swap_player (otherPlayer p)))
    with (swap_cell (Disc (otherPlayer p))).
  rewrite collect_colorSwap.
  destruct (collect walk_fuel b (Disc (otherPlayer p)) d0 d1
              (row + d0) (col + d1) x acc); simpl; done.
Qed.

Lemma paint_colorSwap p discs : forall b,
  paint (colorSwap b) (swap_player p) discs = colorSwap <$> paint b p discs.
Proof.
  induction discs as [|[r c] discs IH]; intros b; simpl; [done|].
  change (Disc (swap_player p)) with (swap_cell (Disc p)).
  rewrite write_colorSwap.
  destruct (write b r c (Disc p)) as [b1|e]; simpl; [apply IH | done].
Qed.

Lemma flip_colorSwap b r c p :
  flip (colorSwap b) r c (swap_player p) = colorSwap <$> flip b r c p.
Proof.
  unfold flip. rewrite flip_dirs_colorSwap.
  destruct (flip_dirs b r c p surroundingPosDeltas []) as [discs|e];
    [apply paint_colorSwap | reflexivity].
Qed.

Lemma makeMove_colorSwap b r c p :
  makeMove (colorSwap b) r c (swap_player p) = colorSwap <$> makeMove b r c p.
Proof.
  unfold makeMove.
  change (Disc (swap_player p)) with (swap_cell (Disc p)).
  rewrite write_colorSwap.
  destruct (write b r c (Disc p)) as [b1|e];
    [apply flip_colorSwap | reflexivity].
Qed.

(** X6.  The rules do not depend on the colour: on the board with the two
    colours exchanged, the player of the other colour has the same list of
    legal moves (computed with the same out-of-range accesses, if any), and
    [makeMove] of a cell gives the colour-swapped result. *)
Theorem moves_colorSwap (b : board) (r c : Z) (p : player) :
  calculateLegalMoves (colorSwap b) (swap_player p) = calculateLegalMoves b p /\
  isFlippable (colorSwap b) r c (swap_player p) = isFlippable b r c p /\
  makeMove (colorSwap b) r c (swap_player p) = colorSwap <$> makeMove b r c p.
Proof.
  split; [apply calculateLegalMoves_colorSwap|].
  split; [apply isFlippable_colorSwap | apply makeMove_colorSwap].
Qed.

(** ** The list of legal moves, when it is computed *)

(** X7.  Whenever [calculateLegalMoves] returns (no walk of [isFlippable]
    has read outside the board), its list is the list of the capture rule:
    a cell is in it exactly when it is empty and some direction holds a run
    of opposing pieces closed by a piece of the mover; the moves are in
    row-major order and none occurs twice. *)
Theorem calculateLegalMoves_when_it_returns (b : board) (p : player)
    (l : list move) :
  calculateLegalMoves b p = Ok l ->
  (forall r c, (r, c) ∈ l <-> legal_by_rule b p r c) /\
  sublist l squares /\ NoDup l.
Proof.
  intros H. split; [by apply calculateLegalMoves_spec|].
  pose proof (calculateLegalMoves_sublist b p l H) as Hs.
  split; [done|]. eapply sublist_NoDup; [apply squares_NoDup | exact Hs].
Qed.

Lemma calculateLegalMoves_when_it_returns_witness :
  calculateLegalMoves initial_board Black = Ok [(2, 3); (3, 2); (4, 5); (5, 4)] /\
  legal_by_rule initial_board Black 2 3 /\
  NoDup [(2, 3); (3, 2); (4, 5); (5, 4)].
Proof.
  assert (H : calculateLegalMoves initial_board Black
              = Ok [(2, 3); (3, 2); (4, 5); (5, 4)]) by (vm_compute; reflexivity).
  destruct (calculateLegalMoves_when_it_returns initial_board Black _ H)
    as (Hrule & _ & Hnd).
  split; [exact H|]. split; [|exact Hnd].
  apply Hrule. apply list_elem_of_here.
Defined.

(* the walk of isFlippable stays on the board when the opponent has no
   piece in column 0: it only steps on from a cell of the opponent *)
Lemma walk_144_safe b other d0 d1 fuel : forall r c ch,
  wf_board b -> valid_dir (d0, d1) ->
  (forall r', cellAt b r' 0 <> Some other) ->
  on_grid r c = true -> cellAt b r c = Some ch ->
  steps_left d0 d1 r c <= Z.of_nat fuel ->
  exists y, walk off_board_144 fuel b other d0 d1 r c ch = Ok y.
Proof.
  induction fuel as [|fuel IH]; intros r c ch Hwf Hd Hcol Hg Hch Hfuel; simpl.
  - pose proof (steps_left_pos d0 d1 r c Hg). lia.
  - destruct (decide (ch = other)) as [->|]; [|eauto].
    destruct (off_board_144 (r + d0) (c + d1)) eqn:Hoff; [eauto|].
    assert (Hg' : on_grid (r + d0) (c + d1) = true).
    { apply on_grid_spec in Hg. apply on_grid_spec.
      unfold off_board_144 in Hoff.
      rewrite !orb_false_iff, Z.gtb_ltb, !Z.ltb_ge in Hoff.
      assert (c <> 0) by (intros ->; by apply (Hcol r)).
      destruct Hd as (? & ? & _). simpl in *. lia. }
    destruct (cellAt_wf b _ _ Hwf Hg') as [x Hx].
    rewrite (proj2 (read_Ok _ _ _ _) Hx). simpl.
    apply IH; try done. rewrite steps_left_step by done. lia.
Qed.

Lemma isFlippable_dirs_safe b p r c ds :
  wf_board b -> Forall valid_dir ds ->
  (forall r', cellAt b r' 0 <> Some (Disc (otherPlayer p))) ->
  exists f, isFlippable_dirs b r c p ds = Ok f.
Proof.
  intros Hwf Hds Hcol.
  induction Hds as [|[d0 d1] ds Hd Hds IH]; simpl; [eauto|].
  destruct (off_board (r + d0) (c + d1)) eqn:Hoff; [done|].
  destruct (read_wf b _ _ Hwf Hoff) as [ch Hch]. rewrite Hch. simpl.
  destruct (decide (ch = Disc (otherPlayer p))) as [->|]; [|done].
  apply read_Ok in Hch.
  pose proof (cellAt_on_grid _ _ _ _ Hch) as Hg.
  destruct (walk_144_safe b (Disc (otherPlayer p)) d0 d1 walk_fuel
              (r + d0) (c + d1) (Disc (otherPlayer p)) Hwf Hd Hcol Hg Hch)
    as [y Hy].
  { pose proof (steps_left_pos d0 d1 _ _ Hg). rewrite walk_fuel_eq. lia. }
  rewrite Hy. simpl. destruct (decide (y = Disc p)); eauto.
Qed.

Lemma legal_scan_safe b p sq : forall acc,
  wf_board b -> Forall (fun x : move => on_grid x.1 x.2 = true) sq ->
  (forall r', cellAt b r' 0 <> Some (Disc (otherPlayer p))) ->
  exists l, legal_scan b p sq acc = Ok l.
Proof.
  intros acc Hwf Hsq Hcol. revert acc.
  induction Hsq as [|[i j] sq Hg Hsq IH]; intros acc; simpl; [eauto|].
  simpl in Hg. destruct (cellAt_wf b i j Hwf Hg) as [x Hx].
  rewrite (proj2 (read_Ok b i j x) Hx). simpl.
  destruct (decide (x = Empty)); [|done].
  destruct (isFlippable_dirs_safe b p i j surroundingPosDeltas Hwf
              surroundingPosDeltas_valid Hcol) as [f Hf].
  unfold isFlippable. rewrite Hf. simpl. destruct f; done.
Qed.

(** X8.  The out-of-range read of [isFlippable] (line 148, after the test
    of line 144) needs a piece of the opponent in column 0: on a board on
    which the opponent of the mover has no piece in column 0,
    [calculateLegalMoves] stays inside the board and returns exactly the
    moves of the capture rule. *)
Theorem calculateLegalMoves_returns (b : board) (p : player) :
  wf_board b ->
  (forall r, cellAt b r 0 <> Some (Disc (otherPlayer p))) ->
  legal_moves_as_specified b p.
Proof.
  intros Hwf Hcol.
  destruct (legal_scan_safe b p squares [] Hwf squares_on_grid Hcol) as [l Hl].
  exists l. split; [done|]. intros r c _ _.
  by apply calculateLegalMoves_spec.
Qed.

Lemma calculateLegalMoves_returns_witness :
  legal_moves_as_specified initial_board Black.
Proof.
  apply (calculateLegalMoves_returns initial_board Black initial_board_wf).
  intros r H. apply cellAt_on_grid in H as Hg. apply on_grid_spec in Hg.
  assert (r = 0 \/ r = 1 \/ r = 2 \/ r = 3 \/ r = 4 \/ r = 5 \/ r = 6 \/ r = 7)
    as Hr by lia.
  destruct Hr as [-> | [-> | [-> | [-> | [-> | [-> | [-> | ->]]]]]]];
    discriminate H.
Defined.

(** ** [isGameOver] *)

Lemma legal_scan_no_empty b p sq acc :
  wf_board b -> Forall (fun x : move => on_grid x.1 x.2 = true) sq ->
  (forall r c, cellAt b r c <> Some Empty) ->
  legal_scan b p sq acc = Ok acc.
Proof.
  intros Hwf Hsq Hfull. induction Hsq as [|[i j] sq Hg Hsq IH]; simpl; [done|].
  simpl in Hg. destruct (cellAt_wf b i j Hwf Hg) as [x Hx].
  rewrite (proj2 (read_Ok b i j x) Hx). simpl.
  destruct (decide (x = Empty)) as [->|Hne]; [|done].
  by destruct (Hfull i j).
Qed.

(** X11.  On a board without an empty cell no walk is started:
    [calculateLegalMoves] returns the empty list for either player and
    [isGameOver] returns true, whatever the pieces are. *)
Theorem full_board_is_game_over (b : board) :
  wf_board b ->
  (forall r c, cellAt b r c <> Some Empty) ->
  (forall p, calculateLegalMoves b p = Ok []) /\ isGameOver b = Ok true.
Proof.
  intros Hwf Hfull.
  assert (Hno : forall p, calculateLegalMoves b p = Ok []).
  { intros p. by apply legal_scan_no_empty; [|apply squares_on_grid|]. }
  split; [done|].
  unfold isGameOver, getBlackLegalMoves, getWhiteLegalMoves.
  by rewrite !Hno.
Qed.

Lemma full_board_is_game_over_witness :
  wf_board full_black /\ isGameOver full_black = Ok true.
Proof.
  assert (Hwf : wf_board full_black)
    by (split; [reflexivity | repeat constructor]).
  assert (Hfull : forall r c, cellAt full_black r c <> Some Empty).
  { intros r c H. apply cellAt_on_grid in H as Hg. apply on_grid_spec in Hg.
    assert (r = 0 \/ r = 1 \/ r = 2 \/ r = 3 \/ r = 4 \/ r = 5 \/ r = 6 \/ r = 7)
      as Hr by lia.
    assert (c = 0 \/ c = 1 \/ c = 2 \/ c = 3 \/ c = 4 \/ c = 5 \/ c = 6 \/ c = 7)
      as Hc by lia.
    destruct Hr as [-> | [-> | [-> | [-> | [-> | [-> | [-> | ->]]]]]]];
      destruct Hc as [-> | [-> | [-> | [-> | [-> | [-> | [-> | ->]]]]]]];
      discriminate H. }
  split; [exact Hwf|].
  exact (proj2 (full_board_is_game_over full_black Hwf Hfull)).
Defined.

(** ** The scores and the range of the heuristic *)

Lemma pieces_on_both b sq :
  pieces_on b Black sq + pieces_on b White sq <= Z.of_nat (length sq) /\
  (pieces_on b Black sq + pieces_on b White sq = Z.of_nat (length sq) ->
   forall x, x ∈ sq -> cellAt b x.1 x.2 <> Some Empty).
Proof.
  induction sq as [|[i j] sq [IH1 IH2]].
  - split; [done|]. intros _ x Hx. by apply elem_of_nil in Hx.
  - rewrite !pieces_on_cons. simpl.
    pose proof (pieces_on_nonneg b Black sq).
    pose proof (pieces_on_nonneg b White sq).
    destruct (decide (cellAt b i j = Some (Disc Black))) as [E|E];
      destruct (decide (cellAt b i j = Some (Disc White))) as [E'|E'];
      try congruence; (split; [lia|]); intros Hsum x Hx;
      (apply elem_of_cons in Hx as [->|Hx];
         [simpl; congruence | apply IH2; [lia | done]]) || lia.
Qed.

(** X12.  On a board of eight rows of eight cells [getScore] returns for
    both colours; the two scores are not negative and add up to at most 64,
    and to 64 only when no cell is empty. *)
Theorem getScore_both (b : board) :
  wf_board b ->
  exists nb nw,
    getScore b Black = Ok nb /\ getScore b White = Ok nw /\
    0 <= nb /\ 0 <= nw /\ nb + nw <= 64 /\
    (nb + nw = 64 -> forall r c, cellAt b r c <> Some Empty).
Proof.
  intros Hwf. exists (pieces_on b Black squares), (pieces_on b White squares).
  rewrite !getScore_wf by done.
  destruct (pieces_on_both b squares) as [Hle Hfull].
  rewrite squares_length in Hle, Hfull.
  repeat split; try apply pieces_on_nonneg; try lia.
  intros Hsum r c He. apply (Hfull Hsum (r, c)); [|done].
  apply elem_of_squares. by eapply cellAt_on_grid.
Qed.

Lemma getScore_both_witness :
  exists nb nw,
    getScore initial_board Black = Ok nb /\ getScore initial_board White = Ok nw /\
    0 <= nb /\ 0 <= nw /\ nb + nw <= 64.
Proof.
  destruct (getScore_both initial_board initial_board_wf)
    as (nb & nw & H1 & H2 & H3 & H4 & H5 & _).
  by exists nb, nw.
Defined.

(* a legal move is on an empty cell and a piece is not: the moves of one
   player and the pieces of a player together are at most the cells *)
Lemma moves_and_pieces b p q sq : forall acc l total n,
  legal_scan b p sq acc = Ok l -> score_scan b q sq total = Ok n ->
  Z.of_nat (length l) - Z.of_nat (length acc) + (n - total)
  <= Z.of_nat (length sq) /\ total <= n /\ (length acc <= length l)%nat.
Proof.
  induction sq as [|[i j] sq IH]; intros acc l total n; simpl.
  - intros [= <-] [= <-]. lia.
  - intros H G. inv_bind H. inv_bind G. rewrite Ha in Ha0. injection Ha0 as <-.
    destruct (decide (a = Empty)) as [->|Hne].
    + destruct (decide (Empty = Disc q)); [done|].
      inv_bind H. destruct a.
      * destruct (IH _ _ _ _ H G) as (? & ? & ?). rewrite length_app in *.
        simpl in *. lia.
      * destruct (IH _ _ _ _ H G) as (? & ? & ?). lia.
    + destruct (decide (a = Disc q));
        destruct (IH _ _ _ _ H G) as (? & ? & ?); lia.
Qed.

(* the two totals of the heuristic *)
Lemma heuristic_parts b h :
  heuristic b = Ok h ->
  exists b_total w_total,
    h = b_total - w_total /\ 0 <= b_total <= 104 /\ 0 <= w_total <= 104.
Proof.
  unfold heuristic, getBlackLegalMoves, getWhiteLegalMoves, getScore,
    calculateLegalMoves. intros H.
  inv_bind H. inv_bind H. inv_bind H. inv_bind H.
  destruct (moves_and_pieces _ _ _ _ _ _ _ _ Ha Ha1) as (Hb & Hb1 & _).
  destruct (moves_and_pieces _ _ _ _ _ _ _ _ Ha0 Ha2) as (Hw & Hw1 & _).
  rewrite squares_length in Hb, Hw. simpl in Hb, Hw.
  inv_bind H. destruct a3 as [x1 y1]. apply corner_bounds in Ha3.
  inv_bind H. destruct a3 as [x2 y2]. apply corner_bounds in Ha4.
  inv_bind H. destruct a3 as [x3 y3]. apply corner_bounds in Ha5.
  inv_bind H. destruct a3 as [x4 y4]. apply corner_bounds in Ha6.
  injection H as <-. simpl. exists x4, y4. lia.
Qed.

(** X13.  The heuristic lies between -104 and 104: the legal moves of a
    player are on empty cells and the pieces are not, so the moves and the
    pieces of one player are at most 64 together, and the four corners add
    at most 40.  The bound is reached on the board full of black pieces. *)
Theorem heuristic_range (b : board) (h : Z) :
  heuristic b = Ok h -> -104 <= h <= 104.
Proof.
  intros H. destruct (heuristic_parts b h H) as (bt & wt & -> & Hb & Hw). lia.
Qed.

Lemma heuristic_range_witness :
  heuristic full_black = Ok 104 /\ -104 <= 104 <= 104.
Proof.
  assert (H : heuristic full_black = Ok 104) by (vm_compute; reflexivity).
  split; [exact H|]. exact (heuristic_range full_black 104 H).
Defined.

(** ** The values of the searches *)

Lemma heuristic_search_value b h : heuristic b = Ok h -> search_value h.
Proof.
  intros H. destruct (heuristic_parts b h H) as (bt & wt & -> & Hb & Hw).
  left. lia.
Qed.

Lemma max_loop_value e d beta cs :
  Forall pruned_value cs ->
  forall todo alpha M r kids,
    search_value M ->
    max_loop minimax e d beta cs todo alpha M = Ok (r, kids) -> search_value r.
Proof.
  induction 1 as [|c cs Hc Hcs IH]; intros todo alpha M r kids HM H;
    destruct todo as [|todo]; simpl in H; try (by injection H as <- <-);
    try discriminate.
  inv_bind H. destruct a as [ev c']. apply Hc in Ha.
  assert (search_value (Z.max M ev)) by (unfold search_value in *; lia).
  destruct (beta <=? Z.max alpha ev); [by injection H as <- <-|].
  inv_bind H. destruct a as [m cs'']. injection H as <- <-. eauto.
Qed.

Lemma min_loop_value e d alpha cs :
  Forall pruned_value cs ->
  forall todo beta M r kids,
    search_value M ->
    min_loop minimax e d alpha cs todo beta M = Ok (r, kids) -> search_value r.
Proof.
  induction 1 as [|c cs Hc Hcs IH]; intros todo beta M r kids HM H;
    destruct todo as [|todo]; simpl in H; try (by injection H as <- <-);
    try discriminate.
  inv_bind H. destruct a as [ev c']. apply Hc in Ha.
  assert (search_value (Z.min M ev)) by (unfold search_value in *; lia).
  destruct (Z.min beta ev <=? alpha); [by injection H as <- <-|].
  inv_bind H. destruct a as [m cs'']. injection H as <- <-. eauto.
Qed.

Lemma plain_max_loop_value e d cs :
  Forall plain_value cs ->
  forall todo M r kids,
    search_value M ->
    plain_max_loop minimax_plain e d cs todo M = Ok (r, kids) -> search_value r.
Proof.
  induction 1 as [|c cs Hc Hcs IH]; intros todo M r kids HM H;
    destruct todo as [|todo]; simpl in H; try (by injection H as <- <-);
    try discriminate.
  inv_bind H. destruct a as [ev c']. apply Hc in Ha.
  assert (search_value (Z.max M ev)) by (unfold search_value in *; lia).
  inv_bind H. destruct a as [m cs'']. injection H as <- <-. eauto.
Qed.

Lemma plain_min_loop_value e d cs :
  Forall plain_value cs ->
  forall todo M r kids,
    search_value M ->
    plain_min_loop minimax_plain e d cs todo M = Ok (r, kids) -> search_value r.
Proof.
  induction 1 as [|c cs Hc Hcs IH]; intros todo M r kids HM H;
    destruct todo as [|todo]; simpl in H; try (by injection H as <- <-);
    try discriminate.
  inv_bind H. destruct a as [ev c']. apply Hc in Ha.
  assert (search_value (Z.min M ev)) by (unfold search_value in *; lia).
  inv_bind H. destruct a as [m cs'']. injection H as <- <-. eauto.
Qed.

Lemma minimax_pruned_value t : pruned_value t.
Proof.
  induction t as [t IH] using Node_ind. intros d alpha beta m v t'.
  rewrite minimax_eq. intros H. inv_bind H. destruct a.
  - inv_bind H. injection H as <- <-. by eapply heuristic_search_value.
  - destruct m; inv_bind H; destruct a as [r kids]; injection H as <- <-.
    + eapply max_loop_value; eauto. right. by left.
    + eapply min_loop_value; eauto. right. by right.
Qed.

Lemma minimax_plain_value t : plain_value t.
Proof.
  induction t as [t IH] using Node_ind. intros d m v t'.
  rewrite minimax_plain_eq. intros H. inv_bind H. destruct a.
  - inv_bind H. injection H as <- <-. by eapply heuristic_search_value.
  - destruct m; inv_bind H; destruct a as [r kids]; injection H as <- <-.
    + eapply plain_max_loop_value; eauto. right. by left.
    + eapply plain_min_loop_value; eauto. right. by right.
Qed.

(** X14.  A value returned by either search, on any tree, with any depth
    and window, is a value of the heuristic (between -104 and 104) or one
    of the two values with which the loops start, -9999999 and 9999999; so
    it lies strictly inside the window (-99999999, 99999999) of main. *)
Theorem search_values (t : Node) (d : Z) (m : bool) (v : Z) :
  ((exists alpha beta t', minimax t d alpha beta m = Ok (v, t')) \/
   (exists t', minimax_plain t d m = Ok (v, t'))) ->
  (-104 <= v <= 104 \/ v = -9999999 \/ v = 9999999) /\
  -99999999 < v < 99999999.
Proof.
  intros H.
  assert (Hv : search_value v).
  { destruct H as [(alpha & beta & t' & H)|(t' & H)].
    - exact (minimax_pruned_value t _ _ _ _ _ _ H).
    - exact (minimax_plain_value t _ _ _ _ H). }
  split; [exact Hv|]. unfold search_value in Hv. lia.
Qed.

Lemma search_values_witness :
  minimax_plain opening_tree 2 true = Ok (-1, opening_searched) /\
  (-104 <= -1 <= 104 \/ -1 = -9999999 \/ -1 = 9999999).
Proof.
  assert (H : minimax_plain opening_tree 2 true = Ok (-1, opening_searched))
    by (vm_compute; reflexivity).
  split; [exact H|].
  exact (proj1 (search_values opening_tree 2 true (-1)
                  (or_intror (ex_intro _ opening_searched H)))).
Defined.

(** X15.  Alpha-beta with any window alpha < beta, on any tree: where the
    search without pruning returns [v], the pruned search returns too, and
    its value [r] is [v] when [v] lies strictly inside the window, at most
    alpha when [v] is at most alpha, and at least beta when [v] is at least
    beta. *)
Theorem alpha_beta_window (t : Node) (d alpha beta : Z) (m : bool) (v : Z)
    (tp : Node) :
  alpha < beta ->
  minimax_plain t d m = Ok (v, tp) ->
  exists r ta,
    minimax t d alpha beta m = Ok (r, ta) /\
    (v <= alpha -> r <= alpha) /\
    (beta <= v -> beta <= r) /\
    (alpha < v < beta -> r = v).
Proof.
  intros Hab H.
  destruct (minimax_pruning_sound t d alpha beta m v tp Hab H)
    as (r & ta & Hr & Hlow & Hhigh & Heq).
  exists r, ta. repeat split; assumption.
Qed.

Lemma alpha_beta_window_witness :
  exists r ta,
    minimax opening_tree 2 (-3) 5 true = Ok (r, ta) /\
    (-3 < -1 < 5 -> r = -1).
Proof.
  assert (H : minimax_plain opening_tree 2 true = Ok (-1, opening_searched))
    by (vm_compute; reflexivity).
  assert (Hab : -3 < 5) by lia.
  destruct (alpha_beta_window opening_tree 2 (-3) 5 true (-1) opening_searched
              Hab H) as (r & ta & Hr & _ & _ & Heq).
  by exists r, ta.
Defined.

(** ** What a search leaves of the tree *)

Lemma forget_val_store t kids r :
  map forget_val kids = map forget_val (kids_of t) ->
  forget_val (store t kids r) = forget_val t.
Proof.
  destruct t as [[cs|] cc ml st v]; unfold store, kids_of; simpl; [|done].
  by intros ->.
Qed.

Lemma max_loop_only_val e d beta cs :
  Forall only_val_pruned cs ->
  forall todo alpha M r kids,
    max_loop minimax e d beta cs todo alpha M = Ok (r, kids) ->
    map forget_val kids = map forget_val cs.
Proof.
  induction 1 as [|c cs Hc Hcs IH]; intros todo alpha M r kids H;
    destruct todo as [|todo]; simpl in H; try (by injection H as <- <-);
    try discriminate.
  inv_bind H. destruct a as [ev c']. apply Hc in Ha.
  destruct (beta <=? Z.max alpha ev).
  - injection H as <- <-. simpl. by rewrite Ha.
  - inv_bind H. destruct a as [m cs'']. injection H as <- <-.
    simpl. rewrite Ha. f_equal. eauto.
Qed.

Lemma min_loop_only_val e d alpha cs :
  Forall only_val_pruned cs ->
  forall todo beta M r kids,
    min_loop minimax e d alpha cs todo beta M = Ok (r, kids) ->
    map forget_val kids = map forget_val cs.
Proof.
  induction 1 as [|c cs Hc Hcs IH]; intros todo beta M r kids H;
    destruct todo as [|todo]; simpl in H; try (by injection H as <- <-);
    try discriminate.
  inv_bind H. destruct a as [ev c']. apply Hc in Ha.
  destruct (Z.min beta ev <=? alpha).
  - injection H as <- <-. simpl. by rewrite Ha.
  - inv_bind H. destruct a as [m cs'']. injection H as <- <-.
    simpl. rewrite Ha. f_equal. eauto.
Qed.

Lemma plain_max_loop_only_val e d cs :
  Forall only_val_plain cs ->
  forall todo M r kids,
    plain_max_loop minimax_plain e d cs todo M = Ok (r, kids) ->
    map forget_val kids = map forget_val cs.
Proof.
  induction 1 as [|c cs Hc Hcs IH]; intros todo M r kids H;
    destruct todo as [|todo]; simpl in H; try (by injection H as <- <-);
    try discriminate.
  inv_bind H. destruct a as [ev c']. apply Hc in Ha.
  inv_bind H. destruct a as [m cs'']. injection H as <- <-.
  simpl. rewrite Ha. f_equal. eauto.
Qed.

Lemma plain_min_loop_only_val e d cs :
  Forall only_val_plain cs ->
  forall todo M r kids,
    plain_min_loop minimax_plain e d cs todo M = Ok (r, kids) ->
    map forget_val kids = map forget_val cs.
Proof.
  induction 1 as [|c cs Hc Hcs IH]; intros todo M r kids H;
    destruct todo as [|todo]; simpl in H; try (by injection H as <- <-);
    try discriminate.
  inv_bind H. destruct a as [ev c']. apply Hc in Ha.
  inv_bind H. destruct a as [m cs'']. injection H as <- <-.
  simpl. rewrite Ha. f_equal. eauto.
Qed.

Lemma minimax_only_val t : only_val_pruned t.
Proof.
  induction t as [t IH] using Node_ind. intros d alpha beta m v t'.
  rewrite minimax_eq. intros H. inv_bind H. destruct a.
  - inv_bind H. by injection H as <- <-.
  - destruct m; inv_bind H; destruct a as [r kids]; injection H as <- <-;
      apply forget_val_store.
    + eapply max_loop_only_val; eauto.
    + eapply min_loop_only_val; eauto.
Qed.

Lemma minimax_plain_only_val t : only_val_plain t.
Proof.
  induction t as [t IH] using Node_ind. intros d m v t'.
  rewrite minimax_plain_eq. intros H. inv_bind H. destruct a.
  - inv_bind H. by injection H as <- <-.
  - destruct m; inv_bind H; destruct a as [r kids]; injection H as <- <-;
      apply forget_val_store.
    + eapply plain_max_loop_only_val; eauto.
    + eapply plain_min_loop_only_val; eauto.
Qed.

(** X16.  A search writes val fields and nothing else: the tree that
    either search returns is the tree it was given in its boards, its move
    lists, its child counts and its shape; the two differ in val fields
    only. *)
Theorem search_writes_only_val (t : Node) (d : Z) (m : bool) (v : Z)
    (t' : Node) :
  ((exists alpha beta, minimax t d alpha beta m = Ok (v, t')) \/
   minimax_plain t d m = Ok (v, t')) ->
  forget_val t' = forget_val t.
Proof.
  intros [(alpha & beta & H)|H].
  - exact (minimax_only_val t _ _ _ _ _ _ H).
  - exact (minimax_plain_only_val t _ _ _ _ H).
Qed.

Lemma search_writes_only_val_witness :
  minimax_plain opening_tree 2 true = Ok (-1, opening_searched) /\
  forget_val opening_searched = forget_val opening_tree /\
  opening_searched <> opening_tree.
Proof.
  assert (H : minimax_plain opening_tree 2 true = Ok (-1, opening_searched))
    by (vm_compute; reflexivity).
  split; [exact H|]. split.
  - apply (search_writes_only_val opening_tree 2 true (-1)). by right.
  - intros E. apply (f_equal val) in E. vm_compute in E. discriminate E.
Defined.

(** ** A node on which the player to move must pass *)

(** X17.  On a board where the player to move has no legal move and the
    other player has one, the tree of [CreateTree] is a node without
    children and with child_count 0, and a search that reaches it with a
    depth other than 0 runs its loop zero times: it returns and stores the
    value with which the loop starts, -9999999 for the maximizing player
    and 9999999 for the minimizing one, whatever the position is worth. *)
Theorem forced_pass_value (b : board) (depth : Z) (p : player) (t : Node)
    (d alpha beta : Z) (m : bool) :
  CreateTree b depth p = Ok t ->
  calculateLegalMoves b p = Ok [] ->
  isGameOver b = Ok false ->
  d <> 0 ->
  exists t',
    minimax t d alpha beta m = Ok (if m then -9999999 else 9999999, t') /\
    val t' = (if m then -9999999 else 9999999) /\
    children t = None /\ child_count t = 0.
Proof.
  intros Ht Hml Hover Hd.
  apply CreateTree_n_built in Ht.
  assert (Hshape : state t = b /\ move_list t = [] /\ child_count t = 0 /\
                   children t = None).
  { destruct (Z.to_nat depth); simpl in Ht;
      destruct Ht as (Hs & Hc & _ & Hcc & Hch); rewrite Hml in Hc;
      injection Hc as Hc; rewrite <- Hc in *; simpl in *; repeat split; try done.
  }
  destruct Hshape as (Hs & Hl & Hcc & Hch).
  rewrite minimax_eq. unfold at_base. rewrite Hs, Hover, Hcc.
  destruct (decide (d = 0)); [done|]. unfold kids_of. rewrite Hch. simpl.
  destruct m; simpl; eexists; (split; [reflexivity|]); simpl; done.
Qed.

Lemma forced_pass_value_witness :
  exists t t',
    CreateTree pass_board 5 Black = Ok t /\
    minimax t 5 (-99999999) 99999999 true = Ok (-9999999, t') /\
    heuristic pass_board = Ok (-11).
Proof.
  destruct (CreateTree pass_board 5 Black) as [t|] eqn:Ht;
    [|by vm_compute in Ht].
  assert (Hml : calculateLegalMoves pass_board Black = Ok [])
    by (vm_compute; reflexivity).
  assert (Hover : isGameOver pass_board = Ok false)
    by (vm_compute; reflexivity).
  assert (Hd : 5 <> 0) by lia.
  destruct (forced_pass_value pass_board 5 Black t 5 (-99999999) 99999999 true
              Ht Hml Hover Hd) as (t' & Hm & _).
  exists t, t'. split; [reflexivity|]. split; [exact Hm|].
  vm_compute. reflexivity.
Defined.

(** ** A search no deeper than the tree *)

Lemma heuristic_Ok_isGameOver b h :
  heuristic b = Ok h -> exists g, isGameOver b = Ok g.
Proof.
  unfold heuristic, isGameOver. intros H. inv_bind H. inv_bind H.
  rewrite Ha, Ha0. simpl. destruct a; eauto.
Qed.

Lemma max_loop_completes e d beta cs :
  (forall c, c ∈ cs -> forall a b' m,
     exists v t', minimax c (d - 1) a b' m = Ok (v, t')) ->
  forall todo alpha M, (todo <= length cs)%nat ->
    exists r kids, max_loop minimax e d beta cs todo alpha M = Ok (r, kids).
Proof.
  induction cs as [|c cs IH]; intros Hcs todo alpha M Hlen;
    destruct todo as [|todo]; simpl in *; eauto; [lia|].
  destruct (Hcs c (list_elem_of_here _ _) alpha beta false) as (v & c' & ->).
  simpl. destruct (beta <=? Z.max alpha v); [eauto|].
  destruct (IH (fun c0 H0 => Hcs c0 (list_elem_of_further _ _ _ H0)) todo
              (Z.max alpha v) (Z.max M v)) as (r & kids & ->); [lia|].
  simpl. eauto.
Qed.

Lemma min_loop_completes e d alpha cs :
  (forall c, c ∈ cs -> forall a b' m,
     exists v t', minimax c (d - 1) a b' m = Ok (v, t')) ->
  forall todo beta M, (todo <= length cs)%nat ->
    exists r kids, min_loop minimax e d alpha cs todo beta M = Ok (r, kids).
Proof.
  induction cs as [|c cs IH]; intros Hcs todo beta M Hlen;
    destruct todo as [|todo]; simpl in *; eauto; [lia|].
  destruct (Hcs c (list_elem_of_here _ _) alpha beta true) as (v & c' & ->).
  simpl. destruct (Z.min beta v <=? alpha); [eauto|].
  destruct (IH (fun c0 H0 => Hcs c0 (list_elem_of_further _ _ _ H0)) todo
              (Z.min beta v) (Z.min M v)) as (r & kids & ->); [lia|].
  simpl. eauto.
Qed.

Lemma evaluable_child t i c :
  evaluable t -> kids_of t !! i = Some c -> evaluable c.
Proof.
  intros Ht Hc path x Hx. apply (Ht (i :: path) x). simpl. by rewrite Hc.
Qed.

Lemma built_as_completes n : forall b p t d alpha beta m,
  built_as n b p t -> 0 <= d <= Z.of_nat n -> evaluable t ->
  exists v t', minimax t d alpha beta m = Ok (v, t').
Proof.
  induction n as [|n IH]; intros b p t d alpha beta m Hb Hd Hev;
    rewrite minimax_eq; unfold at_base;
    destruct (Hev [] t eq_refl) as [h Hh].
  - destruct (decide (d = 0)); [|lia]. simpl. rewrite Hh. simpl. eauto.
  - destruct (decide (d = 0)); [simpl; rewrite Hh; simpl; eauto|].
    destruct (heuristic_Ok_isGameOver _ _ Hh) as [g ->]. simpl.
    destruct g; [rewrite Hh; simpl; eauto|].
    destruct Hb as (Hs & Hc & _ & Hcc & Hch).
    assert (Hkids : (Z.to_nat (child_count t) <= length (kids_of t))%nat /\
      forall c, c ∈ kids_of t -> forall a b' m',
        exists v t', minimax c (d - 1) a b' m' = Ok (v, t')).
    { destruct (decide (move_list t = [])) as [E|E].
      - rewrite Hcc, E. unfold kids_of. rewrite Hch. simpl. split; [lia|].
        intros c Hin. by apply elem_of_nil in Hin.
      - destruct Hch as (kids & Hch & Hall). unfold kids_of at 1. rewrite Hch.
        rewrite Hcc, Nat2Z.id, (Forall2_length _ _ _ Hall). split; [lia|].
        intros c Hin a b' m'.
        apply list_elem_of_lookup in Hin as [i Hi].
        assert (Hi' : kids !! i = Some c)
          by (unfold kids_of in Hi; by rewrite Hch in Hi).
        destruct (Forall2_lookup_r _ _ _ _ _ Hall Hi')
          as (mv & _ & b1 & _ & Hb1).
        apply (IH b1 (swap_player p) c); [done | lia |].
        by eapply evaluable_child. }
    destruct Hkids as [Hlen Hall].
    destruct m.
    + destruct (max_loop_completes (no_child t) d beta (kids_of t) Hall
                  (Z.to_nat (child_count t)) alpha (-9999999) Hlen)
        as (r & kids & ->). simpl. eauto.
    + destruct (min_loop_completes (no_child t) d alpha (kids_of t) Hall
                  (Z.to_nat (child_count t)) beta 9999999 Hlen)
        as (r & kids & ->). simpl. eauto.
Qed.

(** X18.  On a tree built by [CreateTree] with some depth, the alpha-beta
    search called with a depth between 0 and that depth never uses
    children[i] of a node without children, nor an index past the end of a
    children array: if the heuristic can be computed on every node of the
    tree, the search returns.  (A search deeper than the tree does reach
    children[0] of a leaf.) *)
Theorem minimax_completes (b : board) (depth : Z) (p : player) (t : Node)
    (d alpha beta : Z) (m : bool) :
  CreateTree b depth p = Ok t ->
  0 <= d <= depth ->
  evaluable t ->
  exists v t', minimax t d alpha beta m = Ok (v, t').
Proof.
  intros Ht Hd Hev. apply CreateTree_n_built in Ht.
  apply (built_as_completes (Z.to_nat depth) b p); [done | lia | done].
Qed.

Lemma reply_tree_evaluable : evaluable reply_tree.
Proof.
  intros path x Hx.
  destruct path as [|i [|j path]].
  - injection Hx as <-. vm_compute. eauto.
  - do 4 (destruct i as [|i]; [injection Hx as <-; vm_compute; eauto|]).
    discriminate Hx.
  - do 4 (destruct i as [|i]; [discriminate Hx|]). discriminate Hx.
Qed.

Lemma minimax_completes_witness :
  CreateTree reply_board 1 White = Ok reply_tree /\
  (exists v t', minimax reply_tree 1 (-99999999) 99999999 false = Ok (v, t')) /\
  minimax reply_tree 2 (-99999999) 99999999 false = Fail NullChild.
Proof.
  assert (Ht : CreateTree reply_board 1 White = Ok reply_tree)
    by (vm_compute; reflexivity).
  assert (Hd : 0 <= 1 <= 1) by lia.
  split; [exact Ht|]. split.
  - exact (minimax_completes reply_board 1 White reply_tree 1 (-99999999)
             99999999 false Ht Hd reply_tree_evaluable).
  - vm_compute. reflexivity.
Defined.

(** ** Colour swap and the search *)

Lemma moves_of_mover b p :
  (if decide (p = White) then getWhiteLegalMoves b else getBlackLegalMoves b)
  = calculateLegalMoves b p.
Proof. by destruct p. Qed.














(** ** The child that the scan selects *)

(* a call that is not a base case stores the value it returns *)
Lemma minimax_val t d alpha beta m v t' :
  minimax t d alpha beta m = Ok (v, t') -> at_base t d = Ok false ->
  val t' = v.
Proof.
  rewrite minimax_eq. intros H Hb. rewrite Hb in H. simpl in H.
  destruct m; inv_bind H; destruct a as [r kids]; by injection H as <- <-.
Qed.

Lemma max_loop_ge e d beta cs : forall todo alpha M r kids,
  max_loop minimax e d beta cs todo alpha M = Ok (r, kids) -> M <= r.
Proof.
  induction cs as [|c cs IH]; intros todo alpha M r kids H;
    destruct todo as [|todo]; simpl in H; try (injection H as <- <-; lia);
    try discriminate.
  inv_bind H. destruct a as [ev c'].
  destruct (beta <=? Z.max alpha ev); [injection H as <- <-; lia|].
  inv_bind H. destruct a as [m cs'']. injection H as <- <-.
  apply IH in Ha0. lia.
Qed.

Lemma min_loop_le e d alpha cs : forall todo beta M r kids,
  min_loop minimax e d alpha cs todo beta M = Ok (r, kids) -> r <= M.
Proof.
  induction cs as [|c cs IH]; intros todo beta M r kids H;
    destruct todo as [|todo]; simpl in H; try (injection H as <- <-; lia);
    try discriminate.
  inv_bind H. destruct a as [ev c'].
  destruct (Z.min beta ev <=? alpha); [injection H as <- <-; lia|].
  inv_bind H. destruct a as [m cs'']. injection H as <- <-.
  apply IH in Ha0. lia.
Qed.

Lemma searched_children_tail c0 cs todo d m :
  searched_children (c0 :: cs) (S todo) d m -> searched_children cs todo d m.
Proof. intros H j c Hj Hc. apply (H (S j) c); [lia | done]. Qed.

Lemma max_loop_first e d cs : forall todo alpha M r kids i c c',
  searched_children cs todo d false ->
  alpha <= 9999999 ->
  max_loop minimax e d 99999999 cs todo alpha M = Ok (r, kids) ->
  alpha < r -> (i < todo)%nat ->
  cs !! i = Some c -> kids !! i = Some c' -> val c' = r ->
  (forall j cj, (j < i)%nat -> kids !! j = Some cj -> val cj <> r) ->
  exists tc, minimax_plain c (d - 1) false = Ok (r, tc).
Proof.
  induction cs as [|c0 cs IH];
    intros todo alpha M r kids i c c' Hcs Ha H Hr Hi Hc Hc' Hval Hfirst;
    [done|].
  destruct todo as [|todo]; [lia|]. simpl in H.
  inv_bind H. destruct a as [ev c0'].
  destruct (Hcs 0%nat c0 ltac:(lia) eq_refl) as (Hbase & vp & tp & Hp).
  pose proof (minimax_val _ _ _ _ _ _ _ Ha0 Hbase) as Hv0.
  assert (Hev : ev <= 9999999).
  { pose proof (minimax_pruned_value c0 _ _ _ _ _ _ Ha0) as Hs.
    unfold search_value in Hs. lia. }
  destruct (Z.leb_spec 99999999 (Z.max alpha ev)) as [|_]; [lia|].
  inv_bind H. destruct a as [m cs'']. injection H as <- <-.
  pose proof (max_loop_ge _ _ _ _ _ _ _ _ _ Ha1) as Hge.
  destruct i as [|i]; simpl in Hc, Hc'.
  - injection Hc as <-. injection Hc' as <-.
    destruct (minimax_pruning_sound c0 (d - 1) alpha 99999999 false vp tp)
      as (r' & ta & Hr' & Hlow & _ & Heq); [lia | done |].
    rewrite Ha0 in Hr'. injection Hr' as <- <-.
    pose proof (minimax_plain_value c0 _ _ _ _ Hp) as Hs.
    unfold search_value in Hs.
    assert (alpha < vp) by lia.
    rewrite <- Heq in Hp by lia. rewrite Hv0 in Hval. subst. eauto.
  - assert (ev <> m).
    { intros <-. apply (Hfirst 0%nat c0'); [lia | done | done]. }
    apply (IH todo (Z.max alpha ev) (Z.max M ev) m cs'' i c c'); try done;
      try lia.
    + by eapply searched_children_tail.
    + intros j cj Hj Hcj. apply (Hfirst (S j) cj); [lia | done].
Qed.

Lemma min_loop_first e d cs : forall todo beta M r kids i c c',
  searched_children cs todo d true ->
  -9999999 <= beta ->
  min_loop minimax e d (-99999999) cs todo beta M = Ok (r, kids) ->
  r < beta -> (i < todo)%nat ->
  cs !! i = Some c -> kids !! i = Some c' -> val c' = r ->
  (forall j cj, (j < i)%nat -> kids !! j = Some cj -> val cj <> r) ->
  exists tc, minimax_plain c (d - 1) true = Ok (r, tc).
Proof.
  induction cs as [|c0 cs IH];
    intros todo beta M r kids i c c' Hcs Hb H Hr Hi Hc Hc' Hval Hfirst;
    [done|].
  destruct todo as [|todo]; [lia|]. simpl in H.
  inv_bind H. destruct a as [ev c0'].
  destruct (Hcs 0%nat c0 ltac:(lia) eq_refl) as (Hbase & vp & tp & Hp).
  pose proof (minimax_val _ _ _ _ _ _ _ Ha Hbase) as Hv0.
  assert (Hev : -9999999 <= ev).
  { pose proof (minimax_pruned_value c0 _ _ _ _ _ _ Ha) as Hs.
    unfold search_value in Hs. lia. }
  destruct (Z.leb_spec (Z.min beta ev) (-99999999)) as [|_]; [lia|].
  inv_bind H. destruct a as [m cs'']. injection H as <- <-.
  pose proof (min_loop_le _ _ _ _ _ _ _ _ _ Ha0) as Hle.
  destruct i as [|i]; simpl in Hc, Hc'.
  - injection Hc as <-. injection Hc' as <-.
    destruct (minimax_pruning_sound c0 (d - 1) (-99999999) beta true vp tp)
      as (r' & ta & Hr' & _ & Hhigh & Heq); [lia | done |].
    rewrite Ha in Hr'. injection Hr' as <- <-.
    pose proof (minimax_plain_value c0 _ _ _ _ Hp) as Hs.
    unfold search_value in Hs.
    assert (vp < beta) by lia.
    rewrite <- Heq in Hp by lia. rewrite Hv0 in Hval. subst. eauto.
  - assert (ev <> m).
    { intros <-. apply (Hfirst 0%nat c0'); [lia | done | done]. }
    apply (IH todo (Z.min beta ev) (Z.min M ev) m cs'' i c c'); try done;
      try lia.
    + by eapply searched_children_tail.
    + intros j cj Hj Hcj. apply (Hfirst (S j) cj); [lia | done].
Qed.

(** X28.  The scan of the root's children acts on the first child whose
    val equals the value of the search.  When the root is not a base case
    and none of its children is one (each is searched with a depth other
    than 0, on a board on which the game is not over), that child is a
    best move: its value under the search without pruning is the value of
    the root under the search without pruning, the value that main's
    search returned. *)
Theorem first_matching_child_is_best (t : Node) (d : Z) (m : bool)
    (v vp : Z) (t' tp : Node) (i : nat) (c c' : Node) :
  minimax t d (-99999999) 99999999 m = Ok (v, t') ->
  minimax_plain t d m = Ok (vp, tp) ->
  at_base t d = Ok false ->
  (forall c0, c0 ∈ kids_of t -> at_base c0 (d - 1) = Ok false) ->
  (i < Z.to_nat (child_count t))%nat ->
  kids_of t !! i = Some c ->
  kids_of t' !! i = Some c' ->
  val c' = v ->
  (forall j cj, (j < i)%nat -> kids_of t' !! j = Some cj -> val cj <> v) ->
  vp = v /\ exists tc, minimax_plain c (d - 1) (negb m) = Ok (v, tc).
Proof.
  intros Hs Hp Hbase Hkids Hi Hc Hc' Hval Hfirst.
  split.
  { destruct (root_value_agrees t d m vp tp Hp) as [ta Ha].
    rewrite Hs in Ha. by injection Ha. }
  assert (Hcs : searched_children (kids_of t) (Z.to_nat (child_count t)) d
                  (negb m)).
  { intros j c0 Hlt Hj.
    split; [apply Hkids; by eapply list_elem_of_lookup_2|].
    rewrite minimax_plain_eq, Hbase in Hp. simpl in Hp.
    destruct m; inv_bind Hp; destruct a as [r kids].
    - destruct (plain_max_loop_lookup _ _ _ _ _ _ _ Ha j c0 Hj Hlt)
        as (ev & c1 & ? & _). eauto.
    - destruct (plain_min_loop_lookup _ _ _ _ _ _ _ Ha j c0 Hj Hlt)
        as (ev & c1 & ? & _). eauto. }
  rewrite minimax_eq, Hbase in Hs. simpl in Hs.
  destruct (kids_of_lookup_Some _ _ _ Hc) as (cs & Hch & Hcs').
  destruct m; inv_bind Hs; destruct a as [r kids]; injection Hs as <- <-;
    rewrite kids_of_store, Hch in Hc', Hfirst.
  - pose proof (max_loop_ge _ _ _ _ _ _ _ _ _ Ha) as Hge.
    eapply (max_loop_first _ _ _ _ _ _ _ _ i c c' Hcs); eauto; lia.
  - pose proof (min_loop_le _ _ _ _ _ _ _ _ _ Ha) as Hle.
    eapply (min_loop_first _ _ _ _ _ _ _ _ i c c' Hcs); eauto; lia.
Qed.

Lemma first_matching_child_is_best_witness :
  exists c c',
    minimax opening_tree 2 (-99999999) 99999999 true = Ok (-1, opening_pruned) /\
    kids_of opening_tree !! 0%nat = Some c /\
    kids_of opening_pruned !! 0%nat = Some c' /\
    val c' = -1 /\
    exists tc, minimax_plain c 1 (negb true) = Ok (-1, tc).
Proof.
  assert (Hs : minimax opening_tree 2 (-99999999) 99999999 true
               = Ok (-1, opening_pruned)) by (vm_compute; reflexivity).
  assert (Hp : minimax_plain opening_tree 2 true = Ok (-1, opening_searched))
    by (vm_compute; reflexivity).
  assert (Hbase : at_base opening_tree 2 = Ok false)
    by (vm_compute; reflexivity).
  assert (Hkids : forall c0, c0 ∈ kids_of opening_tree ->
            at_base c0 (2 - 1) = Ok false).
  { intros c0 Hin. apply list_elem_of_lookup in Hin as [j Hj].
    do 4 (destruct j as [|j]; [injection Hj as <-; vm_compute; reflexivity|]).
    discriminate Hj. }
  destruct (kids_of opening_tree !! 0%nat) as [c|] eqn:Hc;
    [|by vm_compute in Hc].
  destruct (kids_of opening_pruned !! 0%nat) as [c'|] eqn:Hc';
    [|by vm_compute in Hc'].
  assert (Hval : val c' = -1)
    by (vm_compute in Hc'; injection Hc' as <-; reflexivity).
  assert (Hi : (0 < Z.to_nat (child_count opening_tree))%nat)
    by (vm_compute; lia).
  assert (Hfirst : forall j cj, (j < 0)%nat ->
            kids_of opening_pruned !! j = Some cj -> val cj <> -1)
    by (intros j cj Hj; lia).
  destruct (first_matching_child_is_best opening_tree 2 true (-1) (-1)
              opening_pruned opening_searched 0 c c'
              Hs Hp Hbase Hkids Hi Hc Hc' Hval Hfirst) as [_ Hbest].
  exists c, c'. split; [exact Hs|]. split; [reflexivity|].
  split; [reflexivity|]. split; [exact Hval | exact Hbest].
Defined.

(** ** The engine's turn, continued *)

Lemma elem_of_compared j k :
  (j, k) ∈ compared <-> 0 <= j <= 6 /\ 0 <= k <= 6.
Proof.
  unfold compared. rewrite list_elem_of_bind. split.
  - intros (i & Hj & Hi). apply list_elem_of_bind in Hj as (i' & Hx & Hj).
    apply list_elem_of_singleton in Hx as [= -> ->].
    apply elem_of_seqZ in Hi, Hj. lia.
  - intros H. exists j. split; [|apply elem_of_seqZ; lia].
    apply list_elem_of_bind. exists k. split; [|apply elem_of_seqZ; lia].
    by apply list_elem_of_singleton.
Qed.

Lemma same_config_scan_spec st b sq : forall acc s,
  same_config_scan st b sq acc = Ok s ->
  (s = true <->
   acc = true /\ forall x, x ∈ sq -> cellAt st x.1 x.2 = cellAt b x.1 x.2).
Proof.
  induction sq as [|[j k] sq IH]; intros acc s; simpl.
  - intros [= <-]. split; [intros ->; split; [done|] | by intros [-> _]].
    intros x Hx. by apply elem_of_nil in Hx.
  - intros H. inv_bind H. inv_bind H. apply read_Ok in Ha, Ha0.
    rewrite (IH _ _ H). split.
    + intros [Hacc Hall]. destruct (decide (a <> a0)) as [|He]; [done|].
      apply dec_stable in He. subst a0. split; [done|].
      intros x Hx. apply elem_of_cons in Hx as [->|Hx]; [|by apply Hall].
      simpl. by rewrite Ha, Ha0.
    + intros [-> Hall]. split.
      * destruct (decide (a <> a0)) as [Hne|]; [|done].
        destruct Hne. specialize (Hall (j, k) (list_elem_of_here _ _)).
        simpl in Hall. rewrite Ha, Ha0 in Hall. by injection Hall.
      * intros x Hx. apply Hall. by right.
Qed.

(** X20.  The comparison of the selected child with the board (lines
    606-612) leaves same_config true exactly when the two boards agree on
    the 49 cells of rows 0 to 6 and columns 0 to 6; row 7 and column 7 do
    not count. *)
Theorem same_config_compares_49_cells (st b : board) (s : bool) :
  same_config_scan st b compared true = Ok s ->
  (s = true <->
   forall j k, 0 <= j <= 6 -> 0 <= k <= 6 -> cellAt st j k = cellAt b j k).
Proof.
  intros H. rewrite (same_config_scan_spec st b compared true s H). split.
  - intros [_ Hall] j k Hj Hk. apply (Hall (j, k)). by apply elem_of_compared.
  - intros Hall. split; [done|]. intros [j k] Hx.
    apply elem_of_compared in Hx as [Hj Hk]. by apply Hall.
Qed.

Lemma same_config_compares_49_cells_witness :
  exists b1,
    makeMove lastrow_board 7 7 Black = Ok b1 /\
    same_config_scan b1 lastrow_board compared true = Ok true /\
    b1 <> lastrow_board /\
    (true = true <->
     forall j k, 0 <= j <= 6 -> 0 <= k <= 6 ->
       cellAt b1 j k = cellAt lastrow_board j k).
Proof.
  destruct (makeMove lastrow_board 7 7 Black) as [b1|] eqn:Hm;
    [|by vm_compute in Hm].
  assert (Hs : same_config_scan b1 lastrow_board compared true = Ok true).
  { vm_compute in Hm. injection Hm as <-. vm_compute. reflexivity. }
  exists b1. split; [reflexivity|]. split; [exact Hs|]. split.
  - vm_compute in Hm. injection Hm as <-. discriminate.
  - exact (same_config_compares_49_cells b1 lastrow_board true Hs).
Defined.

Lemma choose_cons e b ml p v c cs todo :
  choose e b ml p v (c :: cs) (S todo) =
  if decide (val c = v) then
    same_config ← same_config_scan (state c) b compared true;
    if negb same_config then Ok (state c)
    else match ml with
         | [] => Fail OutOfBounds
         | m :: _ => makeMove b m.1 m.2 p
         end
  else choose e b ml p v cs todo.
Proof. reflexivity. Qed.

(* the scan of the children returns the board, the state of a child, or
   the board after the first move of the list *)
Lemma choose_result e b ml p v cs : forall todo b',
  choose e b ml p v cs todo = Ok b' ->
  b' = b \/ (exists c, c ∈ cs /\ b' = state c) \/
  (exists m, head ml = Some m /\ makeMove b m.1 m.2 p = Ok b').
Proof.
  induction cs as [|c cs IH]; intros todo b' H; destruct todo as [|todo];
    try (injection H as <-; by left); try discriminate.
  rewrite choose_cons in H.
  destruct (decide (val c = v)).
  - inv_bind H. destruct a; simpl in H.
    + right. right. destruct ml as [|m ml]; [done|]. by exists m.
    + injection H as <-. right. left. exists c. split; [left | done].
  - apply IH in H as [?|[(c0 & Hin & ?)|?]]; auto.
    right. left. exists c0. split; [by right | done].
Qed.

Lemma state_forget_val t : state (forget_val t) = state t.
Proof. by destruct t. Qed.

Lemma kids_of_forget_val t :
  kids_of (forget_val t) = map forget_val (kids_of t).
Proof. by destruct t as [[cs|] cc ml st v]. Qed.

Lemma ai_turn_choose depth b p b' :
  ai_turn depth b p = Ok b' ->
  exists ml t v t',
    calculateLegalMoves b p = Ok ml /\
    CreateTree b depth p = Ok t /\
    minimax t depth (-99999999) 99999999 (maximizer p) = Ok (v, t') /\
    choose (no_child t') b ml p v (kids_of t') (Z.to_nat (child_count t'))
    = Ok b'.
Proof.
  unfold ai_turn. intros H. inv_bind H. rename a into ml.
  inv_bind H. rename a into t. inv_bind H. destruct a as [v t'].
  exists ml, t, v, t'. repeat (split; [done|]).
  unfold no_child, kids_of. by destruct (children t').
Qed.

(* the board after the engine's turn is the board before it, or the board
   after a move that is legal by the rule *)
Lemma ai_turn_legal depth b p b' :
  ai_turn depth b p = Ok b' ->
  b' = b \/
  exists r c, legal_by_rule b p r c /\ makeMove b r c p = Ok b'.
Proof.
  intros H. apply ai_turn_choose in H as (ml & t & v & t' & Ha & Ha0 & Ha1 & H).
  pose proof (calculateLegalMoves_spec b p ml Ha) as Hrule.
  apply CreateTree_n_built in Ha0 as Hb.
  pose proof (minimax_only_val t _ _ _ _ _ _ Ha1) as Hfv.
  apply choose_result in H as [?|[(c & Hin & ->)|(m & Hm & Hmk)]];
    [by left | |].
  - right.
    (* the child is one of those CreateTree built *)
    assert (exists c0, c0 ∈ kids_of t /\ state c0 = state c) as (c0 & Hin0 & <-).
    { apply (f_equal kids_of) in Hfv. rewrite !kids_of_forget_val in Hfv.
      apply list_elem_of_lookup in Hin as [i Hi].
      apply (f_equal (fun l => l !! i)) in Hfv.
      rewrite !list_lookup_fmap, Hi in Hfv. simpl in Hfv.
      destruct (kids_of t !! i) as [c0|] eqn:E; [|done].
      exists c0. split; [by eapply list_elem_of_lookup_2|].
      injection Hfv as Hfv. apply (f_equal state) in Hfv.
      by rewrite !state_forget_val in Hfv. }
    apply list_elem_of_lookup in Hin0 as [i Hi].
    destruct (Z.to_nat depth) as [|n]; simpl in Hb;
      destruct Hb as (Hs & Hc & _ & Hcc & Hch).
    { unfold kids_of in Hi. by rewrite Hch in Hi. }
    destruct (decide (move_list t = [])).
    { unfold kids_of in Hi. by rewrite Hch in Hi. }
    destruct Hch as (kids & Hch & Hall).
    unfold kids_of in Hi. rewrite Hch in Hi.
    destruct (Forall2_lookup_r _ _ _ _ _ Hall Hi)
      as ([r0 c1] & Hmv & b1 & Hmk & Hb1).
    exists r0, c1. simpl in Hmk. split.
    + apply Hrule. rewrite Ha in Hc. injection Hc as ->.
      by eapply list_elem_of_lookup_2.
    + rewrite Hmk. f_equal.
      destruct n; simpl in Hb1; by destruct Hb1 as (<- & _).
  - right. destruct m as [r c]. exists r, c. split; [|done].
    apply Hrule. destruct ml; [done|]. injection Hm as ->. left.
Qed.

(* a legal move adds one disc *)
Lemma legal_move_adds_a_disc b p r c b' :
  wf_board b -> legal_by_rule b p r c -> makeMove b r c p = Ok b' ->
  wf_board b' /\ discs b' = discs b + 1.
Proof.
  intros Hwf Hl Hm.
  destruct (makeMove_counts b p r c b' Hwf Hl Hm) as (Hwf' & k & _ & E1 & E2).
  split; [done|]. rewrite otherPlayer_swap_player in E2.
  unfold discs. destruct p; simpl in E2; lia.
Qed.

Lemma reply_board_wf : wf_board reply_board.
Proof. split; [reflexivity | repeat constructor]. Qed.





(** ** The lines that main accepts *)

Lemma digit_0_7_spec a :
  digit_0_7 a = true <-> (48 <= nat_of_ascii a <= 55)%nat.
Proof.
  unfold digit_0_7. rewrite andb_true_iff, !Nat.leb_le. lia.
Qed.

Lemma parse_move_on_grid s r c :
  parse_move s = Some (r, c) -> on_grid r c = true.
Proof.
  destruct s as [|a [|sp [|b [|? ?]]]]; simpl; try discriminate.
  destruct (digit_0_7 a) eqn:Ea; [|discriminate].
  destruct (Ascii.eqb sp " "); [|discriminate].
  destruct (digit_0_7 b) eqn:Eb; [|discriminate]. simpl.
  intros [= <- <-]. apply digit_0_7_spec in Ea, Eb.
  apply on_grid_spec. lia.
Qed.

(** X23.  The lines that main takes for a move are exactly the 64 lines
    made of a digit from 0 to 7, one space and a digit from 0 to 7, and the
    row and the column it computes from such a line are the two digits:
    both lie between 0 and 7. *)
Theorem parse_move_accepts (s : string) (r c : Z) :
  parse_move s = Some (r, c) <->
  0 <= r <= 7 /\ 0 <= c <= 7 /\ s = move_line r c.
Proof.
  unfold move_line. split.
  - intros H. pose proof (parse_move_on_grid s r c H) as Hg.
    apply on_grid_spec in Hg.
    destruct s as [|a [|sp [|b [|? ?]]]]; simpl in H; try discriminate.
    destruct (digit_0_7 a) eqn:Ea; [|discriminate].
    destruct (Ascii.eqb sp " ") eqn:Es; [|discriminate].
    destruct (digit_0_7 b) eqn:Eb; [|discriminate]. simpl in H.
    injection H as <- <-. apply digit_0_7_spec in Ea, Eb.
    apply Ascii.eqb_eq in Es. subst sp.
    split; [lia|]. split; [lia|].
    replace (Z.to_nat (48 + (Z.of_nat (nat_of_ascii a) - 48)))
      with (nat_of_ascii a) by lia.
    replace (Z.to_nat (48 + (Z.of_nat (nat_of_ascii b) - 48)))
      with (nat_of_ascii b) by lia.
    by rewrite !ascii_nat_embedding.
  - intros (Hr & Hc & ->). simpl.
    rewrite !nat_ascii_embedding by lia.
    assert (Ha : digit_0_7 (ascii_of_nat (Z.to_nat (48 + r))) = true)
      by (apply digit_0_7_spec; rewrite nat_ascii_embedding; lia).
    assert (Hb : digit_0_7 (ascii_of_nat (Z.to_nat (48 + c))) = true)
      by (apply digit_0_7_spec; rewrite nat_ascii_embedding; lia).
    rewrite Ha, Hb. simpl. do 2 f_equal; lia.
Qed.

(** ** The game loops *)

Lemma try_move_on_grid b ml r c p code :
  on_grid r c = true -> try_move b ml r c p <> Ok (Some (inr code)).
Proof.
  intros Hg. unfold try_move, isLegalMove.
  replace ((r >? 7) || (r <? 0) || (c >? 7) || (c <? 0))
    with (off_board r c) by done.
  rewrite off_board_on_grid by done.
  destruct (read b r c) as [x|e] eqn:E; simpl.
  - destruct (decide (x <> Empty)); [done|].
    destruct (decide ((r, c) ∈ ml)); [|done].
    by destruct (makeMove b r c p).
  - apply read_Fail in E. by subst e.
Qed.

Lemma try_move_legal b p ml r c b' :
  calculateLegalMoves b p = Ok ml ->
  try_move b ml r c p = Ok (Some (inl b')) ->
  legal_by_rule b p r c /\ makeMove b r c p = Ok b'.
Proof.
  intros Hml. unfold try_move, isLegalMove.
  destruct ((r >? 7) || (r <? 0) || (c >? 7) || (c <? 0)); [done|].
  destruct (read b r c) as [x|e]; simpl; [|by destruct e].
  destruct (decide (x <> Empty)); [done|].
  destruct (decide ((r, c) ∈ ml)) as [Hin|]; [|done].
  intros H. inv_bind H. injection H as <-. split; [|done].
  by apply (calculateLegalMoves_spec b p ml Hml).
Qed.

Lemma two_player_step_continues inp g code g' :
  two_player_step inp g <> Ok (Return code g').
Proof.
  unfold two_player_step. intros H. inv_bind H. inv_bind H.
  destruct a0; [done|].
  destruct (parse_move (inp (g_read g))) as [[r c]|] eqn:Hp; [|done].
  inv_bind H. destruct a0 as [[b'|code']|]; try done.
  - inv_bind H. inv_bind H. done.
  - by apply try_move_on_grid in Ha1; [|eapply parse_move_on_grid].
Qed.

Lemma user_turn_moves fuel inp b ml p : forall n code n',
  user_turn fuel inp b ml p n <> Ok (inr code, n').
Proof.
  induction fuel as [|fuel IH]; intros n code n' H; simpl in H; [done|].
  destruct (parse_move (inp n)) as [[r c]|] eqn:Hp; [|by eapply IH].
  inv_bind H. destruct a as [[b'|code']|]; [done| |by eapply IH].
  by apply try_move_on_grid in Ha; [|eapply parse_move_on_grid].
Qed.

Lemma ai_game_step_continues fuel inp pc g code g' :
  ai_game_step fuel inp pc g <> Ok (Return code g').
Proof.
  unfold ai_game_step. intros H. inv_bind H. inv_bind H.
  destruct a0; [done|]. inv_bind H. inv_bind H.
  destruct (decide (g_player g = pc)).
  - inv_bind H. inv_bind H. destruct a3 as [[b'|code'] n]; [done|].
    by apply user_turn_moves in Ha4.
  - inv_bind H. done.
Qed.

Lemma two_player_game_zero fuel inp : forall g code g',
  two_player_game fuel inp g = Ok (code, g') ->
  code = 0 /\ isGameOver (g_board g') = Ok true.
Proof.
  induction fuel as [|fuel IH]; intros g code g' H; simpl in H; [done|].
  inv_bind H. destruct a.
  - inv_bind H. inv_bind H. by injection H as <- <-.
  - inv_bind H. destruct a as [g1|code1 g1]; [by eapply IH|].
    by apply two_player_step_continues in Ha0.
Qed.

Lemma ai_game_zero fuel inp pc : forall g code g',
  ai_game fuel inp pc g = Ok (code, g') ->
  code = 0 /\ isGameOver (g_board g') = Ok true.
Proof.
  induction fuel as [|fuel IH]; intros g code g' H; simpl in H; [done|].
  inv_bind H. destruct a.
  - inv_bind H. inv_bind H. by injection H as <- <-.
  - inv_bind H. destruct a as [g1|code1 g1]; [by eapply IH|].
    by apply ai_game_step_continues in Ha0.
Qed.

(** X24.  main never returns 1: a line that matches the pattern gives a row
    and a column between 0 and 7, so [isLegalMove] never throws, and the
    handler of std::range_error is never entered.  Whenever a game loop (of
    the two-player game, of the game against the engine, or main as a
    whole) returns, it returns 0 and on a board on which [isGameOver] is
    true. *)
Theorem game_loops_return_zero (fuel : nat) (inp : input) (g : game)
    (code : Z) (g' : game) :
  (two_player_game fuel inp g = Ok (code, g') \/
   (exists player_char, ai_game fuel inp player_char g = Ok (code, g')) \/
   main fuel inp = Ok (code, g')) ->
  code = 0 /\ isGameOver (g_board g') = Ok true.
Proof.
  intros [H|[[pc H]|H]].
  - by eapply two_player_game_zero.
  - by eapply ai_game_zero.
  - unfold main in H. simpl in H. inv_bind H. destruct a as [pc n].
    by eapply ai_game_zero.
Qed.

Lemma game_loops_return_zero_witness :
  exists g',
    two_player_game 2 (fun _ => "0 0"%string) (mkGame endgame_board Black 59 0)
    = Ok (0, g') /\
    isGameOver (g_board g') = Ok true.
Proof.
  destruct (two_player_game 2 (fun _ => "0 0"%string)
              (mkGame endgame_board Black 59 0)) as [[code g']|] eqn:H;
    [|by vm_compute in H].
  destruct (game_loops_return_zero 2 _ _ code g' (or_introl H)) as [-> Hover].
  exists g'. split; [reflexivity | exact Hover].
Defined.

Lemma two_player_step_exact inp g g' :
  two_player_step inp g = Ok (Continue g') ->
  (g_board g' = g_board g /\ g_total_moves g' = g_total_moves g) \/
  (exists r c,
     legal_by_rule (g_board g) (g_player g) r c /\
     makeMove (g_board g) r c (g_player g) = Ok (g_board g') /\
     g_player g' = switch_players (g_player g) /\
     g_total_moves g' = g_total_moves g + 1).
Proof.
  unfold two_player_step. intros H. inv_bind H. inv_bind H.
  destruct a0; [injection H as <-; by left|].
  destruct (parse_move (inp (g_read g))) as [[r c]|] eqn:Hp;
    [|injection H as <-; by left].
  inv_bind H. destruct a0 as [[b'|code']|]; try done;
    [|injection H as <-; by left].
  inv_bind H. inv_bind H. injection H as <-.
  destruct (try_move_legal _ _ _ _ _ _ Ha Ha1). right. by exists r, c.
Qed.

Lemma two_player_step_legal inp g g' :
  two_player_step inp g = Ok (Continue g') -> legal_step g g'.
Proof.
  intros H. apply two_player_step_exact in H as [[Hb Ht]|H].
  - left. split; [done | lia].
  - by right.
Qed.

Lemma user_turn_legal fuel inp b ml p : forall n b' n',
  calculateLegalMoves b p = Ok ml ->
  user_turn fuel inp b ml p n = Ok (inl b', n') ->
  exists r c, legal_by_rule b p r c /\ makeMove b r c p = Ok b'.
Proof.
  induction fuel as [|fuel IH]; intros n b' n' Hml H; simpl in H; [done|].
  destruct (parse_move (inp n)) as [[r c]|] eqn:Hp; [|by eapply IH].
  inv_bind H. destruct a as [[b1|code']|]; [| done | by eapply IH].
  injection H as <- <-. exists r, c. by eapply try_move_legal.
Qed.

Lemma ai_game_step_legal fuel inp pc g g' :
  ai_game_step fuel inp pc g = Ok (Continue g') -> legal_step g g'.
Proof.
  unfold ai_game_step. intros H. inv_bind H. inv_bind H.
  destruct a0; [injection H as <-; left; simpl; split; [done | lia]|].
  inv_bind H. inv_bind H.
  destruct (decide (g_player g = pc)).
  - inv_bind H. inv_bind H. destruct a3 as [[b'|code'] n]; [|done].
    injection H as <-. right.
    destruct (user_turn_legal _ _ _ _ _ _ _ _ Ha Ha4) as (r & c & ? & ?).
    by exists r, c.
  - inv_bind H. injection H as <-.
    apply ai_turn_legal in Ha3 as [->|(r & c & ? & ?)].
    + left. simpl. split; [done | lia].
    + right. by exists r, c.
Qed.

Lemma discs_getScore b :
  wf_board b ->
  exists nb nw, getScore b Black = Ok nb /\ getScore b White = Ok nw /\
                nb + nw = discs b.
Proof. intros Hwf. eexists _, _. rewrite !getScore_wf by done. done. Qed.

Lemma two_player_game_discs fuel inp : forall g code g',
  wf_board (g_board g) ->
  two_player_game fuel inp g = Ok (code, g') ->
  wf_board (g_board g') /\ g_total_moves g <= g_total_moves g' /\
  discs (g_board g') = discs (g_board g) + (g_total_moves g' - g_total_moves g).
Proof.
  induction fuel as [|fuel IH]; intros g code g' Hwf H; simpl in H; [done|].
  inv_bind H. destruct a.
  - inv_bind H. inv_bind H. injection H as <- <-.
    split; [done|]. split; lia.
  - inv_bind H. destruct a as [g1|code1 g1];
      [|by apply two_player_step_continues in Ha0].
    apply two_player_step_exact in Ha0 as [[Hb Ht]|(r & c & Hl & Hm & _ & Ht)].
    + rewrite <- Hb in Hwf. apply IH in H as (? & ? & ?); [|done].
      split; [done|]. rewrite Hb in *. split; lia.
    + destruct (legal_move_adds_a_disc _ _ _ _ _ Hwf Hl Hm) as [Hwf1 Hd].
      apply IH in H as (? & ? & ?); [|done]. split; [done|]. split; lia.
Qed.

Lemma ai_game_discs fuel inp pc : forall g code g',
  wf_board (g_board g) ->
  ai_game fuel inp pc g = Ok (code, g') ->
  wf_board (g_board g') /\
  discs (g_board g) <= discs (g_board g')
    <= discs (g_board g) + (g_total_moves g' - g_total_moves g).
Proof.
  induction fuel as [|fuel IH]; intros g code g' Hwf H; simpl in H; [done|].
  inv_bind H. destruct a.
  - inv_bind H. inv_bind H. injection H as <- <-. split; [done | lia].
  - inv_bind H. destruct a as [g1|code1 g1];
      [|by apply ai_game_step_continues in Ha0].
    apply ai_game_step_legal in Ha0 as [[Hb Ht]|(r & c & Hl & Hm & _ & Ht)].
    + rewrite <- Hb in Hwf. apply IH in H as [? ?]; [|done].
      split; [done|]. rewrite Hb in *. lia.
    + destruct (legal_move_adds_a_disc _ _ _ _ _ Hwf Hl Hm) as [Hwf1 Hd].
      apply IH in H as [? ?]; [|done]. split; [done | lia].
Qed.

(** X26.  total_moves against the discs on the board.  From a board of
    eight rows of eight cells, when a game loop returns, the board still
    has that shape and no disc has left it.  In the two-player game the
    two scores of [getScore] have grown together by exactly the number of
    moves counted in total_moves; in the game against the engine by at
    most that number, since the engine's turn is counted also when it
    leaves the board as it was. *)
Theorem total_moves_counts_discs (fuel : nat) (inp : input) (g : game)
    (code : Z) (g' : game) :
  wf_board (g_board g) ->
  (two_player_game fuel inp g = Ok (code, g') \/
   exists player_char, ai_game fuel inp player_char g = Ok (code, g')) ->
  wf_board (g_board g') /\
  exists nb nw nb' nw',
    getScore (g_board g) Black = Ok nb /\ getScore (g_board g) White = Ok nw /\
    getScore (g_board g') Black = Ok nb' /\
    getScore (g_board g') White = Ok nw' /\
    nb + nw <= nb' + nw' <= nb + nw + (g_total_moves g' - g_total_moves g) /\
    (two_player_game fuel inp g = Ok (code, g') ->
     nb' + nw' = nb + nw + (g_total_moves g' - g_total_moves g)).
Proof.
  intros Hwf H.
  assert (Hboth : wf_board (g_board g') /\
    discs (g_board g) <= discs (g_board g')
      <= discs (g_board g) + (g_total_moves g' - g_total_moves g)).
  { destruct H as [H|[pc H]].
    - destruct (two_player_game_discs _ _ _ _ _ Hwf H) as (? & ? & ?).
      split; [done | lia].
    - by eapply ai_game_discs. }
  destruct Hboth as [Hwf' Hd]. split; [done|].
  destruct (discs_getScore _ Hwf) as (nb & nw & Hb & Hw & E).
  destruct (discs_getScore _ Hwf') as (nb' & nw' & Hb' & Hw' & E').
  exists nb, nw, nb', nw'. repeat (split; [done|]).
  split; [lia|]. intros H2.
  destruct (two_player_game_discs _ _ _ _ _ Hwf H2) as (_ & _ & ?). lia.
Qed.

Lemma total_moves_counts_discs_witness :
  exists g' nb nw nb' nw',
    two_player_game 2 (fun _ => "0 0"%string) (mkGame endgame_board Black 59 0)
    = Ok (0, g') /\
    getScore endgame_board Black = Ok nb /\
    getScore endgame_board White = Ok nw /\
    getScore (g_board g') Black = Ok nb' /\
    getScore (g_board g') White = Ok nw' /\
    nb' + nw' = nb + nw + (g_total_moves g' - 59).
Proof.
  destruct (two_player_game 2 (fun _ => "0 0"%string)
              (mkGame endgame_board Black 59 0)) as [[code g']|] eqn:H;
    [|by vm_compute in H].
  assert (code = 0) as -> by (vm_compute in H; by injection H as <- _).
  destruct (total_moves_counts_discs 2 _ (mkGame endgame_board Black 59 0)
              0 g' endgame_board_wf (or_introl H))
    as (_ & nb & nw & nb' & nw' & Hb & Hw & Hb' & Hw' & _ & Heq).
  exists g', nb, nw, nb', nw'. split; [reflexivity|].
  repeat (split; [assumption|]). exact (Heq H).
Defined.

Lemma turn_passes_to b p :
  calculateLegalMoves b p = Ok [] ->
  turn_passes b p = Ok (Some (switch_players p)).
Proof.
  intros H. unfold turn_passes, getBlackLegalMoves, getWhiteLegalMoves.
  destruct p; simpl; by rewrite H.
Qed.

Lemma turn_passes_not b p m ml :
  calculateLegalMoves b p = Ok (m :: ml) -> turn_passes b p = Ok None.
Proof.
  intros H. unfold turn_passes, getBlackLegalMoves, getWhiteLegalMoves.
  destruct p; simpl; by rewrite H.
Qed.

Lemma switch_players_twice p : switch_players (switch_players p) = p.
Proof. by destruct p. Qed.

Lemma ai_game_S fuel inp pc g :
  ai_game (S fuel) inp pc g =
  over ← isGameOver (g_board g);
  if (over : bool) then
    white_total ← getScore (g_board g) White;
    black_total ← getScore (g_board g) Black;
    Ok (0, g)
  else
    s ← ai_game_step fuel inp pc g;
    match s with
    | Continue g' => ai_game fuel inp pc g'
    | Return code g' => Ok (code, g')
    end.
Proof. reflexivity. Qed.

(** X27.  The game against the engine can go on for ever.  On a board
    where the game is not over, the user has no legal move, and the
    engine's turn leaves the board as it was (its scan finds no child whose
    val is the value of the search), the loop alternates between the
    engine's turn and the user's pass without changing the board: it does
    not return, whatever the input. *)
Theorem ai_game_never_ends (inp : input) (player_char : player) (b : board)
    (p : player) :
  wf_board b ->
  p <> player_char ->
  isGameOver b = Ok false ->
  calculateLegalMoves b player_char = Ok [] ->
  ai_turn MINIMAX_DEPTH b p = Ok b ->
  forall fuel total_moves read,
    ai_game fuel inp player_char (mkGame b p total_moves read)
    = Fail OutOfFuel.
Proof.
  intros Hwf Hp Hover Hnone Hai.
  assert (Hsw : switch_players p = player_char)
    by (destruct p, player_char; done).
  (* the engine has a move: the game is not over and the user has none *)
  assert (exists m ml, calculateLegalMoves b p = Ok (m :: ml)) as (m & ml & Hml).
  { unfold ai_turn in Hai. inv_bind Hai. destruct a as [|m ml]; [|eauto].
    exfalso. unfold isGameOver, getBlackLegalMoves, getWhiteLegalMoves in Hover.
    destruct p, player_char; try done; rewrite ?Ha, ?Hnone in Hover;
      simpl in Hover; rewrite ?Ha, ?Hnone in Hover; done. }
  destruct (discs_getScore b Hwf) as (nb & nw & Hb & Hw & _).
  assert (Hengine : forall fuel total read,
    ai_game_step fuel inp player_char (mkGame b p total read)
    = Ok (Continue (mkGame b player_char (total + 1) read))).
  { intros fuel total read. unfold ai_game_step. simpl.
    rewrite Hml. simpl. rewrite (turn_passes_not b p m ml Hml). simpl.
    rewrite Hw, Hb. simpl. destruct (decide (p = player_char)); [done|].
    rewrite Hai. simpl. by rewrite Hsw. }
  assert (Huser : forall fuel total read,
    ai_game_step fuel inp player_char (mkGame b player_char total read)
    = Ok (Continue (mkGame b p total read))).
  { intros fuel total read. unfold ai_game_step. simpl.
    rewrite Hnone. simpl. rewrite (turn_passes_to b player_char Hnone). simpl.
    by rewrite <- Hsw, switch_players_twice. }
  assert (Hloop : forall fuel total read,
    ai_game (S fuel) inp player_char (mkGame b p total read)
    = ai_game fuel inp player_char (mkGame b player_char (total + 1) read)).
  { intros fuel total read. rewrite ai_game_S. cbn [g_board].
    rewrite Hover, bind_Ok. cbv iota. by rewrite Hengine, bind_Ok. }
  assert (Hloop' : forall fuel total read,
    ai_game (S fuel) inp player_char (mkGame b player_char total read)
    = ai_game fuel inp player_char (mkGame b p total read)).
  { intros fuel total read. rewrite ai_game_S. cbn [g_board].
    rewrite Hover, bind_Ok. cbv iota. by rewrite Huser, bind_Ok. }
  intros fuel. induction (lt_wf fuel) as [fuel _ IH]. intros total read.
  destruct fuel as [|[|fuel]]; [done | by rewrite Hloop |].
  rewrite Hloop, Hloop'. apply (IH fuel). lia.
Qed.

Lemma ai_game_never_ends_witness :
  ai_game 1000 (fun _ => "0 0"%string) White (mkGame endgame_board Black 59 0)
  = Fail OutOfFuel.
Proof.
  assert (Hp : Black <> White) by discriminate.
  assert (Hover : isGameOver endgame_board = Ok false)
    by (vm_compute; reflexivity).
  assert (Hnone : calculateLegalMoves endgame_board White = Ok [])
    by (vm_compute; reflexivity).
  assert (Hai : ai_turn MINIMAX_DEPTH endgame_board Black = Ok endgame_board)
    by (vm_compute; reflexivity).
  exact (ai_game_never_ends _ White endgame_board Black endgame_board_wf Hp
           Hover Hnone Hai 1000%nat 59 0%nat).
Defined.

(** * The program on an implementation

    What the program does where the board lies in memory in row-major
    order (module [Layout]), for every content [mem] of the memory in front
    of the array: every function returns, the list of moves holds every move
    that is legal by the rule and, where the opponent has a piece in column
    0, possibly cells that capture nothing. *)

(** ** The board in memory: reads and walks *)

Lemma concat_lookup_rows {A} (b : list (list A)) (n r c : nat) :
  Forall (fun row => length row = n) b -> (c < n)%nat ->
  concat b !! (r * n + c)%nat = (row ← b !! r; row !! c).
Proof.
  intros Hb Hc. revert r. induction Hb as [|row b Hrow Hb IH]; intros r; simpl.
  - done.
  - destruct r as [|r]; simpl.
    + by rewrite lookup_app_l by lia.
    + rewrite lookup_app_r by lia.
      replace (n + r * n + c - length row)%nat with (r * n + c)%nat by lia.
      apply IH.
Qed.

Lemma concat_length_rows {A} (b : list (list A)) (n : nat) :
  Forall (fun row => length row = n) b ->
  length (concat b) = (length b * n)%nat.
Proof.
  induction 1 as [|row b Hrow Hb IH]; simpl; [done|].
  rewrite length_app, IH. lia.
Qed.

(* inside the board the byte at offset 8 * r + c is the cell (r, c) *)
Lemma Layout_read_on_grid mem b r c :
  wf_board b -> on_grid r c = true -> Layout.read mem b r c = read b r c.
Proof.
  intros [Hlen Hrows] Hg. apply on_grid_spec in Hg as Hr.
  unfold Layout.read, read, cellAt. rewrite Hg.
  destruct (8 * r + c <? 0) eqn:E; [apply Z.ltb_lt in E; lia|].
  replace (Z.to_nat (8 * r + c)) with (Z.to_nat r * 8 + Z.to_nat c)%nat by lia.
  by rewrite (concat_lookup_rows b 8) by (done || lia).
Qed.

(* a read with the row in range and the column not above 7 yields a byte *)
Lemma Layout_read_total mem b r c :
  wf_board b -> 0 <= r <= 7 -> c <= 7 -> exists x, Layout.read mem b r c = Ok x.
Proof.
  intros [Hlen Hrows] Hr Hc. unfold Layout.read.
  destruct (8 * r + c <? 0) eqn:E; [eauto|]. apply Z.ltb_ge in E.
  destruct (lookup_lt_is_Some_2 (concat b) (Z.to_nat (8 * r + c))) as [x ->];
    [|eauto].
  rewrite (concat_length_rows b 8), Hlen by done. lia.
Qed.

(* a read beyond the bytes of [mem] yields no piece *)
Lemma Layout_read_beyond mem b r c x :
  8 * r + c < - Z.of_nat (length mem) ->
  Layout.read mem b r c = Ok x -> x = Empty.
Proof.
  intros H. unfold Layout.read.
  destruct (8 * r + c <? 0) eqn:E; [|apply Z.ltb_ge in E; lia].
  rewrite lookup_ge_None_2 by lia. by intros [= <-].
Qed.

Lemma Layout_walk_done mem fuel b other d0 d1 r c ch :
  ch <> other -> Layout.walk mem fuel b other d0 d1 r c ch = Ok ch.
Proof. intros H. destruct fuel; simpl; by destruct (decide (ch = other)). Qed.

(* where the walk of isFlippable stays inside the board, it is the same walk *)
Lemma Layout_walk_refines mem b other d0 d1 fuel : forall fuel' r c ch y,
  wf_board b -> (fuel <= fuel')%nat ->
  walk off_board_144 fuel b other d0 d1 r c ch = Ok y ->
  Layout.walk mem fuel' b other d0 d1 r c ch = Ok y.
Proof.
  induction fuel as [|fuel IH]; intros fuel' r c ch y Hwf Hf; simpl.
  - destruct (decide (ch = other)); [done|]. intros [= <-].
    by apply Layout_walk_done.
  - destruct (decide (ch = other)) as [->|Hne];
      [|intros [= <-]; by apply Layout_walk_done].
    destruct fuel' as [|fuel']; [lia|]. simpl.
    destruct (decide (other = other)); [|done].
    destruct (off_board_144 (r + d0) (c + d1)); [done|].
    intros H. inv_bind H. apply read_Ok in Ha as Hcell.
    rewrite Layout_read_on_grid by (done || by eapply cellAt_on_grid).
    rewrite Ha. simpl. apply IH; [done | lia | done].
Qed.

Lemma off_board_144_false r c :
  off_board_144 r c = false -> 0 <= r <= 7 /\ c <= 7.
Proof.
  unfold off_board_144. rewrite !orb_false_iff, !Z.gtb_ltb, !Z.ltb_ge. lia.
Qed.

Lemma Layout_walk_total mem b other d0 d1 fuel : forall r c ch,
  wf_board b -> valid_dir (d0, d1) -> other <> Empty ->
  0 <= r <= 7 -> c <= 7 ->
  Layout_steps mem d0 d1 r c <= Z.of_nat fuel ->
  exists y, Layout.walk mem fuel b other d0 d1 r c ch = Ok y.
Proof.
  induction fuel as [|fuel IH]; intros r c ch Hwf Hd Hother Hr Hc Hfuel.
  - unfold Layout_steps in Hfuel.
    destruct (d0 =? 1), (d0 =? -1), (d1 =? 1); lia.
  - simpl. destruct (decide (ch = other)) as [->|]; [|eauto].
    destruct (off_board_144 (r + d0) (c + d1)) eqn:Hoff; [eauto|].
    apply off_board_144_false in Hoff as [Hr' Hc'].
    destruct (Layout_read_total mem b (r + d0) (c + d1) Hwf Hr' Hc') as [x Hx].
    rewrite Hx. simpl.
    destruct (decide (x = other)) as [->|Hne];
      [|exists x; by apply Layout_walk_done].
    apply IH; try done.
    destruct Hd as (H0 & H1 & Hnz). simpl in *.
    unfold Layout_steps in *.
    destruct (Z.eqb_spec d0 1), (Z.eqb_spec d0 (-1)), (Z.eqb_spec d1 1);
      try lia.
    assert (d0 = 0) by lia. assert (d1 = -1) by lia. subst d0 d1.
    destruct (decide (8 * (r + 0) + (c + -1) < - Z.of_nat (length mem)))
      as [Hb|Hb]; [|lia].
    by apply (Layout_read_beyond mem b _ _ _ Hb) in Hx.
Qed.

Lemma Layout_steps_fuel mem d0 d1 r c :
  0 <= r <= 7 -> 0 <= c <= 7 ->
  Layout_steps mem d0 d1 r c <= Z.of_nat (Layout.walk_fuel mem).
Proof.
  intros Hr Hc. unfold Layout_steps, Layout.walk_fuel.
  rewrite Nat2Z.inj_add. change (Z.of_nat 65) with 65.
  destruct (d0 =? 1), (d0 =? -1), (d1 =? 1); lia.
Qed.

Lemma walk_fuel_le mem : (walk_fuel <= Layout.walk_fuel mem)%nat.
Proof. pose proof walk_fuel_eq. unfold Layout.walk_fuel. lia. Qed.

#[global] Opaque Layout.walk_fuel.

(** ** The board in memory: [isFlippable] and the list of moves *)

Lemma Layout_isFlippable_dirs_total mem b p r c ds :
  wf_board b -> Forall valid_dir ds ->
  exists f, Layout.isFlippable_dirs mem b r c p ds = Ok f.
Proof.
  intros Hwf Hds.
  induction Hds as [|[d0 d1] ds Hd Hds IH]; simpl; [eauto|].
  destruct (off_board (r + d0) (c + d1)) eqn:Hoff; [done|].
  rewrite off_board_spec in Hoff. apply negb_false_iff in Hoff.
  rewrite Layout_read_on_grid by done.
  destruct (cellAt_wf b _ _ Hwf Hoff) as [ch Hch].
  rewrite (proj2 (read_Ok _ _ _ _) Hch). simpl.
  destruct (decide (ch = Disc (otherPlayer p))) as [->|]; [|done].
  apply on_grid_spec in Hoff as Hg.
  destruct (Layout_walk_total mem b (Disc (otherPlayer p)) d0 d1
              (Layout.walk_fuel mem) (r + d0) (c + d1) (Disc (otherPlayer p)))
    as [y Hy]; try done; [lia | lia | apply Layout_steps_fuel; lia |].
  rewrite Hy. simpl. destruct (decide (y = Disc p)); eauto.
Qed.

(* where isFlippable stays inside the board, the answer is the same *)
Lemma Layout_isFlippable_dirs_refines mem b p r c ds f :
  wf_board b ->
  isFlippable_dirs b r c p ds = Ok f ->
  Layout.isFlippable_dirs mem b r c p ds = Ok f.
Proof.
  intros Hwf. induction ds as [|[d0 d1] ds IH]; simpl; [done|].
  destruct (off_board (r + d0) (c + d1)) eqn:Hoff; [done|].
  rewrite off_board_spec in Hoff. apply negb_false_iff in Hoff.
  rewrite Layout_read_on_grid by done.
  destruct (read b (r + d0) (c + d1)) as [ch|]; simpl; [|done].
  destruct (decide (ch = Disc (otherPlayer p))) as [->|]; [|done].
  intros H. inv_bind H.
  rewrite (Layout_walk_refines mem b _ d0 d1 walk_fuel _ _ _ _ a Hwf
             (walk_fuel_le mem) Ha).
  simpl. destruct (decide (a = Disc p)); [done | by apply IH].
Qed.

(* isFlippable answers true wherever some direction captures *)
Lemma Layout_isFlippable_dirs_complete mem b p r c ds :
  wf_board b -> Forall valid_dir ds ->
  (exists d, d ∈ ds /\ captures_in b p r c d) ->
  Layout.isFlippable_dirs mem b r c p ds = Ok true.
Proof.
  intros Hwf Hds.
  induction Hds as [|[d0 d1] ds Hd Hds IH]; intros (d & Hin & Hcap).
  { by apply elem_of_nil in Hin. }
  (* the answer of the list when the first direction does not capture *)
  assert (Hrest : ~ captures_in b p r c (d0, d1) ->
            Layout.isFlippable_dirs mem b r c p ds = Ok true).
  { intros Hno. apply IH. exists d. split; [|done].
    apply elem_of_cons in Hin as [->|Hin]; done. }
  (* the first cell of a capturing run *)
  assert (Hfirst : captures_in b p r c (d0, d1) ->
            cellAt b (r + d0) (c + d1) = Some (Disc (otherPlayer p))).
  { intros (k & Hk & Hcells & _). simpl in Hcells.
    specialize (Hcells 1 ltac:(lia)).
    replace (r + 1 * d0) with (r + d0) in Hcells by lia.
    replace (c + 1 * d1) with (c + d1) in Hcells by lia.
    by rewrite otherPlayer_swap_player. }
  simpl.
  destruct (off_board (r + d0) (c + d1)) eqn:Hoff.
  { apply Hrest. intros Hc. apply Hfirst, cellAt_on_grid in Hc.
    rewrite off_board_spec, Hc in Hoff. done. }
  rewrite off_board_spec in Hoff. apply negb_false_iff in Hoff.
  rewrite Layout_read_on_grid by done.
  destruct (cellAt_wf b _ _ Hwf Hoff) as [ch Hch].
  rewrite (proj2 (read_Ok _ _ _ _) Hch). simpl.
  destruct (decide (ch = Disc (otherPlayer p))) as [->|Hne].
  2:{ apply Hrest. intros Hc. apply Hfirst in Hc. congruence. }
  apply on_grid_spec in Hoff as Hg.
  destruct (Layout_walk_total mem b (Disc (otherPlayer p)) d0 d1
              (Layout.walk_fuel mem) (r + d0) (c + d1) (Disc (otherPlayer p)))
    as [y Hy]; try done; [lia | lia | apply Layout_steps_fuel; lia |].
  rewrite Hy. simpl. destruct (decide (y = Disc p)) as [|Hy']; [done|].
  apply Hrest. intros (k & Hrun). simpl in Hrun.
  pose proof (opposing_run_short b p r c d0 d1 Hd k Hrun) as Hshort.
  pose proof (walk_run b p r c d0 d1 off_board_144 walk_fuel
                off_board_144_on_grid 1 k Hrun) as Hw.
  replace (r + 1 * d0) with (r + d0) in Hw by lia.
  replace (c + 1 * d1) with (c + d1) in Hw by lia.
  assert (Hk : 1 <= k) by (by destruct Hrun).
  specialize (Hw ltac:(lia) ltac:(rewrite walk_fuel_eq; lia)).
  apply (Layout_walk_refines mem b _ d0 d1 walk_fuel (Layout.walk_fuel mem))
    in Hw; [|done | apply walk_fuel_le].
  congruence.
Qed.

Lemma Layout_legal_scan_total mem b p sq : forall acc,
  wf_board b -> Forall (fun x : move => on_grid x.1 x.2 = true) sq ->
  exists l, Layout.legal_scan mem b p sq acc = Ok l /\
            exists l', l = acc ++ l' /\ sublist l' sq.
Proof.
  intros acc Hwf Hsq. revert acc.
  induction Hsq as [|[i j] sq Hg Hsq IH]; intros acc; simpl.
  { exists acc. split; [done|]. exists []. by rewrite app_nil_r. }
  simpl in Hg. rewrite Layout_read_on_grid by done.
  destruct (cellAt_wf b i j Hwf Hg) as [x Hx].
  rewrite (proj2 (read_Ok b i j x) Hx). simpl.
  assert (Hskip : exists l, Layout.legal_scan mem b p sq acc = Ok l /\
            exists l', l = acc ++ l' /\ sublist l' ((i, j) :: sq)).
  { destruct (IH acc) as (l & Hl & l' & -> & Hs). exists (acc ++ l').
    split; [done|]. exists l'. split; [done | by constructor]. }
  destruct (decide (x = Empty)); [|done].
  destruct (Layout_isFlippable_dirs_total mem b p i j surroundingPosDeltas Hwf
              surroundingPosDeltas_valid) as [f Hf].
  unfold Layout.isFlippable. rewrite Hf. simpl. destruct f; [|done].
  destruct (IH (acc ++ [(i, j)])) as (l & Hl & l' & -> & Hs).
  exists ((acc ++ [(i, j)]) ++ l'). split; [done|]. exists ((i, j) :: l').
  rewrite <- app_assoc. split; [done | by constructor].
Qed.

Lemma Layout_legal_scan_spec mem b p sq : forall acc l,
  wf_board b -> Forall (fun x : move => on_grid x.1 x.2 = true) sq ->
  Layout.legal_scan mem b p sq acc = Ok l ->
  forall x, x ∈ l <->
    x ∈ acc \/ (x ∈ sq /\ cellAt b x.1 x.2 = Some Empty /\
                Layout.isFlippable mem b x.1 x.2 p = Ok true).
Proof.
  intros acc l Hwf Hsq. revert acc l.
  induction Hsq as [|[i j] sq Hg Hsq IH]; intros acc l; simpl.
  { intros [= <-] x. split; [by left|]. intros [H|(H & _)]; [done|].
    by apply elem_of_nil in H. }
  simpl in Hg. rewrite Layout_read_on_grid by done.
  intros H x. inv_bind H. apply read_Ok in Ha.
  assert (Hskip : (a <> Empty \/ Layout.isFlippable mem b i j p = Ok false) ->
    Layout.legal_scan mem b p sq acc = Ok l ->
    (x ∈ l <-> x ∈ acc \/ (x ∈ (i, j) :: sq /\ cellAt b x.1 x.2 = Some Empty /\
                            Layout.isFlippable mem b x.1 x.2 p = Ok true))).
  { intros Hno Hl. rewrite (IH _ _ Hl x). split.
    - intros [?|(? & ?)]; [by left|]. right. split; [by right | done].
    - intros [?|(Hin & He & Hf)]; [by left|].
      apply elem_of_cons in Hin as [->|Hin]; [|by right].
      simpl in *. destruct Hno; congruence. }
  destruct (decide (a = Empty)) as [->|Hne]; [|apply Hskip; auto].
  inv_bind H. destruct a; [|apply Hskip; auto].
  rewrite (IH _ _ H x), elem_of_app, list_elem_of_singleton, elem_of_cons.
  split.
  - intros [[? | ->] | (? & ?)]; [by left| |].
    + right. split; [by left | done].
    + right. split; [by right | done].
  - intros [? | ([-> | Hin] & He & Hf)]; [by left; left| |].
    + left. by right.
    + by right.
Qed.

Lemma Layout_legal_scan_refines mem b p sq : forall acc l,
  wf_board b ->
  legal_scan b p sq acc = Ok l -> Layout.legal_scan mem b p sq acc = Ok l.
Proof.
  intros acc l Hwf. revert acc.
  induction sq as [|[i j] sq IH]; intros acc; simpl; [done|].
  intros H. inv_bind H. apply read_Ok in Ha as Hcell.
  rewrite Layout_read_on_grid by (done || by eapply cellAt_on_grid).
  rewrite Ha. simpl.
  destruct (decide (a = Empty)); [|by apply IH].
  inv_bind H.
  unfold Layout.isFlippable.
  rewrite (Layout_isFlippable_dirs_refines mem b p i j _ a0 Hwf Ha0). simpl.
  destruct a0; by apply IH.
Qed.

(* the list of moves on an implementation: it is always computed; it holds
   empty cells of the grid in row-major order, and every move that is legal
   by the rule *)
Lemma Layout_calculateLegalMoves_total mem b p :
  wf_board b ->
  exists l, Layout.calculateLegalMoves mem b p = Ok l /\
    sublist l squares /\
    (forall r c, (r, c) ∈ l -> cellAt b r c = Some Empty) /\
    (forall r c, legal_by_rule b p r c -> (r, c) ∈ l).
Proof.
  intros Hwf. unfold Layout.calculateLegalMoves.
  destruct (Layout_legal_scan_total mem b p squares [] Hwf squares_on_grid)
    as (l & Hl & l' & -> & Hs).
  exists ([] ++ l'). split; [done|]. split; [done|].
  pose proof (Layout_legal_scan_spec mem b p squares [] _ Hwf squares_on_grid
                Hl) as Hspec.
  split.
  - intros r c Hin. apply Hspec in Hin as [Hin|(_ & He & _)]; [|done].
    by apply elem_of_nil in Hin.
  - intros r c [He Hcap]. apply Hspec. right. simpl.
    split; [by apply elem_of_squares; eapply cellAt_on_grid|].
    split; [done|].
    by apply Layout_isFlippable_dirs_complete;
      [|apply surroundingPosDeltas_valid|].
Qed.

Lemma Layout_calculateLegalMoves_refines mem b p l :
  wf_board b ->
  calculateLegalMoves b p = Ok l -> Layout.calculateLegalMoves mem b p = Ok l.
Proof. intros Hwf. by apply Layout_legal_scan_refines. Qed.

(* where the opponent has no piece in column 0 the list is that of the
   capture rule, and no cell outside the board is read *)
Lemma Layout_calculateLegalMoves_safe mem b p :
  wf_board b ->
  (forall r, cellAt b r 0 <> Some (Disc (otherPlayer p))) ->
  exists l, Layout.calculateLegalMoves mem b p = Ok l /\
    calculateLegalMoves b p = Ok l /\
    forall r c, (r, c) ∈ l <-> legal_by_rule b p r c.
Proof.
  intros Hwf Hcol.
  destruct (legal_scan_safe b p squares [] Hwf squares_on_grid Hcol) as [l Hl].
  exists l. split; [by apply Layout_calculateLegalMoves_refines|].
  split; [done|]. by apply calculateLegalMoves_spec.
Qed.

Lemma Layout_moves_of_mover mem b p :
  (if decide (p = White) then Layout.getWhiteLegalMoves mem b
   else Layout.getBlackLegalMoves mem b)
  = Layout.calculateLegalMoves mem b p.
Proof. by destruct p. Qed.

(** ** The board in memory: [CreateTree] *)

Lemma sublist_squares_on_grid (l : list move) :
  sublist l squares -> Forall (fun x : move => on_grid x.1 x.2 = true) l.
Proof.
  intros Hs. apply Forall_forall. intros [r c] Hin. simpl.
  apply elem_of_squares. by eapply elem_of_sublist.
Qed.

Lemma Layout_CreateTree_n_total mem n : forall b p,
  wf_board b ->
  exists t, Layout.CreateTree_n mem n b p = Ok t /\ Layout.built_as mem n b p t.
Proof.
  induction n as [|n IH]; intros b p Hwf; simpl;
    rewrite Layout_moves_of_mover;
    destruct (Layout_calculateLegalMoves_total mem b p Hwf)
      as (ml & Hml & Hs & _); rewrite Hml; simpl.
  - eexists. split; [reflexivity|]. simpl. done.
  - destruct (0 <? Z.of_nat (length ml)) eqn:Hpos.
    + (* the children, one per move of the list *)
      assert (Hkids : forall l,
        Forall (fun x : move => on_grid x.1 x.2 = true) l ->
        exists kids,
          mapM (fun m : move =>
                  tmp_board ← makeMove b m.1 m.2 p;
                  Layout.CreateTree_n mem n tmp_board (other_player p)) l
          = Ok kids /\
          Forall2 (fun (m : move) (c : Node) =>
                     exists b', makeMove b m.1 m.2 p = Ok b' /\
                                Layout.built_as mem n b' (swap_player p) c)
                  l kids).
      { induction 1 as [|[r c] l Hg Hl IHl]; simpl.
        - exists []. split; [done | constructor].
        - simpl in Hg.
          destruct (makeMove_spec b p r c Hwf Hg) as (b' & Hm & Hwf' & _).
          rewrite Hm. simpl.
          destruct (IH b' (other_player p) Hwf') as (t & Ht & Hb).
          rewrite Ht. simpl.
          destruct IHl as (kids & -> & Hall). simpl.
          exists (t :: kids). split; [done|]. constructor; [|done].
          exists b'. split; [done|]. by rewrite <- other_player_swap. }
      destruct (Hkids ml (sublist_squares_on_grid ml Hs)) as (kids & -> & Hall).
      simpl. eexists. split; [reflexivity|]. simpl.
      repeat (split; [done|]).
      destruct (decide (ml = [])) as [->|]; [done|]. by exists kids.
    + eexists. split; [reflexivity|]. simpl.
      repeat (split; [done|]).
      destruct (decide (ml = [])) as [|Hne]; [done|].
      destruct ml; [done|]. apply Z.ltb_ge in Hpos. simpl length in Hpos. lia.
Qed.

Lemma mapM_Ok_impl {A B} (f g : A -> result B) (l : list A) (k : list B) :
  (forall x y, f x = Ok y -> g x = Ok y) ->
  mapM f l = Ok k -> mapM g l = Ok k.
Proof.
  intros Hfg. revert k. induction l as [|x l IH]; intros k; simpl; [done|].
  intros H. inv_bind H. inv_bind H. injection H as <-.
  by rewrite (Hfg _ _ Ha), (IH _ Ha0).
Qed.

(* where CreateTree stays inside the board, the tree is the same *)
Lemma Layout_CreateTree_n_refines mem n : forall b p t,
  wf_board b ->
  CreateTree_n n b p = Ok t -> Layout.CreateTree_n mem n b p = Ok t.
Proof.
  induction n as [|n IH]; intros b p t Hwf; simpl;
    rewrite moves_of_mover, Layout_moves_of_mover; intros H; inv_bind H;
    rewrite (Layout_calculateLegalMoves_refines mem b p a Hwf Ha); simpl;
    [done|].
  destruct (0 <? Z.of_nat (length a)); [|done].
  inv_bind H. injection H as <-.
  erewrite mapM_Ok_impl; [reflexivity| |exact Ha0].
  intros [r c] y Hy. simpl in *. inv_bind Hy. rewrite Ha1. simpl.
  apply IH; [|done].
  destruct (makeMove_spec b p r c Hwf (makeMove_Ok_on_grid _ _ _ _ _ Ha1))
    as (b' & Hm & Hwf' & _).
  rewrite Ha1 in Hm. by injection Hm as ->.
Qed.

(** C7.  [CreateTree] returns a tree for every board of eight rows of
    eight cells, every player and every depth, whatever lies in front of
    the array, and every node of it is as the specification says: it holds
    the board and the list of [calculateLegalMoves] for the player to move;
    it has no children when that list is empty or the remaining depth is 0
    (child_count still counts the moves), and otherwise one child per move
    of the list, in row-major order, on the board after the move, built for
    the other player with depth - 1.  Where the move generation reads no
    cell outside the board this is the tree of the functions above. *)
Theorem CreateTree_builds (mem : list cell) (b : board) (depth : Z)
    (p : player) :
  wf_board b ->
  exists t,
    Layout.CreateTree mem b depth p = Ok t /\
    Layout.built_as mem (Z.to_nat depth) b p t /\
    forall t', CreateTree b depth p = Ok t' ->
      t' = t /\ built_as (Z.to_nat depth) b p t'.
Proof.
  intros Hwf. unfold Layout.CreateTree, CreateTree.
  destruct (Layout_CreateTree_n_total mem (Z.to_nat depth) b p Hwf)
    as (t & Ht & Hb).
  exists t. split; [done|]. split; [done|]. intros t' Ht'.
  split; [|by apply CreateTree_n_built].
  apply (Layout_CreateTree_n_refines mem) in Ht' as Ht''; [|done].
  rewrite Ht in Ht''. by injection Ht''.
Qed.

Lemma CreateTree_builds_witness :
  wf_board initial_board /\
  exists t,
    Layout.CreateTree [] initial_board MINIMAX_DEPTH Black = Ok t /\
    Layout.built_as [] (Z.to_nat MINIMAX_DEPTH) initial_board Black t /\
    nodes t = 1713 /\
    CreateTree initial_board MINIMAX_DEPTH Black = Fail OutOfBounds.
Proof.
  split; [exact initial_board_wf|].
  destruct (CreateTree_builds [] initial_board MINIMAX_DEPTH Black
              initial_board_wf) as (t & Ht & Hb & _).
  exists t. split; [exact Ht|]. split; [exact Hb|]. split.
  - assert (Hn : nodes <$> Layout.CreateTree [] initial_board MINIMAX_DEPTH Black
                 = Ok 1713) by (vm_compute; reflexivity).
    rewrite Ht in Hn. by injection Hn.
  - vm_compute. reflexivity.
Defined.

(** ** The board in memory: the answers of [isFlippable] and [isLegalMove] *)

(** X5.  [isFlippable] against [flip].  For a cell of the grid
    [isFlippable] returns, whatever lies in front of the array, and it
    answers true wherever [makeMove] on that cell turns over a disc (changes
    a cell other than the one played).  Where the opponent of the mover has
    no piece in column 0 it reads no cell outside the board and answers true
    there only. *)
Theorem isFlippable_covers_flip (mem : list cell) (b : board) (p : player)
    (r c : Z) :
  wf_board b -> on_grid r c = true ->
  exists f b',
    Layout.isFlippable mem b r c p = Ok f /\
    makeMove b r c p = Ok b' /\
    ((exists r' c', (r', c') <> (r, c) /\ cellAt b' r' c' <> cellAt b r' c') ->
     f = true) /\
    ((forall r', cellAt b r' 0 <> Some (Disc (otherPlayer p))) ->
     isFlippable b r c p = Ok f /\
     (f = true ->
      exists r' c', (r', c') <> (r, c) /\ cellAt b' r' c' <> cellAt b r' c')).
Proof.
  intros Hwf Hg.
  destruct (Layout_isFlippable_dirs_total mem b p r c surroundingPosDeltas Hwf
              surroundingPosDeltas_valid) as [f Hf].
  destruct (makeMove_spec b p r c Hwf Hg) as (b' & Hm & _).
  pose proof (flip_turns_iff_captures b p r c b' Hwf Hg Hm) as Hturn.
  exists f, b'. split; [done|]. split; [done|]. split.
  - intros Hch. apply Hturn in Hch.
    unfold Layout.isFlippable in Hf.
    rewrite (Layout_isFlippable_dirs_complete mem b p r c surroundingPosDeltas
               Hwf surroundingPosDeltas_valid Hch) in Hf.
    by injection Hf.
  - intros Hcol.
    destruct (isFlippable_dirs_safe b p r c surroundingPosDeltas Hwf
                surroundingPosDeltas_valid Hcol) as [f0 Hf0].
    pose proof (Layout_isFlippable_dirs_refines mem b p r c _ f0 Hwf Hf0) as Hl.
    unfold Layout.isFlippable in Hf. rewrite Hf in Hl. injection Hl as ->.
    split; [done|]. intros ->. apply Hturn.
    by apply (isFlippable_dirs_spec b p r c surroundingPosDeltas true
                surroundingPosDeltas_valid Hf0).
Qed.

Lemma isFlippable_covers_flip_witness :
  exists b',
    Layout.isFlippable [] left_edge_board 3 1 Black = Ok true /\
    makeMove left_edge_board 3 1 Black = Ok b' /\
    (forall r' c', (r', c') <> (3, 1) ->
       cellAt b' r' c' = cellAt left_edge_board r' c') /\
    Layout.isFlippable [] left_edge_board 2 3 Black = Ok true.
Proof.
  destruct (isFlippable_covers_flip [] left_edge_board Black 3 1
              left_edge_board_wf eq_refl) as (f & b' & Hf & Hm & _).
  exists b'.
  assert (Hf' : Layout.isFlippable [] left_edge_board 3 1 Black = Ok true)
    by (vm_compute; reflexivity).
  split; [exact Hf'|]. split; [exact Hm|]. split.
  - intros r' c' Hne.
    destruct (decide (on_grid r' c' = true)) as [Hg|Hg].
    + apply on_grid_spec in Hg.
      vm_compute in Hm. injection Hm as <-.
      assert (r' = 0 \/ r' = 1 \/ r' = 2 \/ r' = 3 \/ r' = 4 \/ r' = 5 \/
              r' = 6 \/ r' = 7) as Hr by lia.
      assert (c' = 0 \/ c' = 1 \/ c' = 2 \/ c' = 3 \/ c' = 4 \/ c' = 5 \/
              c' = 6 \/ c' = 7) as Hc by lia.
      destruct Hr as [-> | [-> | [-> | [-> | [-> | [-> | [-> | ->]]]]]]];
        destruct Hc as [-> | [-> | [-> | [-> | [-> | [-> | [-> | ->]]]]]]];
        done.
    + apply not_true_is_false in Hg. by rewrite !cellAt_off_grid.
  - vm_compute. reflexivity.
Defined.

(** X9.  [isLegalMove] as main calls it, with the list that
    [calculateLegalMoves] has returned for the same board and player.  For
    a cell of the grid it returns, whatever lies in front of the array, and
    leaves the board as it was; it answers true exactly when the cell is in
    the list, never for a cell that is not empty, and always for a move that
    is legal by the capture rule.  Where the opponent of the mover has no
    piece in column 0 no cell outside the board is read and it answers true
    exactly for the moves that are legal by the rule. *)
Theorem isLegalMove_on_generated_list (mem : list cell) (b : board)
    (p : player) (row col : Z) :
  wf_board b -> on_grid row col = true ->
  exists ml (answer : bool),
    Layout.calculateLegalMoves mem b p = Ok ml /\
    isLegalMove b ml row col p = Ok (answer, b) /\
    (answer = true <-> (row, col) ∈ ml) /\
    (answer = true -> cellAt b row col = Some Empty) /\
    (legal_by_rule b p row col -> answer = true) /\
    ((forall r, cellAt b r 0 <> Some (Disc (otherPlayer p))) ->
     calculateLegalMoves b p = Ok ml /\
     (answer = true <-> legal_by_rule b p row col)).
Proof.
  intros Hwf Hg.
  destruct (Layout_calculateLegalMoves_total mem b p Hwf)
    as (ml & Hml & _ & Hempty & Hall).
  assert (exists answer : bool,
            isLegalMove b ml row col p = Ok (answer, b) /\
            (answer = true <-> (row, col) ∈ ml)) as (answer & Ha & Hin).
  { unfold isLegalMove.
    replace ((row >? 7) || (row <? 0) || (col >? 7) || (col <? 0))
      with (off_board row col) by done.
    rewrite off_board_on_grid by done.
    destruct (cellAt_wf b row col Hwf Hg) as [x Hx].
    rewrite (proj2 (read_Ok _ _ _ _) Hx). simpl.
    destruct (decide (x <> Empty)) as [Hne|He].
    - exists false. split; [done|]. split; [done|].
      intros Hin. apply Hempty in Hin. congruence.
    - destruct (decide ((row, col) ∈ ml)) as [Hin|Hin].
      + by exists true.
      + by exists false. }
  exists ml, answer. split; [done|]. split; [done|]. split; [done|].
  split; [|split].
  - intros H. apply Hempty. by apply Hin.
  - intros H. apply Hin. by apply Hall.
  - intros Hcol.
    destruct (Layout_calculateLegalMoves_safe mem b p Hwf Hcol)
      as (l & Hl & Hs & Hrule).
    rewrite Hml in Hl. injection Hl as <-. split; [done|].
    by rewrite Hin, Hrule.
Qed.

Lemma isLegalMove_on_generated_list_witness :
  exists ml (answer : bool),
    Layout.calculateLegalMoves [] initial_board Black = Ok ml /\
    isLegalMove initial_board ml 3 2 Black = Ok (answer, initial_board) /\
    (answer = true <-> legal_by_rule initial_board Black 3 2).
Proof.
  destruct (isLegalMove_on_generated_list [] initial_board Black 3 2
              initial_board_wf eq_refl)
    as (ml & answer & Hml & Ha & _ & _ & _ & Hsafe).
  exists ml, answer. split; [exact Hml|]. split; [exact Ha|].
  apply Hsafe.
  intros r H. apply cellAt_on_grid in H as Hg. apply on_grid_spec in Hg.
  assert (r = 0 \/ r = 1 \/ r = 2 \/ r = 3 \/ r = 4 \/ r = 5 \/ r = 6 \/ r = 7)
    as Hr by lia.
  destruct Hr as [-> | [-> | [-> | [-> | [-> | [-> | [-> | ->]]]]]]];
    discriminate H.
Defined.

(** ** The board in memory: [isGameOver] *)

Lemma Layout_isGameOver_total mem b :
  wf_board b ->
  exists bm wm,
    Layout.calculateLegalMoves mem b Black = Ok bm /\
    Layout.calculateLegalMoves mem b White = Ok wm /\
    Layout.isGameOver mem b = Ok (bool_decide (bm = [] /\ wm = [])).
Proof.
  intros Hwf.
  destruct (Layout_calculateLegalMoves_total mem b Black Hwf) as (bm & Hbm & _).
  destruct (Layout_calculateLegalMoves_total mem b White Hwf) as (wm & Hwm & _).
  exists bm, wm. split; [done|]. split; [done|].
  unfold Layout.isGameOver, Layout.getBlackLegalMoves,
    Layout.getWhiteLegalMoves.
  rewrite Hbm. simpl. destruct bm as [|m bm].
  - rewrite Hwm. simpl. f_equal. apply bool_decide_ext.
    split; [done | by intros [_ ?]].
  - by f_equal.
Qed.

Lemma Layout_isGameOver_refines mem b g :
  wf_board b -> isGameOver b = Ok g -> Layout.isGameOver mem b = Ok g.
Proof.
  intros Hwf. unfold isGameOver, Layout.isGameOver, getBlackLegalMoves,
    getWhiteLegalMoves, Layout.getBlackLegalMoves, Layout.getWhiteLegalMoves.
  intros H. inv_bind H.
  rewrite (Layout_calculateLegalMoves_refines mem b Black a Hwf Ha). simpl.
  destruct a; [|done]. inv_bind H.
  by rewrite (Layout_calculateLegalMoves_refines mem b White a Hwf Ha0).
Qed.

(** X10.  [isGameOver] returns on every board of eight rows of eight
    cells, whatever lies in front of the array, and it never returns true
    while a player has a move that is legal by the capture rule.  Where
    column 0 holds no piece, no cell outside the board is read and it
    returns true exactly when neither player has a legal move. *)
Theorem isGameOver_means_no_legal_move (mem : list cell) (b : board) :
  wf_board b ->
  exists g,
    Layout.isGameOver mem b = Ok g /\
    (g = true -> forall p r c, ~ legal_by_rule b p r c) /\
    ((forall r q, cellAt b r 0 <> Some (Disc q)) ->
     isGameOver b = Ok g /\
     (g = true <-> forall p r c, ~ legal_by_rule b p r c)).
Proof.
  intros Hwf.
  destruct (Layout_isGameOver_total mem b Hwf) as (bm & wm & Hbm & Hwm & Hg).
  destruct (Layout_calculateLegalMoves_total mem b Black Hwf)
    as (bm' & Hbm' & _ & _ & Hball).
  destruct (Layout_calculateLegalMoves_total mem b White Hwf)
    as (wm' & Hwm' & _ & _ & Hwall).
  rewrite Hbm in Hbm'. injection Hbm' as <-.
  rewrite Hwm in Hwm'. injection Hwm' as <-.
  eexists. split; [exact Hg|]. split.
  - intros H. apply bool_decide_eq_true in H as [-> ->]. intros p r c Hl.
    destruct p; [apply Hball in Hl | apply Hwall in Hl];
      by apply elem_of_nil in Hl.
  - intros Hcol.
    destruct (Layout_calculateLegalMoves_safe mem b Black Hwf
                (fun r => Hcol r _)) as (l1 & Hl1 & Hs1 & Hr1).
    destruct (Layout_calculateLegalMoves_safe mem b White Hwf
                (fun r => Hcol r _)) as (l2 & Hl2 & Hs2 & Hr2).
    rewrite Hbm in Hl1. injection Hl1 as <-.
    rewrite Hwm in Hl2. injection Hl2 as <-.
    split.
    + unfold isGameOver, getBlackLegalMoves, getWhiteLegalMoves.
      rewrite Hs1. simpl. destruct bm as [|m bm].
      * rewrite Hs2. simpl. f_equal. apply bool_decide_ext.
    split; [done | by intros [_ ?]].
      * by f_equal.
    + rewrite bool_decide_eq_true. split.
      * intros [-> ->] p r c Hl.
        destruct p; [apply Hr1 in Hl | apply Hr2 in Hl];
          by apply elem_of_nil in Hl.
      * intros Hno. split.
        -- destruct bm as [|[r0 c0] bm]; [done|].
           destruct (Hno Black r0 c0). apply Hr1. left.
        -- destruct wm as [|[r0 c0] wm]; [done|].
           destruct (Hno White r0 c0). apply Hr2. left.
Qed.

Lemma isGameOver_means_no_legal_move_witness :
  exists g,
    Layout.isGameOver [] initial_board = Ok g /\
    isGameOver initial_board = Ok g /\
    (g = true <-> forall p r c, ~ legal_by_rule initial_board p r c) /\
    g = false.
Proof.
  destruct (isGameOver_means_no_legal_move [] initial_board initial_board_wf)
    as (g & Hg & _ & Hsafe).
  assert (Hcol : forall r q, cellAt initial_board r 0 <> Some (Disc q)).
  { intros r q H. apply cellAt_on_grid in H as Hgr. apply on_grid_spec in Hgr.
    assert (r = 0 \/ r = 1 \/ r = 2 \/ r = 3 \/ r = 4 \/ r = 5 \/ r = 6 \/ r = 7)
      as Hr by lia.
    destruct Hr as [-> | [-> | [-> | [-> | [-> | [-> | [-> | ->]]]]]]];
      discriminate H. }
  destruct (Hsafe Hcol) as [Hs Hiff].
  exists g. split; [exact Hg|]. split; [exact Hs|]. split; [exact Hiff|].
  vm_compute in Hs. by injection Hs.
Defined.

(** ** The board in memory: the search *)

Section AnySearch.
(* a search: the recursive call of a loop over the children *)
Variable rec : Node -> Z -> Z -> Z -> bool -> result (Z * Node).

Lemma max_loop_keeps e d beta cs :
  Forall (fun c => forall d' a b' m v c',
            rec c d' a b' m = Ok (v, c') -> forget_val c' = forget_val c) cs ->
  forall todo alpha M r kids,
    max_loop rec e d beta cs todo alpha M = Ok (r, kids) ->
    map forget_val kids = map forget_val cs.
Proof.
  induction 1 as [|c cs Hc Hcs IH]; intros todo alpha M r kids H;
    destruct todo as [|todo]; simpl in H; try (by injection H as <- <-);
    try discriminate.
  inv_bind H. destruct a as [ev c']. apply Hc in Ha.
  destruct (beta <=? Z.max alpha ev).
  - injection H as <- <-. simpl. by rewrite Ha.
  - inv_bind H. destruct a as [m cs'']. injection H as <- <-.
    simpl. rewrite Ha. f_equal. eauto.
Qed.

Lemma min_loop_keeps e d alpha cs :
  Forall (fun c => forall d' a b' m v c',
            rec c d' a b' m = Ok (v, c') -> forget_val c' = forget_val c) cs ->
  forall todo beta M r kids,
    min_loop rec e d alpha cs todo beta M = Ok (r, kids) ->
    map forget_val kids = map forget_val cs.
Proof.
  induction 1 as [|c cs Hc Hcs IH]; intros todo beta M r kids H;
    destruct todo as [|todo]; simpl in H; try (by injection H as <- <-);
    try discriminate.
  inv_bind H. destruct a as [ev c']. apply Hc in Ha.
  destruct (Z.min beta ev <=? alpha).
  - injection H as <- <-. simpl. by rewrite Ha.
  - inv_bind H. destruct a as [m cs'']. injection H as <- <-.
    simpl. rewrite Ha. f_equal. eauto.
Qed.

Lemma max_loop_returns e d beta cs :
  (forall c, c ∈ cs -> forall a b' m,
     exists v t', rec c (d - 1) a b' m = Ok (v, t')) ->
  forall todo alpha M, (todo <= length cs)%nat ->
    exists r kids, max_loop rec e d beta cs todo alpha M = Ok (r, kids).
Proof.
  induction cs as [|c cs IH]; intros Hcs todo alpha M Hlen;
    destruct todo as [|todo]; simpl in *; eauto; [lia|].
  destruct (Hcs c (list_elem_of_here _ _) alpha beta false) as (v & c' & ->).
  simpl. destruct (beta <=? Z.max alpha v); [eauto|].
  destruct (IH (fun c0 H0 => Hcs c0 (list_elem_of_further _ _ _ H0)) todo
              (Z.max alpha v) (Z.max M v)) as (r & kids & ->); [lia|].
  simpl. eauto.
Qed.

Lemma min_loop_returns e d alpha cs :
  (forall c, c ∈ cs -> forall a b' m,
     exists v t', rec c (d - 1) a b' m = Ok (v, t')) ->
  forall todo beta M, (todo <= length cs)%nat ->
    exists r kids, min_loop rec e d alpha cs todo beta M = Ok (r, kids).
Proof.
  induction cs as [|c cs IH]; intros Hcs todo beta M Hlen;
    destruct todo as [|todo]; simpl in *; eauto; [lia|].
  destruct (Hcs c (list_elem_of_here _ _) alpha beta true) as (v & c' & ->).
  simpl. destruct (Z.min beta v <=? alpha); [eauto|].
  destruct (IH (fun c0 H0 => Hcs c0 (list_elem_of_further _ _ _ H0)) todo
              (Z.min beta v) (Z.min M v)) as (r & kids & ->); [lia|].
  simpl. eauto.
Qed.

End AnySearch.

Lemma Layout_minimax_eq mem t d alpha beta m :
  Layout.minimax mem t d alpha beta m =
  base ← Layout.at_base mem t d;
  if (base : bool) then h ← Layout.heuristic mem (state t); Ok (h, t)
  else if m then
    '(max_eval, kids) ←
      max_loop (Layout.minimax mem) (no_child t) d beta (kids_of t)
        (Z.to_nat (child_count t)) alpha (-9999999);
    Ok (max_eval, store t kids max_eval)
  else
    '(min_eval, kids) ←
      min_loop (Layout.minimax mem) (no_child t) d alpha (kids_of t)
        (Z.to_nat (child_count t)) beta 9999999;
    Ok (min_eval, store t kids min_eval).
Proof. destruct t as [[cs|] cc ml st v]; reflexivity. Qed.

(* the search writes val fields and nothing else *)
Lemma Layout_minimax_keeps mem t : forall d alpha beta m v t',
  Layout.minimax mem t d alpha beta m = Ok (v, t') ->
  forget_val t' = forget_val t.
Proof.
  induction t as [t IH] using Node_ind. intros d alpha beta m v t'.
  rewrite Layout_minimax_eq. intros H. inv_bind H. destruct a.
  - inv_bind H. by injection H as <- <-.
  - destruct m; inv_bind H; destruct a as [r kids]; injection H as <- <-;
      apply forget_val_store.
    + eapply max_loop_keeps; eauto.
    + eapply min_loop_keeps; eauto.
Qed.

Lemma corner_total b r c t :
  wf_board b -> on_grid r c = true -> exists t', corner b r c t = Ok t'.
Proof.
  intros Hwf Hg. unfold corner. destruct t as [bt wt].
  destruct (cellAt_wf b r c Hwf Hg) as [x Hx].
  rewrite (proj2 (read_Ok _ _ _ _) Hx). simpl. eauto.
Qed.

Lemma Layout_heuristic_total mem b :
  wf_board b -> exists h, Layout.heuristic mem b = Ok h.
Proof.
  intros Hwf. unfold Layout.heuristic, Layout.getBlackLegalMoves,
    Layout.getWhiteLegalMoves.
  destruct (Layout_calculateLegalMoves_total mem b Black Hwf) as (bm & -> & _).
  destruct (Layout_calculateLegalMoves_total mem b White Hwf) as (wm & -> & _).
  simpl. rewrite !getScore_wf by done. simpl.
  destruct (corner_total b 0 0
              (0 + Z.of_nat (length bm) + pieces_on b Black squares,
               0 + Z.of_nat (length wm) + pieces_on b White squares) Hwf eq_refl)
    as [t1 ->]. simpl.
  destruct (corner_total b 7 0 t1 Hwf eq_refl) as [t2 ->]. simpl.
  destruct (corner_total b 0 7 t2 Hwf eq_refl) as [t3 ->]. simpl.
  destruct (corner_total b 7 7 t3 Hwf eq_refl) as [t4 ->]. simpl.
  eauto.
Qed.

Lemma makeMove_wf b p r c b' :
  wf_board b -> makeMove b r c p = Ok b' -> wf_board b'.
Proof.
  intros Hwf Hm.
  destruct (makeMove_spec b p r c Hwf (makeMove_Ok_on_grid _ _ _ _ _ Hm))
    as (b1 & Hm1 & Hwf1 & _).
  rewrite Hm in Hm1. by injection Hm1 as ->.
Qed.

(* a search no deeper than the tree returns *)
Lemma Layout_built_as_completes mem n : forall b p t d alpha beta m,
  wf_board b -> Layout.built_as mem n b p t -> 0 <= d <= Z.of_nat n ->
  exists v t', Layout.minimax mem t d alpha beta m = Ok (v, t').
Proof.
  induction n as [|n IH]; intros b p t d alpha beta m Hwf Hb Hd;
    rewrite Layout_minimax_eq; unfold Layout.at_base;
    pose proof Hb as Hb0;
    (assert (Hs : state t = b) by (by destruct Hb0 as (? & _)));
    rewrite Hs;
    destruct (Layout_heuristic_total mem b Hwf) as [h Hh].
  - destruct (decide (d = 0)); [|lia]. simpl. rewrite Hh. simpl. eauto.
  - destruct (decide (d = 0)); [simpl; rewrite Hh; simpl; eauto|].
    destruct (Layout_isGameOver_total mem b Hwf) as (bm & wm & _ & _ & ->).
    simpl. destruct (bool_decide _); [rewrite Hh; simpl; eauto|].
    destruct Hb as (_ & Hc & _ & Hcc & Hch).
    assert (Hkids : (Z.to_nat (child_count t) <= length (kids_of t))%nat /\
      forall c, c ∈ kids_of t -> forall a b' m',
        exists v t', Layout.minimax mem c (d - 1) a b' m' = Ok (v, t')).
    { destruct (decide (move_list t = [])) as [E|E].
      - rewrite Hcc, E. unfold kids_of. rewrite Hch. simpl. split; [lia|].
        intros c Hin. by apply elem_of_nil in Hin.
      - destruct Hch as (kids & Hch & Hall). unfold kids_of at 1. rewrite Hch.
        rewrite Hcc, Nat2Z.id, (Forall2_length _ _ _ Hall). split; [lia|].
        intros c Hin a b' m'.
        apply list_elem_of_lookup in Hin as [i Hi].
        assert (Hi' : kids !! i = Some c)
          by (unfold kids_of in Hi; by rewrite Hch in Hi).
        destruct (Forall2_lookup_r _ _ _ _ _ Hall Hi')
          as (mv & _ & b1 & Hmk & Hb1).
        apply (IH b1 (swap_player p) c); [by eapply makeMove_wf | done | lia]. }
    destruct Hkids as [Hlen Hall].
    destruct m.
    + destruct (max_loop_returns (Layout.minimax mem) (no_child t) d beta
                  (kids_of t) Hall (Z.to_nat (child_count t)) alpha
                  (-9999999) Hlen) as (r & kids & ->). simpl. eauto.
    + destruct (min_loop_returns (Layout.minimax mem) (no_child t) d alpha
                  (kids_of t) Hall (Z.to_nat (child_count t)) beta
                  9999999 Hlen) as (r & kids & ->). simpl. eauto.
Qed.

(** ** The board in memory: the engine's turn *)

Lemma compared_on_grid :
  Forall (fun x : move => on_grid x.1 x.2 = true) compared.
Proof.
  apply Forall_forall. intros [j k] H. apply elem_of_compared in H.
  apply on_grid_spec. simpl. lia.
Qed.

Lemma same_config_scan_total st b sq : forall acc,
  wf_board st -> wf_board b ->
  Forall (fun x : move => on_grid x.1 x.2 = true) sq ->
  exists s, same_config_scan st b sq acc = Ok s.
Proof.
  intros acc Hst Hb Hsq. revert acc.
  induction Hsq as [|[j k] sq Hg Hsq IH]; intros acc; simpl; [eauto|].
  simpl in Hg.
  destruct (cellAt_wf st j k Hst Hg) as [x Hx].
  destruct (cellAt_wf b j k Hb Hg) as [y Hy].
  rewrite (proj2 (read_Ok _ _ _ _) Hx), (proj2 (read_Ok _ _ _ _) Hy). simpl.
  apply IH.
Qed.

(* the scan of the children returns when the array holds a child for
   every index below child_count *)
Lemma choose_total e b ml p v cs :
  wf_board b -> Forall (fun c => wf_board (state c)) cs ->
  (cs <> [] -> exists m, head ml = Some m /\ on_grid m.1 m.2 = true) ->
  forall todo, (todo <= length cs)%nat ->
    exists b', choose e b ml p v cs todo = Ok b'.
Proof.
  intros Hwf Hcs Hml. induction Hcs as [|c cs Hc Hcs IH]; intros todo Hlen;
    destruct todo as [|todo]; simpl in Hlen; try lia;
    try (by exists b).
  rewrite choose_cons.
  destruct (decide (val c = v)).
  - destruct (same_config_scan_total (state c) b compared true Hc Hwf
                compared_on_grid) as [s ->]. simpl.
    destruct s; simpl; [|eauto].
    destruct (Hml ltac:(done)) as (m & Hm & Hg).
    destruct ml as [|m' ml]; [done|]. injection Hm as ->.
    destruct (makeMove_spec b p m.1 m.2 Hwf Hg) as (b' & -> & _). eauto.
  - destruct cs as [|c0 cs].
    + destruct todo; [by exists b | simpl in Hlen; lia].
    + apply IH; [|lia]. intros _. apply Hml. done.
Qed.

(* the engine's turn returns, with the board it was given or the board
   after a move of the list *)
Lemma Layout_ai_turn_returns mem depth b p :
  wf_board b -> 1 <= depth ->
  exists ml b',
    Layout.calculateLegalMoves mem b p = Ok ml /\
    Layout.ai_turn mem depth b p = Ok b' /\
    (b' = b \/ exists r c, (r, c) ∈ ml /\ makeMove b r c p = Ok b').
Proof.
  intros Hwf Hdepth.
  destruct (Layout_calculateLegalMoves_total mem b p Hwf)
    as (ml & Hml & Hsub & _).
  destruct (Layout_CreateTree_n_total mem (Z.to_nat depth) b p Hwf)
    as (t & Ht & Hb).
  destruct (Layout_built_as_completes mem (Z.to_nat depth) b p t depth
              (-99999999) 99999999 (maximizer p) Hwf Hb ltac:(lia))
    as (v & t' & Hs).
  pose proof (Layout_minimax_keeps mem t _ _ _ _ _ _ Hs) as Hfv.
  (* the shape of the root *)
  destruct (Z.to_nat depth) as [|n] eqn:En; [lia|].
  simpl in Hb. destruct Hb as (Hst & Hc & _ & Hcc & Hch).
  rewrite Hml in Hc. injection Hc as Hmv.
  assert (Hkids : length (kids_of t) = length ml /\
    forall i c, kids_of t !! i = Some c ->
      wf_board (state c) /\
      exists m, ml !! i = Some m /\ makeMove b m.1 m.2 p = Ok (state c)).
  { rewrite <- Hmv in *. destruct (decide (ml = [])) as [->|Hne].
    - unfold kids_of. rewrite Hch. split; [done|]. intros i c Hi. done.
    - destruct Hch as (kids & Hch & Hall). unfold kids_of. rewrite Hch.
      split; [by rewrite (Forall2_length _ _ _ Hall)|].
      intros i c Hi.
      destruct (Forall2_lookup_r _ _ _ _ _ Hall Hi) as (m & Hm & b1 & Hmk & Hb1).
      assert (state c = b1) as -> by (destruct n; by destruct Hb1 as (? & _)).
      split; [by eapply makeMove_wf | by exists m]. }
  destruct Hkids as [Hlen Hkid].
  (* the children after the search hold the same boards *)
  assert (Hstates : map state (kids_of t') = map state (kids_of t)).
  { apply (f_equal kids_of) in Hfv. rewrite !kids_of_forget_val in Hfv.
    apply (f_equal (map state)) in Hfv. rewrite !map_map in Hfv.
    erewrite (map_ext (fun x => state (forget_val x)) state) in Hfv
      by apply state_forget_val.
    erewrite (map_ext (fun x => state (forget_val x)) state) in Hfv
      by apply state_forget_val.
    done. }
  assert (Hcount : child_count t' = Z.of_nat (length ml)).
  { apply (f_equal child_count) in Hfv.
    destruct t, t'. simpl in *. by rewrite Hfv, Hcc, Hmv. }
  assert (Hkid' : forall i c, kids_of t' !! i = Some c ->
      wf_board (state c) /\
      exists m, ml !! i = Some m /\ makeMove b m.1 m.2 p = Ok (state c)).
  { intros i c Hi.
    apply (f_equal (fun l => l !! i)) in Hstates.
    rewrite !list_lookup_fmap, Hi in Hstates. simpl in Hstates.
    destruct (kids_of t !! i) as [c0|] eqn:E; [|done].
    injection Hstates as ->. by apply (Hkid i c0). }
  assert (Hwfk : Forall (fun c => wf_board (state c)) (kids_of t')).
  { apply Forall_forall. intros c Hin.
    apply list_elem_of_lookup in Hin as [i Hi]. by apply (Hkid' i c). }
  assert (Hhead : kids_of t' <> [] ->
            exists m, head ml = Some m /\ on_grid m.1 m.2 = true).
  { intros Hne. destruct (kids_of t') as [|c cs] eqn:E; [done|].
    destruct (Hkid' 0%nat c eq_refl) as (_ & m & Hm & Hmk).
    exists m. split; [by destruct ml|]. by eapply makeMove_Ok_on_grid. }
  assert (Hle : (Z.to_nat (child_count t') <= length (kids_of t'))%nat).
  { rewrite Hcount, Nat2Z.id, <- Hlen.
    apply (f_equal length) in Hstates. rewrite !length_map in Hstates. lia. }
  destruct (choose_total (no_child t') b ml p v (kids_of t') Hwf Hwfk Hhead
              _ Hle) as [b' Hch'].
  exists ml, b'. split; [done|]. split.
  - unfold Layout.ai_turn, Layout.CreateTree. rewrite Hml, En, Ht. simpl.
    rewrite Hs. simpl. rewrite <- Hch'.
    unfold no_child, kids_of. by destruct (children t').
  - apply choose_result in Hch' as [?|[(c & Hin & ->)|(m & Hm & Hmk)]];
      [by left | |]; right.
    + apply list_elem_of_lookup in Hin as [i Hi].
      destruct (Hkid' i c Hi) as (_ & [r0 c0] & Hm & Hmk).
      exists r0, c0. split; [by eapply list_elem_of_lookup_2 | done].
    + destruct m as [r0 c0]. exists r0, c0. split; [|done].
      destruct ml; [done|]. injection Hm as ->. left.
Qed.

(** X21.  The engine's turn on an implementation.  From a board of eight
    rows of eight cells and with a depth of 1 or more it returns, whatever
    lies in front of the array; the board it leaves is the board it was
    given (the scan of the children has found no val equal to the value of
    the search), or the board after [makeMove] on a cell of the list that
    [calculateLegalMoves] returns for the engine's colour: an empty cell, so
    the board holds exactly one disc more.  Where the opponent has no piece
    in column 0 that move is legal by the capture rule. *)
Theorem ai_turn_plays_a_listed_move (mem : list cell) (depth : Z)
    (b : board) (p : player) :
  wf_board b -> 1 <= depth ->
  exists ml b',
    Layout.calculateLegalMoves mem b p = Ok ml /\
    Layout.ai_turn mem depth b p = Ok b' /\
    (b' = b \/
     exists r c,
       (r, c) ∈ ml /\ cellAt b r c = Some Empty /\
       makeMove b r c p = Ok b' /\
       wf_board b' /\ discs b' = discs b + 1 /\
       ((forall r', cellAt b r' 0 <> Some (Disc (otherPlayer p))) ->
        legal_by_rule b p r c)).
Proof.
  intros Hwf Hdepth.
  destruct (Layout_ai_turn_returns mem depth b p Hwf Hdepth)
    as (ml & b' & Hml & Hai & Hmove).
  exists ml, b'. split; [done|]. split; [done|].
  destruct Hmove as [->|(r & c & Hin & Hm)]; [by left|]. right.
  destruct (Layout_calculateLegalMoves_total mem b p Hwf)
    as (ml' & Hml' & _ & Hempty & _).
  rewrite Hml in Hml'. injection Hml' as <-.
  pose proof (Hempty r c Hin) as He.
  destruct (empty_move_adds_a_disc b p r c b' Hwf He Hm) as [Hwf' Hd].
  exists r, c. do 5 (split; [done|]).
  intros Hcol.
  destruct (Layout_calculateLegalMoves_safe mem b p Hwf Hcol)
    as (l & Hl & _ & Hrule).
  rewrite Hml in Hl. injection Hl as <-. by apply Hrule.
Qed.

Lemma ai_turn_plays_a_listed_move_witness :
  exists b',
    Layout.ai_turn [] MINIMAX_DEPTH initial_board Black = Ok b' /\
    makeMove initial_board 2 3 Black = Ok b' /\
    discs b' = discs initial_board + 1 /\
    ai_turn MINIMAX_DEPTH initial_board Black = Fail OutOfBounds.
Proof.
  assert (Hd : 1 <= MINIMAX_DEPTH) by (unfold MINIMAX_DEPTH; lia).
  destruct (ai_turn_plays_a_listed_move [] MINIMAX_DEPTH initial_board Black
              initial_board_wf Hd) as (ml & b' & _ & Hai & Hmove).
  assert (Hm : (b0 ← Layout.ai_turn [] MINIMAX_DEPTH initial_board Black;
                b1 ← makeMove initial_board 2 3 Black;
                Ok (bool_decide (b0 = b1))) = Ok true)
    by (vm_compute; reflexivity).
  rewrite Hai in Hm. simpl in Hm.
  destruct (makeMove initial_board 2 3 Black) as [b1|] eqn:Hmk; [|done].
  simpl in Hm. injection Hm as Hm. apply bool_decide_eq_true in Hm.
  subst b1.
  exists b'. split; [exact Hai|]. split; [reflexivity|]. split.
  - destruct Hmove as [->|(r & c & _ & _ & _ & _ & Hdiscs & _)];
      [by vm_compute in Hmk | exact Hdiscs].
  - vm_compute. reflexivity.
Defined.

(** ** The board in memory: the game loops *)

Lemma Layout_turn_passes_total mem b p ml :
  Layout.calculateLegalMoves mem b p = Ok ml ->
  Layout.turn_passes mem b p
  = Ok (if decide (ml = []) then Some (switch_players p) else None).
Proof.
  intros H. unfold Layout.turn_passes, Layout.getBlackLegalMoves,
    Layout.getWhiteLegalMoves.
  destruct p; simpl; rewrite H; simpl; by destruct ml.
Qed.

(* a line that names a cell of the grid is refused, or the move is made:
   it is in the list and on an empty cell *)
Lemma try_move_total b ml r c p :
  wf_board b -> on_grid r c = true ->
  try_move b ml r c p = Ok None \/
  exists b', try_move b ml r c p = Ok (Some (inl b')) /\
    (r, c) ∈ ml /\ cellAt b r c = Some Empty /\ makeMove b r c p = Ok b'.
Proof.
  intros Hwf Hg. unfold try_move, isLegalMove.
  replace ((r >? 7) || (r <? 0) || (c >? 7) || (c <? 0))
    with (off_board r c) by done.
  rewrite off_board_on_grid by done.
  destruct (cellAt_wf b r c Hwf Hg) as [x Hx].
  rewrite (proj2 (read_Ok _ _ _ _) Hx). simpl.
  destruct (decide (x <> Empty)) as [|He]; [by left|].
  apply dec_stable in He. subst x.
  destruct (decide ((r, c) ∈ ml)) as [Hin|]; [|by left].
  right. destruct (makeMove_spec b p r c Hwf Hg) as (b' & Hm & _).
  exists b'. rewrite Hm. done.
Qed.

Lemma Layout_two_player_step_total mem inp g ml :
  wf_board (g_board g) ->
  Layout.calculateLegalMoves mem (g_board g) (g_player g) = Ok ml ->
  exists g', Layout.two_player_step mem inp g = Ok (Continue g') /\
             listed_step ml g g'.
Proof.
  intros Hwf Hml. unfold Layout.two_player_step.
  rewrite Hml. simpl. rewrite (Layout_turn_passes_total _ _ _ _ Hml). simpl.
  destruct (decide (ml = [])).
  { eexists. split; [reflexivity|]. left. simpl. split; [done | lia]. }
  destruct (parse_move (inp (g_read g))) as [[r c]|] eqn:Hp.
  2:{ eexists. split; [reflexivity|]. left. simpl. split; [done | lia]. }
  apply parse_move_on_grid in Hp.
  destruct (try_move_total (g_board g) ml r c (g_player g) Hwf Hp)
    as [->|(b' & -> & Hin & He & Hm)]; simpl.
  { eexists. split; [reflexivity|]. left. simpl. split; [done | lia]. }
  pose proof (makeMove_wf _ _ _ _ _ Hwf Hm) as Hwf'.
  rewrite !getScore_wf by done. simpl.
  eexists. split; [reflexivity|]. right. exists r, c. simpl. done.
Qed.

(* the user's turn ends with a move of the list, or the lines read were all
   refused *)
Lemma user_turn_total fuel inp b ml p : forall n,
  wf_board b ->
  user_turn fuel inp b ml p n = Fail OutOfFuel \/
  exists b' n' r c,
    user_turn fuel inp b ml p n = Ok (inl b', n') /\
    (r, c) ∈ ml /\ cellAt b r c = Some Empty /\ makeMove b r c p = Ok b'.
Proof.
  induction fuel as [|fuel IH]; intros n Hwf; simpl; [by left|].
  destruct (parse_move (inp n)) as [[r c]|] eqn:Hp; [|by apply IH].
  apply parse_move_on_grid in Hp.
  destruct (try_move_total b ml r c p Hwf Hp)
    as [->|(b' & -> & Hin & He & Hm)]; simpl; [by apply IH|].
  right. by exists b', (S n), r, c.
Qed.

Lemma Layout_ai_game_step_total mem fuel inp pc g ml :
  wf_board (g_board g) ->
  Layout.calculateLegalMoves mem (g_board g) (g_player g) = Ok ml ->
  (g_player g = pc /\
   Layout.ai_game_step mem fuel inp pc g = Fail OutOfFuel) \/
  exists g', Layout.ai_game_step mem fuel inp pc g = Ok (Continue g') /\
             listed_step ml g g'.
Proof.
  intros Hwf Hml. unfold Layout.ai_game_step.
  rewrite Hml. simpl. rewrite (Layout_turn_passes_total _ _ _ _ Hml). simpl.
  destruct (decide (ml = [])).
  { right. eexists. split; [reflexivity|]. left. simpl. split; [done | lia]. }
  rewrite !getScore_wf by done. simpl.
  destruct (decide (g_player g = pc)) as [Hpc|Hpc].
  - rewrite <- Hpc, Hml. simpl.
    destruct (user_turn_total fuel inp (g_board g) ml (g_player g) (g_read g)
                Hwf) as [->|(b' & n' & r & c & -> & Hin & He & Hm)]; simpl.
    + by left.
    + right. eexists. split; [reflexivity|]. right. exists r, c. simpl.
      pose proof (makeMove_wf _ _ _ _ _ Hwf Hm). done.
  - right.
    destruct (Layout_ai_turn_returns mem MINIMAX_DEPTH (g_board g) (g_player g)
                Hwf) as (ml' & b' & Hml' & -> & Hmove);
      [unfold MINIMAX_DEPTH; lia|].
    rewrite Hml in Hml'. injection Hml' as <-. simpl.
    eexists. split; [reflexivity|].
    destruct Hmove as [->|(r & c & Hin & Hm)].
    + left. simpl. split; [done | lia].
    + right. exists r, c. simpl.
      destruct (Layout_calculateLegalMoves_total mem (g_board g) (g_player g)
                  Hwf) as (ml' & Hml' & _ & Hempty & _).
      rewrite Hml in Hml'. injection Hml' as <-.
      pose proof (makeMove_wf _ _ _ _ _ Hwf Hm). split; [done|].
      split; [by apply Hempty | done].
Qed.

(** X25.  An iteration of a game loop on an implementation.  From a
    board of eight rows of eight cells, whatever lies in front of the
    array, an iteration of the two-player loop ends and the loop goes on;
    an iteration of the loop of the game against the engine ends and the
    loop goes on, unless it is the user's turn and no line of the input is
    accepted.  The board is then as it was (the turn has passed, the line
    was refused, or the engine has left the board), or it is the board
    after [makeMove] on a cell of the list of [calculateLegalMoves] for the
    player to move, an empty cell; in that case the turn goes to the other
    player and total_moves has grown by one. *)
Theorem game_steps_are_listed_moves (mem : list cell) (fuel : nat)
    (inp : input) (player_char : player) (g : game) :
  wf_board (g_board g) ->
  exists ml,
    Layout.calculateLegalMoves mem (g_board g) (g_player g) = Ok ml /\
    (exists g', Layout.two_player_step mem inp g = Ok (Continue g') /\
                listed_step ml g g') /\
    ((g_player g = player_char /\
      Layout.ai_game_step mem fuel inp player_char g = Fail OutOfFuel) \/
     exists g', Layout.ai_game_step mem fuel inp player_char g
                = Ok (Continue g') /\
                listed_step ml g g').
Proof.
  intros Hwf.
  destruct (Layout_calculateLegalMoves_total mem (g_board g) (g_player g) Hwf)
    as (ml & Hml & _).
  exists ml. split; [done|]. split.
  - by apply Layout_two_player_step_total.
  - by apply Layout_ai_game_step_total.
Qed.

Lemma game_steps_are_listed_moves_witness :
  exists g' b',
    Layout.two_player_step [] (fun _ => "3 1"%string)
      (mkGame left_edge_board Black 6 0) = Ok (Continue g') /\
    makeMove left_edge_board 3 1 Black = Ok b' /\
    g_board g' = b' /\ g_total_moves g' = 7 /\
    ~ legal_by_rule left_edge_board Black 3 1.
Proof.
  destruct (game_steps_are_listed_moves [] 0 (fun _ => "3 1"%string) White
              (mkGame left_edge_board Black 6 0) left_edge_board_wf)
    as (ml & _ & (g' & Hstep & _) & _).
  assert (Hc : (s ← Layout.two_player_step [] (fun _ => "3 1"%string)
                     (mkGame left_edge_board Black 6 0);
                b1 ← makeMove left_edge_board 3 1 Black;
                Ok (match s with
                    | Continue g1 =>
                        bool_decide (g_board g1 = b1) &&
                        bool_decide (g_total_moves g1 = 7)
                    | Return _ _ => false
                    end)) = Ok true) by (vm_compute; reflexivity).
  rewrite Hstep in Hc. simpl in Hc.
  destruct (makeMove left_edge_board 3 1 Black) as [b1|] eqn:Hm; [|done].
  simpl in Hc. injection Hc as Hc. apply andb_true_iff in Hc as [H1 H2].
  apply bool_decide_eq_true in H1, H2.
  exists g', b1. split; [exact Hstep|]. split; [reflexivity|].
  split; [exact H1|]. split; [exact H2|].
  intros (_ & d & Hd & k & Hk & Hcells & Hend).
  pose proof (Hcells 1 ltac:(lia)) as Hfirst.
  unfold surroundingPosDeltas in Hd.
  repeat (apply elem_of_cons in Hd as [->|Hd]); try done.
  - destruct (decide (k = 1)) as [->|Hne]; [done|].
    by specialize (Hcells 2 ltac:(lia)).
  - by apply elem_of_nil in Hd.
Defined.
